(** * orbitize: the Kepler solver and the OFTI / MCMC samplers

    A shallow embedding of [orbitize/kepler.py] and [orbitize/sampler.py].
    NumPy float arrays are lists of real numbers: every [float64] is
    idealised as a real of [Stdlib.Reals], so rounding, NaN and infinities
    are outside the model.  Exceptions raised by NumPy or Python are values
    of the type [exn].  The anomaly solver is embedded a second time, in
    [KeplerBinary64], on the binary64 numbers themselves. *)

From Stdlib Require Import String.
From Stdlib Require Import Reals Lra Lia List ZArith Bool Arith.
From Stdlib Require Floats.
Import ListNotations.

Set Implicit Arguments.

(** ** Python exceptions and the result type *)

Inductive exn : Type :=
| IndexError
| ValueError
| NameError
| AttributeError
| ZeroDivisionError
| AssertionError.

Inductive result (A : Type) : Type :=
| Ok (a : A)
| Raise (e : exn).

Arguments Ok {A} a.
Arguments Raise {A} e.

Definition bind {A B : Type} (m : result A) (k : A -> result B) : result B :=
  match m with
  | Ok a => k a
  | Raise e => Raise e
  end.

Notation "x <- m ;; k" := (bind m (fun x => k))
  (at level 61, m at next level, right associativity).

(** ** The part of NumPy that the samplers use on one axis *)

Module NumPy.

Section OneAxis.
Variable A : Type.

(** [arr[lo:hi]] for non-negative bounds: both are clipped to the length. *)
Definition slice (arr : list A) (lo hi : nat) : list A :=
  firstn (hi - lo) (skipn lo arr).

(** [np.insert(arr, index, value)] for a non-negative scalar index. *)
Definition insert (arr : list A) (index : nat) (value : A) : result (list A) :=
  if index <=? length arr
  then Ok (firstn index arr ++ value :: skipn index arr)
  else Raise IndexError.

(** [arr[lo:hi] = rhs] on the first axis.  The target slice is clipped to
    the array; a right-hand side of the same length is copied, one of
    length 1 is broadcast, anything else does not broadcast. *)
Definition set_slice (arr : list A) (lo hi : nat) (rhs : list A)
  : result (list A) :=
  let n := length (slice arr lo hi) in
  if length rhs =? n
  then Ok (firstn lo arr ++ rhs ++ skipn (lo + n) arr)
  else match rhs with
       | [x] => Ok (firstn lo arr ++ repeat x n ++ skipn (lo + n) arr)
       | _ => Raise ValueError
       end.
End OneAxis.

(** An n-dimensional float array: its shape and its cells in row-major
    order. *)
Record ndarray : Type := { shape : list nat; data : list R }.

Definition size (shp : list nat) : nat := fold_right Nat.mul 1 shp.

Definition ndim (a : ndarray) : nat := length (shape a).

(** [a.reshape(newshape)]. *)
Definition reshape (a : ndarray) (newshape : list nat) : result ndarray :=
  if size newshape =? length (data a)
  then Ok {| shape := newshape; data := data a |}
  else Raise ValueError.

(** A slice bound of Python, brought into [0 .. len]: a negative bound
    counts from the end. *)
Definition clip (i : Z) (len : nat) : nat :=
  if (i <? 0)%Z then Z.to_nat (Z.max 0 (i + Z.of_nat len))
  else Nat.min (Z.to_nat i) len.

Fixpoint chunks (width count : nat) (cells : list R) : list (list R) :=
  match count with
  | 0 => []
  | S count' => firstn width cells :: chunks width count' (skipn width cells)
  end.

(** The cells of [a] with the index on [axis] in [lo .. hi). *)
Definition slice_axis (axis : nat) (lo hi : Z) (a : ndarray) : ndarray :=
  let outer := size (firstn axis (shape a)) in
  let dim := nth axis (shape a) 0 in
  let inner := size (skipn (S axis) (shape a)) in
  let lo' := clip lo dim in
  let hi' := clip hi dim in
  {| shape := firstn axis (shape a) ++ (hi' - lo') :: skipn (S axis) (shape a);
     data := concat (map (fun c => slice c (lo' * inner) (hi' * inner))
                         (chunks (dim * inner) outer (data a))) |}.

(** [a[:, ..., lo:hi, ..., :]] written with [subscripts] subscripts, the
    slice [lo:hi] being the one at position [axis]. *)
Definition getitem (subscripts axis : nat) (lo hi : Z) (a : ndarray)
  : result ndarray :=
  if subscripts <=? ndim a then Ok (slice_axis axis lo hi a)
  else Raise IndexError.

(** The shape after [np.squeeze]: every axis of length 1 is dropped. *)
Definition squeeze (shp : list nat) : list nat :=
  filter (fun d => negb (d =? 1)) shp.

(** [a.shape[-2]]. *)
Definition shape_minus2 (a : ndarray) : result nat :=
  match rev (shape a) with
  | _ :: n :: _ => Ok n
  | _ => Raise IndexError
  end.

End NumPy.

(** ** kepler.py: the anomaly solver *)

Module Kepler.

Open Scope R_scope.

(** Comparisons of two floats, as truth values. *)
Definition gtb (x y : R) : bool := if Rgt_dec x y then true else false.
Definition ltb (x y : R) : bool := if Rlt_dec x y then true else false.
Definition geb (x y : R) : bool := if Rge_dec x y then true else false.
Definition eqb (x y : R) : bool := if Req_dec_T x y then true else false.

(** [x % m] on floats, for [m > 0]: the result lies in [[0, m)]. *)
Definition fmod (x m : R) : R := x - m * IZR (Int_part (x / m)).

(** [x ** y] for a fractional [y] and [x >= 0]. *)
Definition float_power (x y : R) : R :=
  if Req_dec_T x 0 then 0 else Rpower x y.

Section Indexing.
Variable A : Type.

(** [np.where(cond)] lists, in row-major order, the positions at which
    [cond] holds; it is kept here as the list of truth values [cond]
    itself.  [len(ind[0]) > 0]: *)
Definition nonempty (ind : list bool) : bool := existsb (fun b => b) ind.

(** [arr[ind]]: a new array of the cells of [arr] at the positions of
    [ind], in order.  [ind] is meant to come from an array as long as
    [arr]: where it is longer and marks a position outside [arr], NumPy
    raises [IndexError], and this function drops the position. *)
Fixpoint select (ind : list bool) (arr : list A) : list A :=
  match ind, arr with
  | b :: ind', a :: arr' =>
      if b then a :: select ind' arr' else select ind' arr'
  | _, _ => []
  end.

(** [arr[ind] = vals]: the k-th position of [ind] receives the k-th cell
    of [vals]. *)
Fixpoint scatter (ind : list bool) (vals arr : list A) : list A :=
  match ind, arr with
  | b :: ind', a :: arr' =>
      if b then
        match vals with
        | v :: vals' => v :: scatter ind' vals' arr'
        | [] => a :: scatter ind' [] arr'
        end
      else a :: scatter ind' vals arr'
  | _, _ => arr
  end.
End Indexing.

Arguments select {A} ind arr.
Arguments scatter {A} ind vals arr.

(** How many positions of [ind] come before position [i]: where the cell
    [i] of an array sits in [arr[ind]]. *)
Fixpoint rank (ind : list bool) (i : nat) : nat :=
  match i, ind with
  | S i', b :: ind' => if b then S (rank ind' i') else rank ind' i'
  | _, _ => O
  end.

(** *** _mikkola_solver *)

(** One cell of [_mikkola_solver(manom, ecc)]. *)
Definition mikkola (manom ecc : R) : R :=
  let alpha := (1 - ecc) / ((4 * ecc) + 1 / 2) in
  let beta := ((1 / 2) * manom) / ((4 * ecc) + 1 / 2) in
  let aux := sqrt (beta ^ 2 + alpha ^ 3) in
  let z := beta + aux in
  let z := float_power z (1 / 3) in
  let s0 := z - (alpha / z) in
  let s1 := s0 - ((78 / 1000) * (s0 ^ 5)) / (1 + ecc) in
  let e0 := manom + (ecc * (3 * s1 - 4 * (s1 ^ 3))) in
  let se0 := sin e0 in
  let ce0 := cos e0 in
  let f := e0 - ecc * se0 - manom in
  let f1 := 1 - ecc * ce0 in
  let f2 := ecc * se0 in
  let f3 := ecc * ce0 in
  let f4 := - f2 in
  let u1 := - f / f1 in
  let u2 := - f / (f1 + (1 / 2) * f2 * u1) in
  let u3 := - f / (f1 + (1 / 2) * f2 * u2 + (1 / 6) * f3 * u2 * u2) in
  let u4 := - f / (f1 + (1 / 2) * f2 * u3 + (1 / 6) * f3 * u3 * u3
                   + (1 / 24) * f4 * (u3 ^ 3)) in
  e0 + u4.

Definition _mikkola_solver (manom ecc : list R) : list R :=
  map (fun me => mikkola (fst me) (snd me)) (combine manom ecc).

(** *** _mikkola_solver_wrapper *)

Definition reflect (x : R) : R := (2 * PI) - x.

(** The array [manom] as the wrapper leaves it: the cells above [pi] are
    overwritten in place by their reflection. *)
Definition reflected (manom : list R) : list R :=
  let ind_change := map (fun m => gtb m PI) manom in
  scatter ind_change (map reflect (select ind_change manom)) manom.

(** The array that [_mikkola_solver_wrapper] returns. *)
Definition _mikkola_solver_wrapper (manom ecc : list R) : list R :=
  let ind_change := map (fun m => gtb m PI) manom in
  let manom := reflected manom in
  let eanom := _mikkola_solver manom ecc in
  scatter ind_change (map reflect (select ind_change eanom)) eanom.

(** One cell of the array that [_mikkola_solver_wrapper] returns. *)
Definition mikkola_wrapped (manom ecc : R) : R :=
  if gtb manom PI then reflect (mikkola (reflect manom) ecc)
  else mikkola manom ecc.

(** *** _newton_solver *)

(** [(eanom - ecc sin(eanom) - manom) / (1 - ecc cos(eanom))]. *)
Definition correction (manom ecc eanom : R) : R :=
  (eanom - (ecc * sin eanom) - manom) / (1 - (ecc * cos eanom)).

(** One position of the arrays [manom], [ecc], [eanom], [diff] and
    [abs_diff] of [_newton_solver]. *)
Record newton_cell : Type := {
  c_manom : R;
  c_ecc : R;
  c_eanom : R;
  c_diff : R;
  c_abs_diff : R
}.

(** The two unconditional steps, then [diff] and [abs_diff]. *)
Definition newton_start (manom ecc : R) : newton_cell :=
  let eanom := manom in
  let eanom := eanom - correction manom ecc eanom in
  let eanom := eanom - correction manom ecc eanom in
  let diff := correction manom ecc eanom in
  {| c_manom := manom; c_ecc := ecc; c_eanom := eanom;
     c_diff := diff; c_abs_diff := Rabs diff |}.

(** [np.where(abs_diff > tolerance)] at one position. *)
Definition in_ind (tolerance : R) (c : newton_cell) : bool :=
  gtb (c_abs_diff c) tolerance.

(** The body of the [while] loop at one position. *)
Definition newton_iterate (tolerance : R) (c : newton_cell) : newton_cell :=
  if in_ind tolerance c then
    let eanom := c_eanom c - c_diff c in
    let diff := correction (c_manom c) (c_ecc c) eanom in
    {| c_manom := c_manom c; c_ecc := c_ecc c; c_eanom := eanom;
       c_diff := diff; c_abs_diff := Rabs diff |}
  else c.

(** [while (ind[0].size > 0) and (niter <= max_iter)].  The loop runs at
    most [max_iter + 1] times, which bounds [fuel]. *)
Fixpoint newton_loop (tolerance : R) (max_iter : Z) (fuel : nat) (niter : Z)
    (cells : list newton_cell) : list newton_cell * Z :=
  match fuel with
  | O => (cells, niter)
  | S fuel' =>
      if nonempty (map (in_ind tolerance) cells) && (niter <=? max_iter)%Z
      then newton_loop tolerance max_iter fuel' (niter + 1)%Z
             (map (newton_iterate tolerance) cells)
      else (cells, niter)
  end.

(** The arrays of [_newton_solver] at the moment its [while] loop stops. *)
Definition newton_cells (manom ecc : list R) (tolerance : R) (max_iter : Z)
  : list newton_cell :=
  fst (newton_loop tolerance max_iter (Z.to_nat (max_iter + 1)) 0%Z
         (map (fun me => newton_start (fst me) (snd me)) (combine manom ecc))).

(** Position [k] is still in [ind] then: its residual exceeds the
    tolerance although the iterations are used up. *)
Definition exhausted (manom ecc : list R) (tolerance : R) (max_iter : Z)
    (k : nat) : Prop :=
  exists c,
    nth_error (newton_cells manom ecc tolerance max_iter) k = Some c /\
    in_ind tolerance c = true.

Definition _newton_solver (manom ecc : list R) (tolerance : R) (max_iter : Z)
  : list R :=
  let cells :=
    map (fun me => newton_start (fst me) (snd me)) (combine manom ecc) in
  let (cells, niter) :=
    newton_loop tolerance max_iter (Z.to_nat (max_iter + 1)) 0%Z cells in
  let eanom := map c_eanom cells in
  if (niter >=? max_iter)%Z then
    let ind := map (in_ind tolerance) cells in
    scatter ind (_mikkola_solver_wrapper (select ind manom) (select ind ecc)) eanom
  else eanom.

(** *** _calc_ecc_anom *)

(** A cell of [np.full(shape, np.nan)] that nothing has been stored in is
    [None]. *)
Definition _calc_ecc_anom (manom ecc : list R) (tolerance : R) (max_iter : Z)
  : list (option R) :=
  let eanom := repeat None (length manom) in
  let ind_zero := map (fun e => eqb e 0) ecc in
  let eanom :=
    if nonempty ind_zero
    then scatter ind_zero (map Some (select ind_zero manom)) eanom
    else eanom in
  let ind_low := map (fun e => ltb e (95 / 100)) ecc in
  let eanom :=
    if nonempty ind_low
    then scatter ind_low
           (map Some (_newton_solver (select ind_low manom) (select ind_low ecc)
                        tolerance max_iter))
           eanom
    else eanom in
  let ind_high := map (fun e => geb e (95 / 100)) ecc in
  let eanom :=
    if nonempty ind_high
    then scatter ind_high
           (map Some (_mikkola_solver_wrapper (select ind_high manom)
                        (select ind_high ecc)))
           eanom
    else eanom in
  eanom.

(** The defaults [tolerance=1e-9] and [max_iter=100]. *)
Definition default_tolerance : R := / 10 ^ 9.
Definition default_max_iter : Z := 100.

End Kepler.

(** ** kepler.py: the anomaly solver on binary64

    The same functions once more, with [float64] kept as it is: the
    binary64 numbers of IEEE 754 with their rounding, signed zeros,
    infinities and NaN, so that [np.full(shape, np.nan)] is an array of
    NaN and a division by zero is an infinity or NaN (NumPy warns and
    goes on).  The arithmetic and [np.sqrt] are those of IEEE 754; what
    NumPy takes from the C library is a parameter. *)

Module KeplerBinary64.

Import PrimFloat.
Local Open Scope float_scope.
#[local] Set Warnings "-inexact-float".

(** The functions of the C library behind [**], [np.sin] and [np.cos]. *)
Record libm : Type := {
  libm_pow : float -> float -> float;
  libm_sin : float -> float;
  libm_cos : float -> float
}.

(** [np.pi]. *)
Definition pi : float := 0x1.921fb54442d18p+1.

Section Solver.
Variable lm : libm.

Local Notation "x ** y" := (libm_pow lm x y) (at level 30, right associativity).

(** *** _mikkola_solver *)

(** One cell of [_mikkola_solver(manom, ecc)]. *)
Definition mikkola (manom ecc : float) : float :=
  let alpha := (1.0 - ecc) / ((4.0 * ecc) + 0.5) in
  let beta := (0.5 * manom) / ((4.0 * ecc) + 0.5) in
  let aux := sqrt (beta ** 2.0 + alpha ** 3.0) in
  let z := beta + aux in
  let z := z ** (1.0 / 3.0) in
  let s0 := z - (alpha / z) in
  let s1 := s0 - (0.078 * (s0 ** 5.0)) / (1.0 + ecc) in
  let e0 := manom + (ecc * (3.0 * s1 - 4.0 * (s1 ** 3.0))) in
  let se0 := libm_sin lm e0 in
  let ce0 := libm_cos lm e0 in
  let f := e0 - ecc * se0 - manom in
  let f1 := 1.0 - ecc * ce0 in
  let f2 := ecc * se0 in
  let f3 := ecc * ce0 in
  let f4 := - f2 in
  let u1 := - f / f1 in
  let u2 := - f / (f1 + 0.5 * f2 * u1) in
  let u3 := - f / (f1 + 0.5 * f2 * u2 + (1.0 / 6.0) * f3 * u2 * u2) in
  let u4 := - f / (f1 + 0.5 * f2 * u3 + (1.0 / 6.0) * f3 * u3 * u3
                   + (1.0 / 24.0) * f4 * (u3 ** 3.0)) in
  e0 + u4.

Definition _mikkola_solver (manom ecc : list float) : list float :=
  map (fun me => mikkola (fst me) (snd me)) (combine manom ecc).

(** *** _mikkola_solver_wrapper *)

Definition reflect (x : float) : float := (2.0 * pi) - x.

Definition reflected (manom : list float) : list float :=
  let ind_change := map (fun m => pi <? m) manom in
  Kepler.scatter ind_change (map reflect (Kepler.select ind_change manom)) manom.

Definition _mikkola_solver_wrapper (manom ecc : list float) : list float :=
  let ind_change := map (fun m => pi <? m) manom in
  let manom := reflected manom in
  let eanom := _mikkola_solver manom ecc in
  Kepler.scatter ind_change (map reflect (Kepler.select ind_change eanom)) eanom.

(** One cell of the array that [_mikkola_solver_wrapper] returns. *)
Definition mikkola_wrapped (manom ecc : float) : float :=
  if pi <? manom then reflect (mikkola (reflect manom) ecc)
  else mikkola manom ecc.

(** *** _newton_solver *)

Definition correction (manom ecc eanom : float) : float :=
  (eanom - (ecc * libm_sin lm eanom) - manom)
  / (1.0 - (ecc * libm_cos lm eanom)).

Record newton_cell : Type := {
  c_manom : float;
  c_ecc : float;
  c_eanom : float;
  c_diff : float;
  c_abs_diff : float
}.

Definition newton_start (manom ecc : float) : newton_cell :=
  let eanom := manom in
  let eanom := eanom - correction manom ecc eanom in
  let eanom := eanom - correction manom ecc eanom in
  let diff := correction manom ecc eanom in
  {| c_manom := manom; c_ecc := ecc; c_eanom := eanom;
     c_diff := diff; c_abs_diff := abs diff |}.

(** [np.where(abs_diff > tolerance)] at one position. *)
Definition in_ind (tolerance : float) (c : newton_cell) : bool :=
  tolerance <? c_abs_diff c.

Definition newton_iterate (tolerance : float) (c : newton_cell) : newton_cell :=
  if in_ind tolerance c then
    let eanom := c_eanom c - c_diff c in
    let diff := correction (c_manom c) (c_ecc c) eanom in
    {| c_manom := c_manom c; c_ecc := c_ecc c; c_eanom := eanom;
       c_diff := diff; c_abs_diff := abs diff |}
  else c.

Fixpoint newton_loop (tolerance : float) (max_iter : Z) (fuel : nat) (niter : Z)
    (cells : list newton_cell) : list newton_cell * Z :=
  match fuel with
  | O => (cells, niter)
  | S fuel' =>
      if Kepler.nonempty (map (in_ind tolerance) cells) && (niter <=? max_iter)%Z
      then newton_loop tolerance max_iter fuel' (niter + 1)%Z
             (map (newton_iterate tolerance) cells)
      else (cells, niter)
  end.

(** The arrays of [_newton_solver] at the moment its [while] loop stops. *)
Definition newton_cells (manom ecc : list float) (tolerance : float)
    (max_iter : Z) : list newton_cell :=
  fst (newton_loop tolerance max_iter (Z.to_nat (max_iter + 1)) 0%Z
         (map (fun me => newton_start (fst me) (snd me)) (combine manom ecc))).

(** Position [k] is still in [ind] then. *)
Definition exhausted (manom ecc : list float) (tolerance : float)
    (max_iter : Z) (k : nat) : Prop :=
  exists c,
    nth_error (newton_cells manom ecc tolerance max_iter) k = Some c /\
    in_ind tolerance c = true.

Definition _newton_solver (manom ecc : list float) (tolerance : float)
    (max_iter : Z) : list float :=
  let cells :=
    map (fun me => newton_start (fst me) (snd me)) (combine manom ecc) in
  let (cells, niter) :=
    newton_loop tolerance max_iter (Z.to_nat (max_iter + 1)) 0%Z cells in
  let eanom := map c_eanom cells in
  if (niter >=? max_iter)%Z then
    let ind := map (in_ind tolerance) cells in
    Kepler.scatter ind
      (_mikkola_solver_wrapper (Kepler.select ind manom) (Kepler.select ind ecc))
      eanom
  else eanom.

(** *** _calc_ecc_anom *)

Definition _calc_ecc_anom (manom ecc : list float) (tolerance : float)
    (max_iter : Z) : list float :=
  let eanom := repeat nan (length manom) in
  let ind_zero := map (fun e => e =? 0.0) ecc in
  let eanom :=
    if Kepler.nonempty ind_zero
    then Kepler.scatter ind_zero (Kepler.select ind_zero manom) eanom
    else eanom in
  let ind_low := map (fun e => e <? 0.95) ecc in
  let eanom :=
    if Kepler.nonempty ind_low
    then Kepler.scatter ind_low
           (_newton_solver (Kepler.select ind_low manom)
              (Kepler.select ind_low ecc) tolerance max_iter)
           eanom
    else eanom in
  let ind_high := map (fun e => 0.95 <=? e) ecc in
  let eanom :=
    if Kepler.nonempty ind_high
    then Kepler.scatter ind_high
           (_mikkola_solver_wrapper (Kepler.select ind_high manom)
              (Kepler.select ind_high ecc))
           eanom
    else eanom in
  eanom.

End Solver.

(** What the solver needs of [pow] at M = -1e9, e = 0.5.  C99 (Annex F)
    fixes [pow(+0, y) = +0] for y > 0 and [pow(-inf, y) = -inf] for y an
    odd integer above 0; the square of -2e8 is a binary64 number, so a
    [pow] with an error below one unit in the last place returns it (and
    NumPy computes [** 2.0] as a product); 0.2 cubed is allowed two units
    in the last place around the rounded value. *)
Definition pow_conforms (lm : libm) : Prop :=
  libm_pow lm 0.0 (1.0 / 3.0) = 0.0 /\
  libm_pow lm neg_infinity 5.0 = neg_infinity /\
  libm_pow lm (-2e8) 2.0 = 4e16 /\
  In (libm_pow lm 0.2 3.0)
    (let c := 0x1.0624dd2f1a9fdp-7 in
     [next_down (next_down c); next_down c; c; next_up c; next_up (next_up c)]).

(** A library that conforms: [pow] by products at the exponents 2, 3 and
    5, the values of [sin] and [cos] at 0 everywhere.  It only shows that
    [pow_conforms] can be met. *)
Definition sample_libm : libm :=
  {| libm_pow := fun x y =>
       if y =? 2.0 then x * x
       else if y =? 3.0 then x * x * x
       else if y =? 5.0 then x * x * x * x * x
       else if x =? 0.0 then 0.0 else nan;
     libm_sin := fun _ => 0.0;
     libm_cos := fun _ => 1.0 |}.

End KeplerBinary64.

(** ** kepler.py: calc_orbit *)

Module Orbit.

Import Kepler.
Open Scope R_scope.

(** [astropy.constants] and [astropy.units], in SI units: [consts.G],
    [u.AU], [u.Msun] and [u.day]. *)
Definition G : R := 66743 / 10 ^ 15.
Definition AU : R := 149597870700.
Definition Msun : R := 1988409870698051 * 10 ^ 15.
Definition day : R := 86400.

(** [np.sqrt(4*np.pi**2.0*(sma*u.AU)**3/(consts.G*(mtot*u.Msun)))], in days. *)
Definition period (sma mtot : R) : R :=
  sqrt (4 * PI ^ 2 * (sma * AU) ^ 3 / (G * (mtot * Msun))) / day.

(** One position of the [(n_orbs, n_dates)] arrays of [calc_orbit]. *)
Record cell : Type := {
  epochs : R; sma : R; ecc : R; tau : R; argp : R; lan : R; inc : R;
  plx : R; mtot : R
}.

Definition mean_motion (c : cell) : R := 2 * PI / period (sma c) (mtot c).

Definition manom (c : cell) : R :=
  fmod (mean_motion c * epochs c - 2 * PI * tau c) (2 * PI).

Definition tanom (c : cell) (eanom : R) : R :=
  2 * atan (sqrt ((1 + ecc c) / (1 - ecc c)) * tan ((1 / 2) * eanom)).

Definition radius (c : cell) (eanom : R) : R :=
  sma c * (1 - ecc c * cos eanom).

Definition raoff (c : cell) (eanom : R) : R :=
  let c2i2 := cos ((1 / 2) * inc c) ^ 2 in
  let s2i2 := sin ((1 / 2) * inc c) ^ 2 in
  let arg1 := tanom c eanom + argp c + lan c in
  let arg2 := tanom c eanom + argp c - lan c in
  let plx_as := plx c * (1 / 1000) in
  radius c eanom * (c2i2 * sin arg1 - s2i2 * sin arg2) * plx_as.

Definition deoff (c : cell) (eanom : R) : R :=
  let c2i2 := cos ((1 / 2) * inc c) ^ 2 in
  let s2i2 := sin ((1 / 2) * inc c) ^ 2 in
  let arg1 := tanom c eanom + argp c + lan c in
  let arg2 := tanom c eanom + argp c - lan c in
  let plx_as := plx c * (1 / 1000) in
  radius c eanom * (c2i2 * cos arg1 + s2i2 * cos arg2) * plx_as.

(** The semi-amplitude, in km/s. *)
Definition Kv (c : cell) (mass : R) : R :=
  if Req_dec_T mass 0 then
    mean_motion c * (sma c * sin (inc c)) / sqrt (1 - ecc c ^ 2)
    * (AU / day / 1000)
  else
    let m2 := mtot c - mass in
    sqrt (G / (1 - ecc c ^ 2)) * (m2 * Msun * sin (inc c))
    / sqrt (mtot c * Msun) / sqrt (sma c * AU) / 1000.

Definition vz (c : cell) (mass : R) (eanom : R) : R :=
  Kv c mass * (ecc c * cos (argp c) + cos (argp c + tanom c eanom)).

(** [np.transpose(np.tile(x, (n_dates, 1)))], row-major: shape
    [(np.size(x), n_dates)]. *)
Definition tile_transposed (x : list R) (n_dates : nat) : list R :=
  flat_map (fun a => repeat a n_dates) x.

(** [np.tile(epochs, (n_orbs, 1))], row-major: shape
    [(n_orbs, np.size(epochs))]. *)
Definition tile (x : list R) (n_orbs : nat) : list R :=
  concat (repeat x n_orbs).

(** A returned array: its shape and its cells, [None] for NaN. *)
Record offsets : Type := { o_shape : list nat; o_cells : list (option R) }.

(** [calc_orbit(epochs, sma, ecc, tau, argp, lan, inc, plx, mtot, mass)],
    with its positional parameters in the order of the source, for
    parameter arrays of [np.size(sma)] cells each. *)
Definition calc_orbit (epochs sma ecc tau argp lan inc plx mtot : list R)
    (mass : R) : offsets * offsets * offsets :=
  let n_orbs := length sma in
  let n_dates := length epochs in
  let sma := tile_transposed sma n_dates in
  let inc := tile_transposed inc n_dates in
  let ecc := tile_transposed ecc n_dates in
  let argp := tile_transposed argp n_dates in
  let lan := tile_transposed lan n_dates in
  let tau := tile_transposed tau n_dates in
  let plx := tile_transposed plx n_dates in
  let mtot := tile_transposed mtot n_dates in
  let epochs := tile epochs n_orbs in
  let cells :=
    map (fun k =>
           {| Orbit.epochs := nth k epochs 0; Orbit.sma := nth k sma 0;
              Orbit.ecc := nth k ecc 0; Orbit.tau := nth k tau 0;
              Orbit.argp := nth k argp 0; Orbit.lan := nth k lan 0;
              Orbit.inc := nth k inc 0; Orbit.plx := nth k plx 0;
              Orbit.mtot := nth k mtot 0 |})
        (seq 0 (n_orbs * n_dates)) in
  let eanom :=
    _calc_ecc_anom (map manom cells) (map Orbit.ecc cells)
      default_tolerance default_max_iter in
  let squeezed := NumPy.squeeze [n_orbs; n_dates] in
  let on_cells (f : cell -> R -> R) :=
    map (fun ce => option_map (f (fst ce)) (snd ce)) (combine cells eanom) in
  ({| o_shape := squeezed; o_cells := on_cells raoff |},
   {| o_shape := squeezed; o_cells := on_cells deoff |},
   {| o_shape := squeezed; o_cells := on_cells (fun c => vz c mass) |}).

End Orbit.

(** ** kepler.py with the arrays as objects

    The functions above take arrays as values.  Here the arrays that one
    function hands to another are objects of a store, so that the
    assignment [manom[ind_change] = ...] of [_mikkola_solver_wrapper], which
    writes into the array it was given, is visible to whoever else holds
    that array.  Indexing an array with the result of [np.where] (as in
    [manom[ind_low]]) makes a new array; arithmetic on arrays and
    [np.copy] do so too, and those that no callee receives stay values. *)

Module KeplerStore.

Import Kepler.
Open Scope R_scope.

Definition ref : Type := nat.
Definition store : Type := list (list R).

Definition read (r : ref) (h : store) : list R := nth r h [].

Fixpoint write (r : ref) (v : list R) (h : store) : store :=
  match h, r with
  | [], _ => []
  | _ :: h', O => v :: h'
  | a :: h', S r' => a :: write r' v h'
  end.

Definition new (v : list R) (h : store) : store * ref := (h ++ [v], length h).

Definition _mikkola_solver (manom ecc : ref) (h : store) : store * list R :=
  (h, Kepler._mikkola_solver (read manom h) (read ecc h)).

Definition _mikkola_solver_wrapper (manom ecc : ref) (h : store)
  : store * list R :=
  let ind_change := map (fun m => gtb m PI) (read manom h) in
  let h := write manom
             (scatter ind_change
                (map reflect (select ind_change (read manom h))) (read manom h))
             h in
  let (h, eanom) := _mikkola_solver manom ecc h in
  (h, scatter ind_change (map reflect (select ind_change eanom)) eanom).

Definition _newton_solver (manom ecc : ref) (tolerance : R) (max_iter : Z)
    (h : store) : store * list R :=
  let cells :=
    map (fun me => newton_start (fst me) (snd me))
        (combine (read manom h) (read ecc h)) in
  let (cells, niter) :=
    newton_loop tolerance max_iter (Z.to_nat (max_iter + 1)) 0%Z cells in
  let eanom := map c_eanom cells in
  if (niter >=? max_iter)%Z then
    let ind := map (in_ind tolerance) cells in
    let (h, manom_ind) := new (select ind (read manom h)) h in
    let (h, ecc_ind) := new (select ind (read ecc h)) h in
    let (h, sent) := _mikkola_solver_wrapper manom_ind ecc_ind h in
    (h, scatter ind sent eanom)
  else (h, eanom).

Definition _calc_ecc_anom (manom ecc : ref) (tolerance : R) (max_iter : Z)
    (h : store) : store * list (option R) :=
  let eanom := repeat None (length (read manom h)) in
  let ind_zero := map (fun e => eqb e 0) (read ecc h) in
  let eanom :=
    if nonempty ind_zero
    then scatter ind_zero (map Some (select ind_zero (read manom h))) eanom
    else eanom in
  let ind_low := map (fun e => ltb e (95 / 100)) (read ecc h) in
  let (h, eanom) :=
    if nonempty ind_low
    then
      let (h, manom_low) := new (select ind_low (read manom h)) h in
      let (h, ecc_low) := new (select ind_low (read ecc h)) h in
      let (h, solved) := _newton_solver manom_low ecc_low tolerance max_iter h in
      (h, scatter ind_low (map Some solved) eanom)
    else (h, eanom) in
  let ind_high := map (fun e => geb e (95 / 100)) (read ecc h) in
  if nonempty ind_high
  then
    let (h, manom_high) := new (select ind_high (read manom h)) h in
    let (h, ecc_high) := new (select ind_high (read ecc h)) h in
    let (h, solved) := _mikkola_solver_wrapper manom_high ecc_high h in
    (h, scatter ind_high (map Some solved) eanom)
  else (h, eanom).

(** Every array of [h] is still in [h'], with the same cells. *)
Definition untouched (h h' : store) : Prop := firstn (length h) h' = h.

End KeplerStore.

(** ** MCMC: fixed parameters *)

Module MCMC.

Open Scope nat_scope.

(** An entry of [system.sys_priors]: a plain number (a fixed parameter) or
    an object with [draw_samples]. *)
Inductive sys_prior : Type :=
| Fixed (value : R)
| HasDraw (prior_id : nat).

(** [MCMC.__init__]: [enumerate(system.sys_priors)], collecting the fixed
    entries with their index. *)
Fixpoint fixed_params_from (i : nat) (sys_priors : list sys_prior)
  : list (nat * R) :=
  match sys_priors with
  | [] => []
  | Fixed v :: rest => (i, v) :: fixed_params_from (S i) rest
  | HasDraw _ :: rest => fixed_params_from (S i) rest
  end.

Definition fixed_params (sys_priors : list sys_prior) : list (nat * R) :=
  fixed_params_from 0 sys_priors.

(** [MCMC.__init__]: [self.priors], the entries that can be drawn from. *)
Fixpoint priors (sys_priors : list sys_prior) : list nat :=
  match sys_priors with
  | [] => []
  | Fixed _ :: rest => priors rest
  | HasDraw p :: rest => p :: priors rest
  end.

(** A 1-D array of sampled parameters, or a 2-D one of shape
    [(num_models, num_params)]. *)
Inductive params : Type :=
| OneDim (v : list R)
| TwoDim (num_params : nat) (rows : list (list R)).

Definition well_shaped (p : params) (n : nat) : Prop :=
  match p with
  | OneDim v => length v = n
  | TwoDim c rows => c = n /\ Forall (fun r => length r = n) rows
  end.

(** [np.insert(rows, index, value, axis=1)]. *)
Fixpoint insert_column (rows : list (list R)) (index : nat) (value : R)
  : result (list (list R)) :=
  match rows with
  | [] => Ok []
  | r :: rest =>
      r' <- NumPy.insert r index value ;;
      rest' <- insert_column rest index value ;;
      Ok (r' :: rest')
  end.

Definition insert_param (p : params) (index : nat) (value : R) : result params :=
  match p with
  | OneDim v => v' <- NumPy.insert v index value ;; Ok (OneDim v')
  | TwoDim c rows =>
      if (index <=? c)%nat
      then rows' <- insert_column rows index value ;; Ok (TwoDim (S c) rows')
      else Raise IndexError
  end.

(** The loop [for index, value in self.fixed_params]. *)
Fixpoint insert_fixed (fixed : list (nat * R)) (sampled : params) : result params :=
  match fixed with
  | [] => Ok sampled
  | (index, value) :: rest =>
      sampled' <- insert_param sampled index value ;;
      insert_fixed rest sampled'
  end.

Definition _fill_in_fixed_params (fixed : list (nat * R)) (sampled_params : params)
  : result params :=
  if (length fixed =? 0)%nat then Ok sampled_params
  else insert_fixed fixed sampled_params.

(** The vector that the claim describes: the fixed values at their index in
    [sys_priors], the sampled values in between, in order. *)
Fixpoint interleave (sys_priors : list sys_prior) (sampled : list R) : list R :=
  match sys_priors with
  | [] => sampled
  | Fixed v :: rest => v :: interleave rest sampled
  | HasDraw _ :: rest =>
      match sampled with
      | [] => []
      | x :: sampled' => x :: interleave rest sampled'
      end
  end.

(** Reading a full vector back at the positions that are not fixed. *)
Fixpoint sampled_part (sys_priors : list sys_prior) (full : list R) : list R :=
  match sys_priors, full with
  | Fixed _ :: rest, _ :: full' => sampled_part rest full'
  | HasDraw _ :: rest, x :: full' => x :: sampled_part rest full'
  | _, _ => []
  end.

(** Every index of the list can be inserted at, starting from width [c]. *)
Fixpoint indices_ok (fixed : list (nat * R)) (c : nat) : Prop :=
  match fixed with
  | [] => True
  | (i, _) :: rest => (i <= c)%nat /\ indices_ok rest (S c)
  end.

(** What the claim asks of a filled-in vector: the length grows by the
    number of fixed parameters, every fixed value sits at its index in
    [sys_priors], and the other positions hold the sampled values in order. *)
Definition filled_in (sys_priors : list sys_prior) (sampled full : list R) : Prop :=
  length full = (length sampled + length (fixed_params sys_priors))%nat /\
  (forall i v, In (i, v) (fixed_params sys_priors) -> nth_error full i = Some v) /\
  sampled_part sys_priors full = sampled.

(** *** MCMC.run_sampler: the step count and its assertion *)

(** The file runs under both interpreters ([sys.version_info] is tested at
    its top) and does not import [division] from [__future__]. *)
Inductive python : Type := Py2 | Py3.

(** [int(np.ceil(total_orbits / self.num_walkers))] on two ints: [/] is the
    floor division in Python 2, whose result [ceil] leaves as it is, and the
    true division in Python 3. *)
Definition nsteps_of (py : python) (total_orbits num_walkers : Z) : result Z :=
  if (num_walkers =? 0)%Z then Raise ZeroDivisionError
  else match py with
       | Py2 => Ok (total_orbits / num_walkers)%Z
       | Py3 => Ok (- ((- total_orbits) / num_walkers))%Z
       end.

(** What [run_sampler] asks of the [emcee] / [ptemcee] sampler and of the
    results object, in order. *)
Inductive event : Type :=
| Sample (iterations : Z)
| Reset
| AddSamples.

(** [MCMC.run_sampler]: the calls made until it returns or raises. *)
Definition run_sampler (py : python) (num_walkers total_orbits burn_steps : Z)
  : list event * result unit :=
  let burn_in := [Sample burn_steps; Reset] in
  match nsteps_of py total_orbits num_walkers with
  | Raise e => (burn_in, Raise e)
  | Ok nsteps =>
      if (0 <? nsteps)%Z
      then (burn_in ++ [Sample nsteps; AddSamples], Ok tt)
      else (burn_in, Raise AssertionError)
  end.

(** *** MCMC.chop_chains *)

(** The attributes of the sampler object that [chop_chains] reads and
    writes; [lnlikes_alltemps] exists only after a tempered run. *)
Record sampler : Type := {
  use_pt : bool;
  num_temps : nat;
  num_walkers : nat;
  num_params : nat;
  chain : NumPy.ndarray;
  lnlikes : NumPy.ndarray;
  lnlikes_alltemps : option NumPy.ndarray;
  post : NumPy.ndarray
}.

Definition set_chain (self : sampler) (c : NumPy.ndarray) : sampler :=
  {| use_pt := use_pt self; num_temps := num_temps self;
     num_walkers := num_walkers self; num_params := num_params self;
     chain := c; lnlikes := lnlikes self;
     lnlikes_alltemps := lnlikes_alltemps self; post := post self |}.

Definition set_lnlikes (self : sampler) (l : NumPy.ndarray) : sampler :=
  {| use_pt := use_pt self; num_temps := num_temps self;
     num_walkers := num_walkers self; num_params := num_params self;
     chain := chain self; lnlikes := l;
     lnlikes_alltemps := lnlikes_alltemps self; post := post self |}.

Definition set_lnlikes_alltemps (self : sampler) (l : NumPy.ndarray) : sampler :=
  {| use_pt := use_pt self; num_temps := num_temps self;
     num_walkers := num_walkers self; num_params := num_params self;
     chain := chain self; lnlikes := lnlikes self;
     lnlikes_alltemps := Some l; post := post self |}.

Definition set_post (self : sampler) (p : NumPy.ndarray) : sampler :=
  {| use_pt := use_pt self; num_temps := num_temps self;
     num_walkers := num_walkers self; num_params := num_params self;
     chain := chain self; lnlikes := lnlikes self;
     lnlikes_alltemps := lnlikes_alltemps self; post := p |}.

Definition getattr_lnlikes_alltemps (self : sampler) : result NumPy.ndarray :=
  match lnlikes_alltemps self with
  | Some a => Ok a
  | None => Raise AttributeError
  end.

(** The integer names bound in the body of [chop_chains] when its last
    block runs.  No global of [sampler.py] and no builtin is called
    [nsteps]. *)
Definition chop_chains_names (n_steps : nat) (keep_start keep_end : Z)
  : list (string * Z) :=
  [("n_steps"%string, Z.of_nat n_steps);
   ("keep_start"%string, keep_start);
   ("keep_end"%string, keep_end)].

Fixpoint lookup_name (name : string) (names : list (string * Z)) : result Z :=
  match names with
  | [] => Raise NameError
  | (n, v) :: rest => if String.eqb n name then Ok v else lookup_name name rest
  end.

(** The arrays computed before the first assignment to [self]. *)
Definition chop_arrays (self : sampler) (n_steps : nat) (keep_start keep_end : Z)
  : result (NumPy.ndarray * NumPy.ndarray * option NumPy.ndarray * NumPy.ndarray) :=
  let new_chain := chain self in
  new_lnlikes <- NumPy.reshape (lnlikes self) [num_walkers self; n_steps] ;;
  new_lnlikes_alltemps <-
    (if use_pt self
     then a <- getattr_lnlikes_alltemps self ;;
          a' <- NumPy.reshape a [num_temps self; num_walkers self; n_steps] ;;
          Ok (Some a')
     else Ok None) ;;
  new_post <- NumPy.reshape (post self) [num_walkers self; n_steps; num_params self] ;;
  chopped <-
    (if use_pt self
     then c <- NumPy.getitem 4 2 keep_start keep_end new_chain ;;
          match new_lnlikes_alltemps with
          | Some a => l <- NumPy.getitem 3 2 keep_start keep_end a ;; Ok (c, Some l)
          | None => Raise NameError
          end
     else c <- NumPy.getitem 3 1 keep_start keep_end new_chain ;; Ok (c, None)) ;;
  chop_lnlikes <- NumPy.getitem 2 1 keep_start keep_end new_lnlikes ;;
  chop_post <- NumPy.getitem 3 1 keep_start keep_end (post self) ;;
  Ok (fst chopped, chop_lnlikes, snd chopped, chop_post).

(** The last block, from [self.chain = chop_chain] on: the sampler as the
    assignments leave it, and how the block ends. *)
Definition chop_assign (self : sampler) (names : list (string * Z))
    (chop_chain chop_lnlikes : NumPy.ndarray)
    (chop_lnlikes_alltemps : option NumPy.ndarray) (chop_post : NumPy.ndarray)
  : sampler * result unit :=
  let self1 := set_chain self chop_chain in
  match lookup_name "nsteps" names with
  | Raise e => (self1, Raise e)
  | Ok nsteps =>
      match NumPy.reshape chop_lnlikes [num_walkers self * Z.to_nat nsteps] with
      | Raise e => (self1, Raise e)
      | Ok l =>
          let self2 := set_lnlikes self1 l in
          let alltemps :=
            if use_pt self
            then match chop_lnlikes_alltemps with
                 | Some a =>
                     a' <- NumPy.reshape a
                             [num_temps self; num_walkers self * Z.to_nat nsteps] ;;
                     Ok (set_lnlikes_alltemps self2 a')
                 | None => Raise NameError
                 end
            else Ok self2 in
          match alltemps with
          | Raise e => (self2, Raise e)
          | Ok self3 =>
              match NumPy.reshape chop_post
                      [num_walkers self * Z.to_nat nsteps; num_params self] with
              | Raise e => (self3, Raise e)
              | Ok p => (set_post self3 p, Ok tt)
              end
          end
      end
  end.

(** [MCMC.chop_chains(burn, trim)], reading line 600 without its stray
    closing parenthesis. *)
Definition chop_chains (self : sampler) (burn trim : Z) : sampler * result unit :=
  match NumPy.shape_minus2 (chain self) with
  | Raise e => (self, Raise e)
  | Ok n_steps =>
      let keep_start := burn in
      let keep_end := (Z.of_nat n_steps - trim)%Z in
      match chop_arrays self n_steps keep_start keep_end with
      | Raise e => (self, Raise e)
      | Ok (chop_chain, chop_lnlikes, chop_lnlikes_alltemps, chop_post) =>
          chop_assign self (chop_chains_names n_steps keep_start keep_end)
            chop_chain chop_lnlikes chop_lnlikes_alltemps chop_post
      end
  end.

(** The sampler as [run_sampler] leaves it after 100 steps of 2 walkers
    over 1 parameter, without tempering: [chain] is [sampler.chain],
    [lnlikes] is [sampler.lnprobability] and [post] is the flat chain. *)
Definition sampler_100_steps : sampler :=
  {| use_pt := false; num_temps := 1; num_walkers := 2; num_params := 1;
     chain := {| NumPy.shape := [2; 100; 1]; NumPy.data := repeat 0%R 200 |};
     lnlikes := {| NumPy.shape := [2; 100]; NumPy.data := repeat 0%R 200 |};
     lnlikes_alltemps := None;
     post := {| NumPy.shape := [200; 1]; NumPy.data := repeat 0%R 200 |} |}.

End MCMC.

(** ** OFTI.run_sampler *)

Module OFTI.

Open Scope nat_scope.

(** One accepted orbit: the column [samples[:,i]] of parameter values. *)
Definition orbit : Type := list R.

(** What one call of [reject] hands back: the accepted orbits with their
    log-likelihoods, both built over the same [saved_orbit_idx]. *)
Definition batch : Type := list (orbit * R).

Definition accepted_orbits (b : batch) : list orbit := map fst b.
Definition lnlikes (b : batch) : list R := map snd b.

(** The locals of [run_sampler].  [np.empty] leaves its cells
    uninitialised: such a cell is [None]. *)
Record locals : Type := {
  n_orbits_saved : nat;
  output_orbits : list (option orbit);
  output_lnlikes : list (option R)
}.

Definition init (total_orbits : nat) : locals :=
  {| n_orbits_saved := 0;
     output_orbits := repeat None total_orbits;
     output_lnlikes := repeat None total_orbits |}.

(** The body of the [while] loop for one outcome of [reject]. *)
Definition loop_body (total_orbits : nat) (st : locals) (b : batch) : result locals :=
  if length (accepted_orbits b) =? 0 then Ok st
  else
    let n_accepted := length (accepted_orbits b) in
    let maxindex2save := Nat.min n_accepted (total_orbits - n_orbits_saved st) in
    oo <- NumPy.set_slice (output_orbits st) (n_orbits_saved st)
            (n_orbits_saved st + n_accepted)
            (map Some (NumPy.slice (accepted_orbits b) 0 maxindex2save)) ;;
    ol <- NumPy.set_slice (output_lnlikes st) (n_orbits_saved st)
            (n_orbits_saved st + n_accepted)
            (map Some (NumPy.slice (lnlikes b) 0 maxindex2save)) ;;
    Ok {| n_orbits_saved := n_orbits_saved st + maxindex2save;
          output_orbits := oo;
          output_lnlikes := ol |}.

(** [while n_orbits_saved < total_orbits], run on the successive outcomes
    of [reject]; [None] when the outcomes given do not end the loop. *)
Fixpoint while_loop (total_orbits : nat) (batches : list batch) (st : locals)
  : option (result locals) :=
  if n_orbits_saved st <? total_orbits then
    match batches with
    | [] => None
    | b :: rest =>
        match loop_body total_orbits st b with
        | Ok st' => while_loop total_orbits rest st'
        | Raise e => Some (Raise e)
        end
    end
  else Some (Ok st).

(** The results sink: the arguments of every [add_samples] call. *)
Definition sink : Type := list (list (option orbit) * list (option R)).

(** [run_sampler]: the returned array and the sink afterwards. *)
Definition run_sampler (total_orbits : nat) (batches : list batch) (results : sink)
  : option (result (list (option orbit) * sink)) :=
  match while_loop total_orbits batches (init total_orbits) with
  | None => None
  | Some (Raise e) => Some (Raise e)
  | Some (Ok st) =>
      Some (Ok (output_orbits st,
                results ++ [(output_orbits st, output_lnlikes st)]))
  end.

(** The locals once the orbits of [saved] have been stored, in order. *)
Definition stored (total_orbits : nat) (saved : batch) : locals :=
  {| n_orbits_saved := length saved;
     output_orbits :=
       map Some (accepted_orbits saved) ++ repeat None (total_orbits - length saved);
     output_lnlikes :=
       map Some (lnlikes saved) ++ repeat None (total_orbits - length saved) |}.

(** *** OFTI.prepare_samples *)

Open Scope R_scope.

Definition degrees (x : R) : R := x * 180 / PI.
Definition radians (x : R) : R := x * PI / 180.

(** [np.arctan2(y, x)]. *)
Definition arctan2 (y x : R) : R :=
  if Rlt_dec 0 x then atan (y / x)
  else if Rlt_dec x 0 then
    (if Rle_dec 0 y then atan (y / x) + PI else atan (y / x) - PI)
  else if Rlt_dec 0 y then PI / 2
  else if Rlt_dec y 0 then - (PI / 2)
  else 0.

(** Modelled from the spec: [orbitize.system.radec2seppa] is not among the
    sources.  The spec has it as the conversion
    [radec_to_seppa(ra, dec) -> (sep, pa)]; [prepare_samples] takes [pa] in
    degrees (it applies [np.radians] to a difference of position angles).
    The separation is the length of the offset, the position angle is
    counted from the Dec axis towards RA, in [[0, 360)]. *)
Definition radec2seppa (ra dec : R) : R * R :=
  (sqrt (ra ^ 2 + dec ^ 2), Kepler.fmod (degrees (arctan2 ra dec)) 360).

(** The observation at [self.epoch_idx]: [self.epochs], [self.sep_observed]
    and [self.pa_observed] there. *)
Record anchor : Type := {
  a_epoch : R;
  a_sep_observed : R;
  a_pa_observed : R
}.

(** The rows of [samples], in the order in which [prepare_samples] unpacks
    them. *)
Record rows : Type := {
  r_sma : list R; r_ecc : list R; r_inc : list R; r_argp : list R;
  r_lan : list R; r_tau : list R; r_plx : list R; r_mtot : list R
}.

(** Scale-and-rotate of one sample, from its projected offsets [ra] and
    [dec] at the anchor epoch: the new [sma], [lan] and [tau]. *)
Definition scale_and_rotate (a : anchor) (sma lan tau mtot : R) (ra dec : R)
    (sep_offset pa_offset : R) : R * R * R :=
  let period_prescale := Orbit.period sma mtot in
  let meananno := a_epoch a / period_prescale - tau in
  let (sep, pa) := radec2seppa ra dec in
  let sma_corr := (sep_offset + a_sep_observed a) / sep in
  let lan_corr := pa_offset + a_pa_observed a - pa in
  let sma := sma * sma_corr in
  let lan := lan + radians lan_corr in
  let lan := Kepler.fmod lan (2 * PI) in
  let period_new := Orbit.period sma mtot in
  let tau := Kepler.fmod (a_epoch a / period_new - meananno) 1 in
  (sma, lan, tau).

(** The rows 0, 4 and 5 of the array returned, NaN cells being [None];
    the other rows are returned as drawn. *)
Record prepared : Type := {
  p_sma : list (option R);
  p_lan : list (option R);
  p_tau : list (option R);
  p_drawn : rows
}.

(** [prepare_samples], given what was drawn: the rows of [samples] from
    the priors, and [sep_offset] and [pa_offset] from [np.random.normal].
    The arrays that [calc_orbit] returns must combine cell by cell with
    the [(num_samples,)] arrays: that needs the shape [(num_samples,)], or
    [()] for a single sample. *)
Definition prepare_samples (a : anchor) (samples : rows)
    (sep_offset pa_offset : list R) : result prepared :=
  let num_samples := length (r_sma samples) in
  let '(ra, dec, vc) :=
    Orbit.calc_orbit [a_epoch a] (r_sma samples) (r_ecc samples)
      (r_inc samples) (r_argp samples) (r_lan samples) (r_tau samples)
      (r_plx samples) (r_mtot samples) 0 in
  let fits (shp : list nat) :=
    match shp with
    | [] => true
    | [n] => (n =? num_samples)%nat
    | _ => false
    end in
  if fits (Orbit.o_shape ra) && fits (Orbit.o_shape dec) then
    let cellwise :=
      map (fun i =>
             match nth i (Orbit.o_cells ra) None, nth i (Orbit.o_cells dec) None with
             | Some ra_i, Some dec_i =>
                 Some (scale_and_rotate a (nth i (r_sma samples) 0)
                         (nth i (r_lan samples) 0) (nth i (r_tau samples) 0)
                         (nth i (r_mtot samples) 0) ra_i dec_i
                         (nth i sep_offset 0) (nth i pa_offset 0))
             | _, _ => None
             end)
          (seq 0 num_samples) in
    Ok {| p_sma := map (option_map (fun t => fst (fst t))) cellwise;
          p_lan := map (option_map (fun t => snd (fst t))) cellwise;
          p_tau := map (option_map (fun t => snd t)) cellwise;
          p_drawn := samples |}
  else Raise ValueError.

(** The separation and position angle of a prepared sample [i] at the
    anchor epoch: its elements given to the parameters of [calc_orbit] that
    bear their names. *)
Definition reprojected (a : anchor) (p : prepared) (i : nat) : option (R * R) :=
  match nth i (p_sma p) None, nth i (p_lan p) None, nth i (p_tau p) None with
  | Some sma, Some lan, Some tau =>
      let d := p_drawn p in
      let '(ra, dec, vc) :=
        Orbit.calc_orbit [a_epoch a] [sma] [nth i (r_ecc d) 0] [tau]
          [nth i (r_argp d) 0] [lan] [nth i (r_inc d) 0]
          [nth i (r_plx d) 0] [nth i (r_mtot d) 0] 0 in
      match Orbit.o_cells ra, Orbit.o_cells dec with
      | [Some ra0], [Some dec0] => Some (radec2seppa ra0 dec0)
      | _, _ => None
      end
  | _, _, _ => None
  end.

(** *** OFTI.reject *)

(** [np.log] of a draw of [np.random.random], which lies in [[0, 1)]: the
    logarithm of 0 is [-inf], kept as [None]. *)
Definition log_random (u : R) : option R :=
  if Req_dec_T u 0 then None else Some (ln u).

(** [lnp > random_samples] at one position; every float exceeds [-inf]. *)
Definition exceeds (lnp : R) (random_sample : option R) : bool :=
  match random_sample with
  | None => true
  | Some t => Kepler.gtb lnp t
  end.

(** [np.where(cond)[0]] for a 1-D [cond]: the positions at which it holds,
    ascending, counted from [from]. *)
Fixpoint where0 (from : nat) (cond : list bool) : list nat :=
  match cond with
  | [] => []
  | b :: rest =>
      if b then from :: where0 (S from) rest else where0 (S from) rest
  end.

(** [samples[:, i]]: the column [i] of the rows of parameters. *)
Definition column (samples : list (list R)) (i : nat) : orbit :=
  map (fun row => nth i row 0) samples.

(** [reject(samples)], given [lnp = self._logl(samples)] and the draws
    [random] of [np.random.random(len(lnp))]: the accepted orbits, each
    with its log-likelihood. *)
Definition reject (samples : list (list R)) (lnp random : list R) : batch :=
  let random_samples := map log_random random in
  let saved_orbit_idx :=
    where0 0 (map (fun c => exceeds (fst c) (snd c))
                  (combine lnp random_samples)) in
  map (fun i => (column samples i, nth i lnp 0)) saved_orbit_idx.

End OFTI.

(** * Theorems *)

Unset Implicit Arguments.

(** ** MCMC._fill_in_fixed_params *)

Section FillInFixed.
Import MCMC.
Open Scope nat_scope.

Lemma insert_app_here (pre s : list R) (v : R) :
  NumPy.insert (pre ++ s) (length pre) v = Ok ((pre ++ [v]) ++ s).
Proof.
  unfold NumPy.insert.
  assert (Hle : (length pre <=? length (pre ++ s)) = true).
  { apply Nat.leb_le. rewrite length_app. lia. }
  rewrite Hle. f_equal.
  rewrite firstn_app, Nat.sub_diag, firstn_all. simpl.
  rewrite skipn_app, Nat.sub_diag, skipn_all. simpl.
  rewrite app_nil_r, <- app_assoc. reflexivity.
Qed.

Lemma insert_fixed_one_dim (ps : list sys_prior) :
  forall (pre s : list R),
    length s = length (priors ps) ->
    insert_fixed (fixed_params_from (length pre) ps) (OneDim (pre ++ s))
    = Ok (OneDim (pre ++ interleave ps s)).
Proof.
  induction ps as [| [v | p] ps IH]; intros pre s Hlen; simpl in *.
  - reflexivity.
  - rewrite insert_app_here. simpl.
    replace (S (length pre)) with (length (pre ++ [v]))
      by (rewrite length_app; simpl; lia).
    rewrite IH by assumption.
    rewrite <- app_assoc. reflexivity.
  - destruct s as [| x s]; [discriminate |].
    replace (S (length pre)) with (length (pre ++ [x]))
      by (rewrite length_app; simpl; lia).
    replace (pre ++ x :: s) with ((pre ++ [x]) ++ s)
      by (rewrite <- app_assoc; reflexivity).
    rewrite IH by (simpl in Hlen; lia).
    rewrite <- app_assoc. reflexivity.
Qed.

Lemma insert_length (r r' : list R) (i : nat) (v : R) :
  NumPy.insert r i v = Ok r' -> i <= length r /\ length r' = S (length r).
Proof.
  unfold NumPy.insert. destruct (i <=? length r) eqn:Hi; [| discriminate].
  intros H. injection H as <-. apply Nat.leb_le in Hi. split; [assumption |].
  rewrite length_app. simpl. rewrite length_firstn, length_skipn. lia.
Qed.

Lemma insert_fixed_indices_ok (fixed : list (nat * R)) :
  forall (r o : list R),
    insert_fixed fixed (OneDim r) = Ok (OneDim o) ->
    indices_ok fixed (length r) /\ length o = length r + length fixed.
Proof.
  induction fixed as [| [i v] rest IH]; intros r o H; simpl in *.
  - injection H as <-. split; [exact I | lia].
  - destruct (NumPy.insert r i v) as [r' |] eqn:Hins; [| discriminate].
    simpl in H. apply insert_length in Hins as [Hi Hl].
    apply IH in H as [Hok Hlo]. rewrite Hl in Hok, Hlo.
    repeat split; try assumption. lia.
Qed.

Lemma insert_fixed_two_dim (fixed : list (nat * R)) :
  forall (c : nat) (rows outs : list (list R)),
    indices_ok fixed c ->
    Forall (fun r => length r = c) rows ->
    Forall2 (fun r o => insert_fixed fixed (OneDim r) = Ok (OneDim o)) rows outs ->
    insert_fixed fixed (TwoDim c rows) = Ok (TwoDim (c + length fixed) outs).
Proof.
  induction fixed as [| [i v] rest IH]; intros c rows outs Hok Hlen Hrows; simpl in *.
  - rewrite Nat.add_0_r. f_equal. f_equal.
    induction Hrows as [| r o rows outs Hr _ IHr]; [reflexivity |].
    injection Hr as ->. inversion Hlen; subst. f_equal. auto.
  - destruct Hok as [Hi Hok]. apply Nat.leb_le in Hi. rewrite Hi.
    assert (Hcol : exists mids,
              insert_column rows i v = Ok mids /\
              Forall (fun r => length r = S c) mids /\
              Forall2 (fun r o => insert_fixed rest (OneDim r) = Ok (OneDim o))
                      mids outs).
    { clear IH Hok Hi. induction Hrows as [| r o rows outs Hr _ IHr].
      - exists []. repeat split; constructor.
      - inversion Hlen as [| ? ? Hlr Hlrest]; subst.
        destruct (IHr Hlrest) as (mids & Hm & Hml & Hm2).
        destruct (NumPy.insert r i v) as [r' |] eqn:Hins; [| discriminate].
        simpl in Hr. exists (r' :: mids). simpl. rewrite Hins, Hm. simpl.
        apply insert_length in Hins as [_ Hl].
        repeat split; constructor; assumption. }
    destruct Hcol as (mids & Hm & Hml & Hm2). rewrite Hm. simpl.
    rewrite (IH (S c) mids outs Hok Hml Hm2). f_equal. f_equal. lia.
Qed.

Lemma fixed_params_from_length (ps : list sys_prior) :
  forall i, length (fixed_params_from i ps) + length (priors ps) = length ps.
Proof.
  induction ps as [| [v | p] ps IH]; intros i; simpl; auto.
  - rewrite <- (IH (S i)). lia.
Qed.

Lemma interleave_length (ps : list sys_prior) :
  forall s, length s = length (priors ps) ->
            length (interleave ps s) = length ps.
Proof.
  induction ps as [| [v | p] ps IH]; intros s H; simpl in *; auto.
  destruct s; [discriminate |]. simpl in *. rewrite IH; lia.
Qed.

Lemma interleave_fixed_at (ps : list sys_prior) :
  forall k s i v,
    length s = length (priors ps) ->
    In (i, v) (fixed_params_from k ps) ->
    k <= i /\ nth_error (interleave ps s) (i - k) = Some v.
Proof.
  induction ps as [| [w | p] ps IH]; intros k s i v Hlen Hin; simpl in *.
  - contradiction.
  - destruct Hin as [Heq | Hin].
    + injection Heq as <- <-. rewrite Nat.sub_diag. split; [lia | reflexivity].
    + destruct (IH (S k) s i v Hlen Hin) as [Hle Hnth]. split; [lia |].
      replace (i - k) with (S (i - S k)) by lia. exact Hnth.
  - destruct s as [| x s]; [discriminate |].
    destruct (IH (S k) s i v ltac:(simpl in Hlen; lia) Hin) as [Hle Hnth].
    split; [lia |].
    replace (i - k) with (S (i - S k)) by lia. exact Hnth.
Qed.

Lemma sampled_part_interleave (ps : list sys_prior) :
  forall s, length s = length (priors ps) ->
            sampled_part ps (interleave ps s) = s.
Proof.
  induction ps as [| [v | p] ps IH]; intros s H; simpl in *.
  - destruct s; [reflexivity | discriminate].
  - auto.
  - destruct s as [| x s]; [discriminate |]. simpl in *. f_equal. apply IH. lia.
Qed.

Lemma filled_in_interleave (ps : list sys_prior) (s : list R) :
  length s = length (priors ps) -> filled_in ps s (interleave ps s).
Proof.
  intros Hlen. unfold filled_in, fixed_params. repeat split.
  - rewrite interleave_length by assumption.
    rewrite <- (fixed_params_from_length ps 0). lia.
  - intros i v Hin.
    destruct (interleave_fixed_at ps 0 s i v Hlen Hin) as [_ H].
    rewrite Nat.sub_0_r in H. exact H.
  - apply sampled_part_interleave. assumption.
Qed.

Lemma fill_in_one_dim (ps : list sys_prior) (s : list R) :
  length s = length (priors ps) ->
  _fill_in_fixed_params (fixed_params ps) (OneDim s)
  = Ok (OneDim (interleave ps s)).
Proof.
  intros Hlen. unfold _fill_in_fixed_params, fixed_params.
  pose proof (insert_fixed_one_dim ps [] s Hlen) as H. simpl in H.
  destruct (fixed_params_from 0 ps) eqn:Hf; simpl; [| exact H].
  simpl in H. exact H.
Qed.

(** C5: [_fill_in_fixed_params] puts every fixed value back at its
    configured index and keeps the sampled values in order, for a 1-D
    vector and for every row of a 2-D array, whose width grows by the
    number of fixed parameters; without fixed parameters the input is
    returned as it is. *)
Theorem fill_in_fixed_params_layout
    (sys_priors : list sys_prior) (s : list R) (rows : list (list R)) :
  length s = length (priors sys_priors) ->
  Forall (fun r => length r = length (priors sys_priors)) rows ->
  (exists full,
      _fill_in_fixed_params (fixed_params sys_priors) (OneDim s)
      = Ok (OneDim full) /\
      filled_in sys_priors s full) /\
  (exists fulls,
      _fill_in_fixed_params (fixed_params sys_priors)
        (TwoDim (length (priors sys_priors)) rows)
      = Ok (TwoDim (length (priors sys_priors)
                    + length (fixed_params sys_priors)) fulls) /\
      Forall2 (filled_in sys_priors) rows fulls) /\
  (forall p, _fill_in_fixed_params [] p = Ok p).
Proof.
  intros Hs Hrows. split; [| split].
  - exists (interleave sys_priors s). split.
    + apply fill_in_one_dim. assumption.
    + apply filled_in_interleave. assumption.
  - exists (map (interleave sys_priors) rows).
    assert (H2 : Forall2 (fun r o =>
                   insert_fixed (fixed_params sys_priors) (OneDim r)
                   = Ok (OneDim o))
                   rows (map (interleave sys_priors) rows)).
    { induction Hrows as [| r rows Hr _ IH]; simpl; constructor; [| exact IH].
      exact (insert_fixed_one_dim sys_priors [] r Hr). }
    split.
    + unfold _fill_in_fixed_params.
      destruct (fixed_params sys_priors) as [| fp fixed] eqn:Hf.
      * simpl. rewrite Nat.add_0_r. f_equal. f_equal.
        clear Hrows. induction H2 as [| r o rows outs Hr _ IH]; [reflexivity |].
        simpl in Hr. injection Hr as ->. f_equal. exact IH.
      * cbn [length Nat.eqb]. apply insert_fixed_two_dim; try assumption.
        pose proof (insert_fixed_one_dim sys_priors []
                      (repeat 0%R (length (priors sys_priors)))
                      (repeat_length _ _)) as Hw.
        simpl in Hw. unfold fixed_params in Hf. rewrite Hf in Hw.
        apply insert_fixed_indices_ok in Hw as [Hok _].
        rewrite repeat_length in Hok. exact Hok.
    + clear H2. induction Hrows as [| r rows Hr _ IH]; simpl; constructor.
      * apply filled_in_interleave. assumption.
      * exact IH.
  - intros p. reflexivity.
Qed.

Lemma fill_in_fixed_params_layout_witness :
  let sys_priors := [HasDraw 0; Fixed 5%R; HasDraw 1; Fixed 7%R] in
  let s := [1%R; 2%R] in
  let rows := [[1%R; 2%R]; [3%R; 4%R]] in
  (exists full,
      _fill_in_fixed_params (fixed_params sys_priors) (OneDim s)
      = Ok (OneDim full) /\
      filled_in sys_priors s full) /\
  (exists fulls,
      _fill_in_fixed_params (fixed_params sys_priors)
        (TwoDim (length (priors sys_priors)) rows)
      = Ok (TwoDim (length (priors sys_priors)
                    + length (fixed_params sys_priors)) fulls) /\
      Forall2 (filled_in sys_priors) rows fulls) /\
  (forall p, _fill_in_fixed_params [] p = Ok p).
Proof.
  intros sys_priors s rows.
  apply (fill_in_fixed_params_layout sys_priors s rows).
  - reflexivity.
  - repeat constructor.
Defined.
End FillInFixed.

(** ** OFTI.run_sampler *)

Section RunSampler.
Import OFTI.
Open Scope nat_scope.

Lemma skipn_repeat {A : Type} (x : A) :
  forall m n, skipn m (repeat x n) = repeat x (n - m).
Proof.
  induction m as [| m IH]; intros [| n]; simpl; auto.
Qed.

Lemma set_slice_fill {A : Type} (pre acc : list A) (total : nat) :
  acc <> [] ->
  length pre < total ->
  NumPy.set_slice (map Some pre ++ repeat None (total - length pre))
    (length pre) (length pre + length acc)
    (map Some (NumPy.slice acc 0 (Nat.min (length acc) (total - length pre))))
  = Ok (map Some (pre ++ firstn (total - length pre) acc)
        ++ repeat None (total - length (pre ++ firstn (total - length pre) acc))).
Proof.
  intros Hacc Hlt. unfold NumPy.set_slice, NumPy.slice.
  assert (Hk : 0 < length acc) by (destruct acc; [congruence | simpl; lia]).
  remember (length pre) as n eqn:Hn. remember (length acc) as k eqn:Hkk.
  rewrite Nat.sub_0_r. change (skipn 0 acc) with acc.
  assert (Hpre : length (map Some pre) = n) by (rewrite length_map; auto).
  assert (Hsl : length (firstn (n + k - n)
                  (skipn n (map Some pre ++ repeat None (total - n))))
                = Nat.min k (total - n)).
  { rewrite length_firstn, length_skipn, length_app, Hpre, repeat_length. lia. }
  rewrite Hsl.
  assert (Hf : firstn (Nat.min k (total - n)) acc = firstn (total - n) acc).
  { destruct (Nat.le_ge_cases k (total - n)) as [H | H].
    - rewrite Nat.min_l by assumption. rewrite !firstn_all2; auto; lia.
    - rewrite Nat.min_r by assumption. reflexivity. }
  assert (Hrl : length (map Some (firstn (Nat.min k (total - n)) acc))
                = Nat.min k (total - n)).
  { rewrite length_map, length_firstn. lia. }
  rewrite Hrl, Nat.eqb_refl. f_equal. rewrite Hf.
  rewrite firstn_app, Hpre, Nat.sub_diag. simpl. rewrite app_nil_r.
  rewrite firstn_all2 by lia.
  rewrite map_app, <- app_assoc. f_equal. f_equal.
  rewrite skipn_app, Hpre.
  rewrite (skipn_all2 (map Some pre)) by lia.
  simpl. rewrite skipn_repeat. f_equal.
  rewrite length_app, length_firstn. lia.
Qed.

Lemma loop_body_stored (total : nat) (saved b : batch) :
  length saved < total ->
  loop_body total (stored total saved) b
  = Ok (stored total (saved ++ firstn (total - length saved) b)).
Proof.
  intros Hlt. unfold loop_body, accepted_orbits, lnlikes.
  destruct b as [| x b].
  - simpl. rewrite firstn_nil, app_nil_r. reflexivity.
  - remember (x :: b) as acc eqn:Hacc.
    assert (Hne : (length (map fst acc) =? 0) = false)
      by (subst acc; reflexivity).
    rewrite Hne. cbn [n_orbits_saved output_orbits output_lnlikes stored].
    unfold accepted_orbits, lnlikes.
    pose proof (set_slice_fill (map fst saved) (map fst acc) total) as Ho.
    pose proof (set_slice_fill (map snd saved) (map snd acc) total) as Hl.
    rewrite !length_map in Ho, Hl. rewrite !length_map.
    rewrite Ho by (subst acc; simpl; try discriminate; assumption).
    rewrite Hl by (subst acc; simpl; try discriminate; assumption).
    cbn [bind]. f_equal. unfold stored, accepted_orbits, lnlikes.
    rewrite !length_app, !length_firstn, !length_map, !map_app, !firstn_map.
    f_equal. lia.
Qed.

Lemma while_loop_stored (total : nat) (batches : list batch) :
  forall saved,
    length saved <= total ->
    while_loop total batches (stored total saved)
    = if total <=? length (saved ++ concat batches)
      then Some (Ok (stored total (firstn total (saved ++ concat batches))))
      else None.
Proof.
  induction batches as [| b rest IH]; intros saved Hle.
  - simpl. rewrite app_nil_r.
    destruct (length saved <? total) eqn:Hlt.
    + apply Nat.ltb_lt in Hlt.
      destruct (total <=? length saved) eqn:H; [apply Nat.leb_le in H; lia | reflexivity].
    + apply Nat.ltb_ge in Hlt.
      assert (H : (total <=? length saved) = true) by (apply Nat.leb_le; lia).
      rewrite H, firstn_all2 by lia. reflexivity.
  - cbn [while_loop stored n_orbits_saved].
    destruct (length saved <? total) eqn:Hlt.
    + apply Nat.ltb_lt in Hlt.
      change (while_loop total (b :: rest) (stored total saved))
        with (while_loop total (b :: rest) (stored total saved)).
      rewrite loop_body_stored by assumption.
      rewrite IH by (rewrite length_app, length_firstn; lia).
      cbn [concat]. rewrite <- app_assoc.
      destruct (Nat.le_ge_cases (length b) (total - length saved)) as [Hb | Hb].
      * rewrite (firstn_all2 b) by assumption. reflexivity.
      * assert (Hfull : length (saved ++ firstn (total - length saved) b) = total)
          by (rewrite length_app, length_firstn; lia).
        assert (H1 : (total <=? length (saved ++ firstn (total - length saved) b
                                          ++ concat rest)) = true).
        { apply Nat.leb_le. rewrite app_assoc, length_app. lia. }
        assert (H2 : (total <=? length (saved ++ b ++ concat rest)) = true).
        { apply Nat.leb_le. rewrite !length_app. lia. }
        rewrite H1, H2. do 3 f_equal.
        rewrite (app_assoc saved (firstn _ b)), (app_assoc saved b).
        rewrite !firstn_app.
        replace (total - length (saved ++ firstn (total - length saved) b))
          with 0 by lia.
        replace (total - length (saved ++ b)) with 0
          by (rewrite length_app; lia).
        simpl. rewrite !app_nil_r.
        rewrite firstn_all2 by lia.
        rewrite firstn_firstn, Nat.min_id. reflexivity.
    + apply Nat.ltb_ge in Hlt.
      assert (H : (total <=? length (saved ++ concat (b :: rest))) = true)
        by (apply Nat.leb_le; rewrite length_app; lia).
      rewrite H. rewrite firstn_app.
      replace (total - length saved) with 0 by lia.
      simpl. rewrite app_nil_r, firstn_all2 by lia. reflexivity.
Qed.

Lemma init_stored (total : nat) : init total = stored total [].
Proof. unfold init, stored. simpl. rewrite Nat.sub_0_r. reflexivity. Qed.

(** C2: when [run_sampler] returns, the array it returns has exactly
    [total_orbits] rows, all of them accepted orbits, namely the first
    [total_orbits] accepted ones in the order [reject] gave them; the
    same rows and their log-likelihoods are what it appends to the
    results sink; no batch size makes it raise.  It does return as soon
    as the batches hold [total_orbits] accepted orbits. *)
Theorem run_sampler_returns_total_orbits
    (total_orbits : nat) (batches : list batch) (results : sink) :
  (total_orbits <= length (concat batches) ->
   exists r, run_sampler total_orbits batches results = Some r) /\
  (forall r,
      run_sampler total_orbits batches results = Some r ->
      let saved := firstn total_orbits (concat batches) in
      length saved = total_orbits /\
      length (map Some (accepted_orbits saved)) = total_orbits /\
      r = Ok (map Some (accepted_orbits saved),
              results ++ [(map Some (accepted_orbits saved),
                           map Some (lnlikes saved))])).
Proof.
  unfold run_sampler. rewrite init_stored.
  rewrite while_loop_stored by (simpl; lia). simpl app.
  destruct (total_orbits <=? length (concat batches)) eqn:Hle.
  - apply Nat.leb_le in Hle.
    assert (Hlen : length (firstn total_orbits (concat batches)) = total_orbits)
      by (rewrite length_firstn; lia).
    split; [intros _; eexists; reflexivity |].
    intros r Hr. cbv zeta. injection Hr as <-.
    cbn [stored output_orbits output_lnlikes].
    rewrite Hlen, Nat.sub_diag. simpl repeat. rewrite !app_nil_r.
    repeat split; try assumption.
    unfold accepted_orbits. rewrite !length_map. assumption.
  - apply Nat.leb_gt in Hle. split; [lia | discriminate].
Qed.

Lemma run_sampler_returns_total_orbits_witness :
  let o1 := [1%R; 0%R] in
  let o2 := [2%R; 0%R] in
  let o3 := [3%R; 0%R] in
  let o4 := [4%R; 0%R] in
  let batches := [[(o1, (-1)%R); (o2, (-2)%R)]; []; [(o3, (-3)%R); (o4, (-4)%R)]] in
  3 <= length (concat batches) /\
  exists r,
    run_sampler 3 batches [] = Some r /\
    r = Ok (map Some [o1; o2; o3],
            [(map Some [o1; o2; o3], map Some [(-1)%R; (-2)%R; (-3)%R])]).
Proof.
  intros o1 o2 o3 o4 batches.
  split; [simpl; lia |].
  destruct (run_sampler_returns_total_orbits 3 batches []) as [Hterm Hres].
  destruct (Hterm ltac:(simpl; lia)) as [r Hr].
  exists r. split; [exact Hr |].
  destruct (Hres r Hr) as (_ & _ & ->). reflexivity.
Defined.
End RunSampler.


(** ** MCMC.run_sampler *)

Section StepCount.
Import MCMC.
Open Scope Z_scope.

Lemma nsteps_of_positive (py : python) (total_orbits num_walkers : Z) :
  0 < num_walkers ->
  exists nsteps,
    nsteps_of py total_orbits num_walkers = Ok nsteps /\
    (0 < nsteps <->
     match py with
     | Py2 => num_walkers <= total_orbits
     | Py3 => 0 < total_orbits
     end).
Proof.
  intros Hw. unfold nsteps_of.
  assert (Hz : (num_walkers =? 0) = false) by (apply Z.eqb_neq; lia).
  rewrite Hz. destruct py; eexists; (split; [reflexivity |]).
  - pose proof (Z.div_mod total_orbits num_walkers ltac:(lia)) as Hd.
    pose proof (Z.mod_pos_bound total_orbits num_walkers Hw) as Hm.
    split; intros H; nia.
  - pose proof (Z.div_mod (- total_orbits) num_walkers ltac:(lia)) as Hd.
    pose proof (Z.mod_pos_bound (- total_orbits) num_walkers Hw) as Hm.
    split; intros H; nia.
Qed.

(** The assertion of [run_sampler] fires exactly when the step count is not
    positive, and by then the burn-in has been sampled. *)
Lemma run_sampler_asserts_iff (py : python) (num_walkers total_orbits burn_steps : Z) :
  0 < num_walkers ->
  (snd (run_sampler py num_walkers total_orbits burn_steps) = Raise AssertionError <->
   match py with
   | Py2 => total_orbits < num_walkers
   | Py3 => total_orbits <= 0
   end) /\
  (snd (run_sampler py num_walkers total_orbits burn_steps) = Raise AssertionError ->
   fst (run_sampler py num_walkers total_orbits burn_steps)
   = [Sample burn_steps; Reset]).
Proof.
  intros Hw. unfold run_sampler.
  destruct (nsteps_of_positive py total_orbits num_walkers Hw) as (n & -> & Hn).
  destruct (0 <? n) eqn:Hpos; simpl.
  - apply Z.ltb_lt in Hpos. apply Hn in Hpos.
    split; [| discriminate].
    split; [discriminate | destruct py; lia].
  - apply Z.ltb_ge in Hpos. split; [| reflexivity].
    split; [intros _ | reflexivity].
    destruct py; lia.
Qed.

(** C3, at the failing input: with [total_orbits = num_walkers = 10] the
    assertion does not fire under either interpreter and one step is
    sampled; under Python 3 the same holds for [total_orbits = 5]; and
    when the assertion does fire ([total_orbits = 0]) the 7 burn-in
    iterations have already been run. *)
Theorem run_sampler_assertion_at_equal_counts :
  (forall py,
      run_sampler py 10 10 0 = ([Sample 0; Reset; Sample 1; AddSamples], Ok tt)) /\
  run_sampler Py3 10 5 0 = ([Sample 0; Reset; Sample 1; AddSamples], Ok tt) /\
  (forall py,
      run_sampler py 10 0 7 = ([Sample 7; Reset], Raise AssertionError)).
Proof.
  repeat split; try (intros py; destruct py); reflexivity.
Qed.
End StepCount.

(** ** MCMC.chop_chains *)

Section ChopChains.
Import MCMC.

Lemma lookup_nsteps (n_steps : nat) (keep_start keep_end : Z) :
  lookup_name "nsteps" (chop_chains_names n_steps keep_start keep_end)
  = Raise NameError.
Proof. reflexivity. Qed.

(** No call of [chop_chains] runs to its end: whatever the sampler holds,
    it raises. *)
Lemma chop_chains_always_raises (self : sampler) (burn trim : Z) :
  exists e, snd (chop_chains self burn trim) = Raise e.
Proof.
  unfold chop_chains.
  destruct (NumPy.shape_minus2 (chain self)) as [n_steps | e]; [| simpl; eauto].
  destruct (chop_arrays self n_steps burn (Z.of_nat n_steps - trim))
    as [[[[c l] a] p] | e]; [| simpl; eauto].
  unfold chop_assign. rewrite lookup_nsteps. simpl. eauto.
Qed.

(** With the flat [post] that [run_sampler] stores, the exception comes
    before any attribute is assigned: the sampler is left as it was. *)
Lemma chop_chains_flat_post (self : sampler) (burn trim : Z) :
  NumPy.ndim (post self) = 2 ->
  exists e, chop_chains self burn trim = (self, Raise e).
Proof.
  intros Hpost. unfold chop_chains.
  destruct (NumPy.shape_minus2 (chain self)) as [n_steps | e]; [| eauto].
  assert (Harr : exists e,
             chop_arrays self n_steps burn (Z.of_nat n_steps - trim) = Raise e).
  { unfold chop_arrays.
    destruct (NumPy.reshape (lnlikes self) _) as [nl | e]; [| simpl; eauto].
    cbn [bind].
    match goal with
    | |- exists e, bind ?m _ = _ => destruct m as [na | e]; [| simpl; eauto]
    end.
    cbn [bind].
    destruct (NumPy.reshape (post self) _) as [np | e]; [| simpl; eauto].
    cbn [bind].
    match goal with
    | |- exists e, bind ?m _ = _ => destruct m as [ch | e]; [| simpl; eauto]
    end.
    cbn [bind].
    destruct (NumPy.getitem 2 1 _ _ nl) as [cl | e]; [| simpl; eauto].
    cbn [bind]. unfold NumPy.getitem at 1. rewrite Hpost. simpl. eauto. }
  destruct Harr as [e ->]. eauto.
Qed.

(** C4, at the failing input: [chop_chains(burn=10, trim=5)] on the
    100-step chain raises [IndexError] at [self.post[:, 10:95, :]] and
    leaves the chain with its 100 steps. *)
Theorem chop_chains_100_steps_raises :
  chop_chains sampler_100_steps 10 5 = (sampler_100_steps, Raise IndexError) /\
  NumPy.shape (chain (fst (chop_chains sampler_100_steps 10 5))) = [2; 100; 1].
Proof.
  assert (H : chop_chains sampler_100_steps 10 5
              = (sampler_100_steps, Raise IndexError)).
  { destruct (chop_chains_flat_post sampler_100_steps 10 5 eq_refl) as [e He].
    rewrite He. f_equal.
    assert (Hs : snd (chop_chains sampler_100_steps 10 5) = Raise IndexError)
      by (vm_compute; reflexivity).
    rewrite He in Hs. exact Hs. }
  split; [exact H | rewrite H; reflexivity].
Qed.
End ChopChains.


(** ** kepler.py: indexing with the result of np.where *)

Section IndexingFacts.
Import Kepler.
Context {A : Type}.

Lemma scatter_length (ind : list bool) :
  forall (vals arr : list A), length (scatter ind vals arr) = length arr.
Proof.
  induction ind as [| b ind IH]; intros vals [| a arr]; simpl; auto.
  destruct b; [destruct vals |]; simpl; rewrite IH; reflexivity.
Qed.

Lemma select_nth_error (ind : list bool) :
  forall (arr : list A) i a,
    nth_error ind i = Some true ->
    nth_error arr i = Some a ->
    nth_error (select ind arr) (rank ind i) = Some a.
Proof.
  induction ind as [| b ind IH]; intros [| x arr] [| i] a Hi Ha;
    simpl in *; try discriminate.
  - injection Hi as ->. exact Ha.
  - destruct b; simpl; apply IH; assumption.
Qed.

Lemma scatter_nth_error_true (ind : list bool) :
  forall (vals arr : list A) i a v,
    nth_error ind i = Some true ->
    nth_error arr i = Some a ->
    nth_error vals (rank ind i) = Some v ->
    nth_error (scatter ind vals arr) i = Some v.
Proof.
  induction ind as [| b ind IH]; intros vals [| x arr] [| i] a v Hi Ha Hv;
    simpl in *; try discriminate.
  - injection Hi as ->. destruct vals; simpl in *; [discriminate | exact Hv].
  - destruct b.
    + destruct vals as [| w vals]; simpl in *; [discriminate |].
      eapply IH; eassumption.
    + simpl. eapply IH; eassumption.
Qed.

Lemma scatter_nth_error_false (ind : list bool) :
  forall (vals arr : list A) i,
    nth_error ind i = Some false ->
    nth_error (scatter ind vals arr) i = nth_error arr i.
Proof.
  induction ind as [| b ind IH]; intros vals [| x arr] [| i] Hi;
    simpl in *; try discriminate; try reflexivity.
  - injection Hi as ->. reflexivity.
  - destruct b; [destruct vals |]; simpl; apply IH; assumption.
Qed.

Lemma nonempty_nth_error (ind : list bool) (i : nat) :
  nth_error ind i = Some true -> nonempty ind = true.
Proof.
  intros H. unfold nonempty. apply existsb_exists. exists true.
  split; [eapply nth_error_In; eassumption | reflexivity].
Qed.
End IndexingFacts.

Lemma nth_error_combine {A B : Type} (l : list A) :
  forall (l' : list B) i a b,
    nth_error l i = Some a ->
    nth_error l' i = Some b ->
    nth_error (combine l l') i = Some (a, b).
Proof.
  induction l as [| x l IH]; intros [| y l'] [| i] a b Ha Hb;
    simpl in *; try discriminate.
  - congruence.
  - apply IH; assumption.
Qed.

(** ** kepler.py: the solver at eccentricity 0 *)

Section ZeroEccentricity.
Import Kepler.
Open Scope R_scope.

Lemma correction_zero_ecc (manom : R) : correction manom 0 manom = 0.
Proof. unfold correction. field; lra. Qed.

Lemma newton_start_zero_ecc (manom : R) :
  newton_start manom 0
  = {| c_manom := manom; c_ecc := 0; c_eanom := manom;
       c_diff := 0; c_abs_diff := 0 |}.
Proof.
  unfold newton_start. rewrite correction_zero_ecc.
  replace (manom - 0) with manom by lra.
  rewrite correction_zero_ecc.
  replace (manom - 0) with manom by lra.
  rewrite correction_zero_ecc, Rabs_R0. reflexivity.
Qed.

Lemma newton_iterate_settled (tolerance : R) (c : newton_cell) :
  in_ind tolerance c = false -> newton_iterate tolerance c = c.
Proof. intros H. unfold newton_iterate. rewrite H. reflexivity. Qed.

(** A cell that is not in [ind] keeps its value through the loop, however
    long the other cells of the batch keep it running. *)
Lemma newton_loop_settled (tolerance : R) (max_iter : Z) (fuel : nat) :
  forall niter cells k c,
    nth_error cells k = Some c ->
    in_ind tolerance c = false ->
    nth_error (fst (newton_loop tolerance max_iter fuel niter cells)) k = Some c.
Proof.
  induction fuel as [| fuel IH]; intros niter cells k c Hk Hc; simpl.
  - exact Hk.
  - destruct (nonempty (map (in_ind tolerance) cells) && (niter <=? max_iter)%Z).
    + apply IH; [| exact Hc].
      rewrite nth_error_map, Hk. simpl.
      rewrite newton_iterate_settled by exact Hc. reflexivity.
    + exact Hk.
Qed.

Lemma newton_loop_length (tolerance : R) (max_iter : Z) (fuel : nat) :
  forall niter cells,
    length (fst (newton_loop tolerance max_iter fuel niter cells)) = length cells.
Proof.
  induction fuel as [| fuel IH]; intros niter cells; simpl; [reflexivity |].
  destruct (nonempty (map (in_ind tolerance) cells) && (niter <=? max_iter)%Z).
  - rewrite IH, length_map. reflexivity.
  - reflexivity.
Qed.

Lemma newton_solver_zero_ecc (manom ecc : list R) (tolerance : R) (max_iter : Z)
    (k : nat) (m : R) :
  0 <= tolerance ->
  nth_error manom k = Some m ->
  nth_error ecc k = Some 0 ->
  nth_error (_newton_solver manom ecc tolerance max_iter) k = Some m.
Proof.
  intros Htol Hm He. unfold _newton_solver.
  set (cells := map (fun me => newton_start (fst me) (snd me)) (combine manom ecc)).
  set (c := {| c_manom := m; c_ecc := 0; c_eanom := m;
               c_diff := 0; c_abs_diff := 0 |}).
  assert (Hk : nth_error cells k = Some c).
  { unfold cells. rewrite nth_error_map, (nth_error_combine _ _ _ _ _ Hm He).
    simpl. rewrite newton_start_zero_ecc. reflexivity. }
  assert (Hc : in_ind tolerance c = false).
  { unfold in_ind, gtb. simpl. destruct (Rgt_dec 0 tolerance); [lra | reflexivity]. }
  pose proof (newton_loop_settled tolerance max_iter (Z.to_nat (max_iter + 1))
                0%Z cells k c Hk Hc) as Hloop.
  destruct (newton_loop tolerance max_iter (Z.to_nat (max_iter + 1)) 0 cells)
    as [cells' niter]. simpl in Hloop.
  assert (Hea : nth_error (map c_eanom cells') k = Some m)
    by (rewrite nth_error_map, Hloop; reflexivity).
  destruct (niter >=? max_iter)%Z; [| exact Hea].
  rewrite scatter_nth_error_false; [exact Hea |].
  rewrite nth_error_map, Hloop. simpl. rewrite Hc. reflexivity.
Qed.

Lemma nth_error_defined {A : Type} (l : list A) (i : nat) :
  (i < length l)%nat -> exists a, nth_error l i = Some a.
Proof.
  intros H. destruct (nth_error l i) eqn:E; [eauto |].
  apply nth_error_None in E. lia.
Qed.

Lemma default_tolerance_nonneg : 0 <= default_tolerance.
Proof.
  unfold default_tolerance. apply Rlt_le, Rinv_0_lt_compat, pow_lt. lra.
Qed.

(** A circular orbit in the batch: the cell returned is its mean anomaly. *)
Lemma calc_ecc_anom_circular
    (manom ecc : list R) (tolerance : R) (max_iter : Z) (i : nat) (m : R) :
  0 <= tolerance ->
  nth_error manom i = Some m ->
  nth_error ecc i = Some 0 ->
  nth_error (_calc_ecc_anom manom ecc tolerance max_iter) i = Some (Some m).
Proof.
  intros Htol Hm He. unfold _calc_ecc_anom.
  assert (Hi : (i < length manom)%nat)
    by (apply nth_error_Some; rewrite Hm; discriminate).
  set (ind_zero := map (fun e => eqb e 0) ecc).
  set (ind_low := map (fun e => ltb e (95 / 100)) ecc).
  set (ind_high := map (fun e => geb e (95 / 100)) ecc).
  set (eanom0 := repeat None (length manom)).
  set (eanom1 := if nonempty ind_zero
                 then scatter ind_zero (map Some (select ind_zero manom)) eanom0
                 else eanom0).
  assert (H1 : exists a, nth_error eanom1 i = Some a).
  { apply nth_error_defined. unfold eanom1, eanom0.
    destruct (nonempty ind_zero);
      [rewrite scatter_length |]; rewrite repeat_length; exact Hi. }
  destruct H1 as [a1 H1].
  assert (Hlow : nth_error ind_low i = Some true).
  { unfold ind_low. rewrite nth_error_map, He. simpl. unfold ltb.
    destruct (Rlt_dec 0 (95 / 100)); [reflexivity | lra]. }
  assert (Hhigh : nth_error ind_high i = Some false).
  { unfold ind_high. rewrite nth_error_map, He. simpl. unfold geb.
    destruct (Rge_dec 0 (95 / 100)); [lra | reflexivity]. }
  rewrite (nonempty_nth_error _ _ Hlow).
  set (eanom2 := scatter ind_low _ eanom1).
  assert (H2 : nth_error eanom2 i = Some (Some m)).
  { unfold eanom2. eapply scatter_nth_error_true; [exact Hlow | exact H1 |].
    rewrite nth_error_map.
    rewrite (newton_solver_zero_ecc _ _ tolerance max_iter (rank ind_low i) m Htol).
    - reflexivity.
    - apply select_nth_error; assumption.
    - apply select_nth_error; assumption. }
  destruct (nonempty ind_high); [| exact H2].
  rewrite scatter_nth_error_false by exact Hhigh. exact H2.
Qed.

End ZeroEccentricity.


(** ** kepler.py: the hand-off from Newton to Mikkola *)

Section NewtonExhaustion.
Import Kepler.
Open Scope R_scope.

Lemma scatter_select_map {A : Type} (f : A -> A) (ind : list bool)
    (arr : list A) (j : nat) (b : bool) (a : A) :
  nth_error ind j = Some b ->
  nth_error arr j = Some a ->
  nth_error (scatter ind (map f (select ind arr)) arr) j
  = Some (if b then f a else a).
Proof.
  intros Hb Ha. destruct b.
  - eapply scatter_nth_error_true; [exact Hb | exact Ha |].
    rewrite nth_error_map, (select_nth_error ind arr j a Hb Ha). reflexivity.
  - rewrite scatter_nth_error_false by exact Hb. exact Ha.
Qed.

Lemma reflected_nth_error (manom : list R) (j : nat) (m : R) :
  nth_error manom j = Some m ->
  nth_error (reflected manom) j = Some (if gtb m PI then reflect m else m).
Proof.
  intros Hm. unfold reflected.
  apply scatter_select_map; [| exact Hm].
  rewrite nth_error_map, Hm. reflexivity.
Qed.

Lemma mikkola_solver_nth_error (manom ecc : list R) (j : nat) (m e : R) :
  nth_error manom j = Some m ->
  nth_error ecc j = Some e ->
  nth_error (_mikkola_solver manom ecc) j = Some (mikkola m e).
Proof.
  intros Hm He. unfold _mikkola_solver.
  rewrite nth_error_map, (nth_error_combine _ _ _ _ _ Hm He). reflexivity.
Qed.

(** The wrapper, cell by cell. *)
Lemma mikkola_solver_wrapper_nth_error (manom ecc : list R) (j : nat) (m e : R) :
  nth_error manom j = Some m ->
  nth_error ecc j = Some e ->
  nth_error (_mikkola_solver_wrapper manom ecc) j = Some (mikkola_wrapped m e).
Proof.
  intros Hm He. unfold _mikkola_solver_wrapper.
  pose proof (reflected_nth_error manom j m Hm) as Hr.
  pose proof (mikkola_solver_nth_error _ _ j _ e Hr He) as Hs.
  assert (Hind : nth_error (map (fun x => gtb x PI) manom) j = Some (gtb m PI))
    by (rewrite nth_error_map, Hm; reflexivity).
  rewrite (scatter_select_map reflect _ _ j _ _ Hind Hs).
  unfold mikkola_wrapped. destruct (gtb m PI); reflexivity.
Qed.

(** The loop never changes the [manom] and [ecc] of a position. *)
Lemma newton_loop_inputs (tolerance : R) (max_iter : Z) (fuel : nat) :
  forall niter cells k c,
    nth_error cells k = Some c ->
    exists c',
      nth_error (fst (newton_loop tolerance max_iter fuel niter cells)) k = Some c' /\
      c_manom c' = c_manom c /\ c_ecc c' = c_ecc c.
Proof.
  induction fuel as [| fuel IH]; intros niter cells k c Hk; simpl.
  - eauto.
  - destruct (nonempty (map (in_ind tolerance) cells) && (niter <=? max_iter)%Z);
      [| eauto].
    destruct (IH (niter + 1)%Z (map (newton_iterate tolerance) cells) k
                (newton_iterate tolerance c)) as (c' & Hc' & Hm & He).
    { rewrite nth_error_map, Hk. reflexivity. }
    exists c'. split; [exact Hc' |].
    rewrite Hm, He. unfold newton_iterate.
    destruct (in_ind tolerance c); split; reflexivity.
Qed.

(** The fuel [max_iter + 1] is never what stops the loop: when it stops,
    the condition of the [while] is false. *)
Lemma newton_loop_exit (tolerance : R) (max_iter : Z) (fuel : nat) :
  forall niter cells,
    (max_iter < niter + Z.of_nat fuel)%Z ->
    let r := newton_loop tolerance max_iter fuel niter cells in
    nonempty (map (in_ind tolerance) (fst r)) && (snd r <=? max_iter)%Z = false.
Proof.
  induction fuel as [| fuel IH]; intros niter cells Hf; simpl.
  - assert (H : (niter <=? max_iter)%Z = false) by (apply Z.leb_gt; lia).
    rewrite H. apply andb_false_r.
  - destruct (nonempty (map (in_ind tolerance) cells) && (niter <=? max_iter)%Z)
      eqn:Hg.
    + apply IH. lia.
    + simpl. exact Hg.
Qed.

(** A position that is still in [ind] when the loop stops receives what
    [_mikkola_solver_wrapper] computes for it. *)
Lemma newton_solver_exhausted (manom ecc : list R) (tolerance : R) (max_iter : Z)
    (k : nat) (m e : R) :
  nth_error manom k = Some m ->
  nth_error ecc k = Some e ->
  exhausted manom ecc tolerance max_iter k ->
  nth_error (_newton_solver manom ecc tolerance max_iter) k
  = Some (mikkola_wrapped m e).
Proof.
  intros Hm He (c & Hc & Hin). unfold newton_cells in Hc. unfold _newton_solver.
  pose proof (newton_loop_exit tolerance max_iter (Z.to_nat (max_iter + 1)) 0%Z
                (map (fun me => newton_start (fst me) (snd me)) (combine manom ecc))
                ltac:(lia)) as Hexit.
  destruct (newton_loop tolerance max_iter (Z.to_nat (max_iter + 1)) 0
              (map (fun me => newton_start (fst me) (snd me)) (combine manom ecc)))
    as [cells niter].
  simpl in Hc, Hexit.
  assert (Hind : nth_error (map (in_ind tolerance) cells) k = Some true)
    by (rewrite nth_error_map, Hc; simpl; rewrite Hin; reflexivity).
  rewrite (nonempty_nth_error _ _ Hind) in Hexit. simpl in Hexit.
  apply Z.leb_gt in Hexit.
  assert (Hge : (niter >=? max_iter)%Z = true) by (apply Z.geb_le; lia).
  rewrite Hge.
  eapply scatter_nth_error_true; [exact Hind | |].
  - rewrite nth_error_map, Hc. reflexivity.
  - apply mikkola_solver_wrapper_nth_error; apply select_nth_error; assumption.
Qed.

Lemma ltb_true (x y : R) : x < y -> ltb x y = true.
Proof. intros H. unfold ltb. destruct (Rlt_dec x y); [reflexivity | lra]. Qed.

Lemma geb_false (x y : R) : x < y -> geb x y = false.
Proof. intros H. unfold geb. destruct (Rge_dec x y); [lra | reflexivity]. Qed.

Lemma gtb_Rabs_negative (x tolerance : R) :
  tolerance < 0 -> gtb (Rabs x) tolerance = true.
Proof.
  intros H. unfold gtb. pose proof (Rabs_pos x).
  destruct (Rgt_dec (Rabs x) tolerance); [reflexivity | lra].
Qed.

(** [_mikkola_solver_wrapper] on one cell. *)
Lemma mikkola_solver_wrapper_one (m e : R) :
  _mikkola_solver_wrapper [m] [e] = [mikkola_wrapped m e].
Proof.
  unfold _mikkola_solver_wrapper, reflected, _mikkola_solver, mikkola_wrapped.
  cbn [map]. destruct (gtb m PI); reflexivity.
Qed.

(** A cell of the Newton regime that is still in [ind] when the loop
    stops: what [_calc_ecc_anom] returns there. *)
Lemma calc_ecc_anom_exhausted
    (manom ecc : list R) (tolerance : R) (max_iter : Z) (i : nat) (m e : R) :
  nth_error manom i = Some m ->
  nth_error ecc i = Some e ->
  0 < e < 95 / 100 ->
  let ind_low := map (fun e => ltb e (95 / 100)) ecc in
  exhausted (select ind_low manom) (select ind_low ecc) tolerance max_iter
    (rank ind_low i) ->
  nth_error (_calc_ecc_anom manom ecc tolerance max_iter) i
  = Some (Some (mikkola_wrapped m e)).
Proof.
  intros Hm He Hrange ind_low Hex. unfold _calc_ecc_anom.
  assert (Hi : (i < length manom)%nat)
    by (apply nth_error_Some; rewrite Hm; discriminate).
  set (ind_zero := map (fun e => eqb e 0) ecc).
  fold ind_low.
  set (ind_high := map (fun e => geb e (95 / 100)) ecc).
  set (eanom0 := repeat None (length manom)).
  set (eanom1 := if nonempty ind_zero
                 then scatter ind_zero (map Some (select ind_zero manom)) eanom0
                 else eanom0).
  assert (H1 : exists a, nth_error eanom1 i = Some a).
  { apply nth_error_defined. unfold eanom1, eanom0.
    destruct (nonempty ind_zero);
      [rewrite scatter_length |]; rewrite repeat_length; exact Hi. }
  destruct H1 as [a1 H1].
  assert (Hlow : nth_error ind_low i = Some true)
    by (unfold ind_low; rewrite nth_error_map, He; simpl;
        rewrite ltb_true by lra; reflexivity).
  assert (Hhigh : nth_error ind_high i = Some false)
    by (unfold ind_high; rewrite nth_error_map, He; simpl;
        rewrite geb_false by lra; reflexivity).
  rewrite (nonempty_nth_error _ _ Hlow).
  set (eanom2 := scatter ind_low _ eanom1).
  assert (H2 : nth_error eanom2 i = Some (Some (mikkola_wrapped m e))).
  { unfold eanom2. eapply scatter_nth_error_true; [exact Hlow | exact H1 |].
    rewrite nth_error_map.
    rewrite (newton_solver_exhausted _ _ tolerance max_iter (rank ind_low i) m e).
    - reflexivity.
    - apply select_nth_error; assumption.
    - apply select_nth_error; assumption.
    - exact Hex. }
  destruct (nonempty ind_high); [| exact H2].
  rewrite scatter_nth_error_false by exact Hhigh. exact H2.
Qed.


End NewtonExhaustion.


(** ** kepler.py: the solver leaves the arrays it is given as they are *)

Section Purity.
Import Kepler.
Import KeplerStore.
Open Scope nat_scope.

Lemma read_old (h t : store) (r : ref) :
  (r < length h)%nat -> read r (h ++ t) = read r h.
Proof. intros H. unfold read. apply app_nth1. exact H. Qed.

Lemma read_first_new (h : store) (a b : list R) :
  read (length h) ((h ++ [a]) ++ [b]) = a.
Proof.
  unfold read. rewrite <- app_assoc. simpl. rewrite nth_middle. reflexivity.
Qed.

Lemma read_second_new (h : store) (a b : list R) :
  read (length (h ++ [a])) ((h ++ [a]) ++ [b]) = b.
Proof. unfold read. rewrite nth_middle. reflexivity. Qed.

Lemma write_app (h t : store) (v : list R) :
  forall r, (length h <= r)%nat ->
            write r v (h ++ t) = h ++ write (r - length h) v t.
Proof.
  induction h as [| a h IH]; intros r Hr; simpl.
  - rewrite Nat.sub_0_r. reflexivity.
  - destruct r as [| r]; [simpl in Hr; lia |].
    simpl. rewrite IH by (simpl in Hr; lia). reflexivity.
Qed.

Lemma write_first_new (h : store) (a b v : list R) :
  write (length h) v ((h ++ [a]) ++ [b]) = (h ++ [v]) ++ [b].
Proof.
  rewrite <- !app_assoc. rewrite write_app by lia.
  rewrite Nat.sub_diag. reflexivity.
Qed.

Lemma untouched_app (h t : store) : untouched h (h ++ t).
Proof.
  unfold untouched. rewrite firstn_app, Nat.sub_diag, firstn_all. simpl.
  apply app_nil_r.
Qed.

(** The wrapper on two arrays just made: the first is overwritten with its
    reflection, nothing older is written, and the array returned is the
    one computed on values. *)
Lemma mikkola_solver_wrapper_on_new (h : store) (a b : list R) :
  KeplerStore._mikkola_solver_wrapper (length h) (length (h ++ [a]))
    ((h ++ [a]) ++ [b])
  = ((h ++ [reflected a]) ++ [b], Kepler._mikkola_solver_wrapper a b).
Proof.
  unfold KeplerStore._mikkola_solver_wrapper, KeplerStore._mikkola_solver.
  rewrite read_first_new, write_first_new.
  fold (reflected a).
  rewrite read_first_new.
  replace (length (h ++ [a])) with (length (h ++ [reflected a]))
    by (rewrite !length_app; reflexivity).
  rewrite read_second_new. reflexivity.
Qed.

Lemma newton_solver_on_new (h : store) (a b : list R) (tolerance : R)
    (max_iter : Z) :
  exists t,
    KeplerStore._newton_solver (length h) (length (h ++ [a])) tolerance max_iter
      ((h ++ [a]) ++ [b])
    = (((h ++ [a]) ++ [b]) ++ t, Kepler._newton_solver a b tolerance max_iter).
Proof.
  unfold KeplerStore._newton_solver, Kepler._newton_solver.
  rewrite read_first_new, read_second_new.
  destruct (newton_loop tolerance max_iter (Z.to_nat (max_iter + 1)) 0
              (map (fun me => newton_start (fst me) (snd me)) (combine a b)))
    as [cells niter].
  destruct (niter >=? max_iter)%Z.
  - unfold new.
    rewrite (read_old ((h ++ [a]) ++ [b]))
      by (rewrite !length_app; simpl; lia).
    rewrite read_second_new, mikkola_solver_wrapper_on_new.
    eexists. rewrite <- (app_assoc _ [reflected _] [_]). reflexivity.
  - exists []. rewrite app_nil_r. reflexivity.
Qed.

Lemma untouched_read (h h' : store) (r : ref) :
  untouched h h' -> r < length h -> read r h' = read r h.
Proof.
  unfold untouched. intros Hu Hr.
  rewrite <- (firstn_skipn (length h) h'), Hu.
  apply read_old. exact Hr.
Qed.

(** The wrapper itself is not pure: called on the caller's own array, it
    leaves the reflected mean anomaly in it. *)
Lemma mikkola_solver_wrapper_writes_its_argument :
  read 0 (fst (KeplerStore._mikkola_solver_wrapper 0 1
                 [[5%R]; [(96 / 100)%R]]))
  = [(2 * PI - 5)%R] /\
  (2 * PI - 5 <> 5)%R.
Proof.
  split.
  - unfold KeplerStore._mikkola_solver_wrapper, KeplerStore._mikkola_solver.
    simpl. unfold gtb.
    destruct (Rgt_dec 5 PI) as [_ | Hn]; [reflexivity |].
    exfalso. apply Hn. pose proof PI_4. lra.
  - pose proof PI_4. lra.
Qed.

(** [_calc_ecc_anom] on arrays held in a store: every array that was in
    the store before the call has its cells unchanged afterwards, and the
    array returned is the one computed from the cells of the two inputs. *)
Lemma calc_ecc_anom_on_store (manom ecc : ref) (tolerance : R) (max_iter : Z)
    (h : store) :
  manom < length h ->
  ecc < length h ->
  exists t,
    KeplerStore._calc_ecc_anom manom ecc tolerance max_iter h
    = (h ++ t,
       Kepler._calc_ecc_anom (read manom h) (read ecc h) tolerance max_iter).
Proof.
  intros Hm He.
  unfold KeplerStore._calc_ecc_anom, Kepler._calc_ecc_anom.
  set (m := read manom h). set (e := read ecc h).
  set (ind_low := map (fun e0 => ltb e0 (95 / 100)%R) e).
  set (eanom1 := if nonempty (map (fun e0 => eqb e0 0%R) e) then _ else _).
  assert (Hlow : exists t1 eanom2,
             (if nonempty ind_low
              then
                let (h0, manom_low) := new (select ind_low m) h in
                let (h1, ecc_low) := new (select ind_low (read ecc h0)) h0 in
                let (h2, solved) :=
                  KeplerStore._newton_solver manom_low ecc_low tolerance max_iter h1 in
                (h2, scatter ind_low (map Some solved) eanom1)
              else (h, eanom1)) = (h ++ t1, eanom2) /\
             eanom2 =
               (if nonempty ind_low
                then scatter ind_low
                       (map Some (Kepler._newton_solver (select ind_low m)
                                    (select ind_low e) tolerance max_iter))
                       eanom1
                else eanom1)).
  { destruct (nonempty ind_low).
    - unfold new.
      rewrite (read_old h [select ind_low m] ecc He). fold e.
      destruct (newton_solver_on_new h (select ind_low m) (select ind_low e)
                  tolerance max_iter) as [t Ht].
      rewrite Ht. eexists. eexists. split; [| reflexivity].
      rewrite <- !app_assoc. reflexivity.
    - exists [], eanom1. rewrite app_nil_r. split; reflexivity. }
  destruct Hlow as (t1 & eanom2 & -> & ->).
  rewrite (read_old h t1 ecc He), (read_old h t1 manom Hm). fold e m.
  set (ind_high := map (fun e0 => geb e0 (95 / 100)%R) e).
  destruct (nonempty ind_high).
  - unfold new.
    rewrite (read_old (h ++ t1) [select ind_high m] ecc)
      by (rewrite length_app; lia).
    rewrite (read_old h t1 ecc He). fold e.
    rewrite mikkola_solver_wrapper_on_new.
    eexists. rewrite <- !app_assoc. reflexivity.
  - exists t1. reflexivity.
Qed.

(** C9: [_calc_ecc_anom] changes neither of the two arrays it is given
    (nor any other array that exists when it is called), although the
    Mikkola wrapper writes the reflected mean anomalies into its argument:
    that argument is always an array made for the call.  What it returns
    depends on the cells of its inputs only, so two calls on equal inputs
    return equal arrays. *)
Theorem calc_ecc_anom_leaves_inputs
    (manom ecc : ref) (tolerance : R) (max_iter : Z) (h : store)
    (manom' ecc' : ref) (h' : store) :
  manom < length h ->
  ecc < length h ->
  manom' < length h' ->
  ecc' < length h' ->
  let after := fst (KeplerStore._calc_ecc_anom manom ecc tolerance max_iter h) in
  untouched h after /\
  read manom after = read manom h /\
  read ecc after = read ecc h /\
  (read manom h = read manom' h' ->
   read ecc h = read ecc' h' ->
   snd (KeplerStore._calc_ecc_anom manom ecc tolerance max_iter h)
   = snd (KeplerStore._calc_ecc_anom manom' ecc' tolerance max_iter h')).
Proof.
  intros Hm He Hm' He' after.
  destruct (calc_ecc_anom_on_store manom ecc tolerance max_iter h Hm He)
    as [t Ht].
  destruct (calc_ecc_anom_on_store manom' ecc' tolerance max_iter h' Hm' He')
    as [t' Ht'].
  unfold after. rewrite Ht, Ht'. simpl.
  repeat split.
  - apply untouched_app.
  - apply read_old. exact Hm.
  - apply read_old. exact He.
  - intros -> ->. reflexivity.
Qed.

Lemma calc_ecc_anom_leaves_inputs_witness :
  let h := [[4%R; 1%R]; [(96 / 100)%R; (1 / 2)%R]] in
  let after :=
    fst (KeplerStore._calc_ecc_anom 0 1 default_tolerance default_max_iter h) in
  untouched h after /\
  read 0 after = [4%R; 1%R] /\
  read 1 after = [(96 / 100)%R; (1 / 2)%R].
Proof.
  intros h after.
  destruct (calc_ecc_anom_leaves_inputs 0 1 default_tolerance default_max_iter h
              0 1 h) as (Hu & Hm & He & _); simpl; try lia.
  repeat split; assumption.
Defined.
End Purity.


(** ** kepler.py: the shapes that calc_orbit returns *)

Section OrbitShapes.
Import Kepler.
Import Orbit.
Open Scope nat_scope.

Lemma calc_ecc_anom_length (manom ecc : list R) (tolerance : R) (max_iter : Z) :
  length (_calc_ecc_anom manom ecc tolerance max_iter) = length manom.
Proof.
  unfold _calc_ecc_anom.
  repeat match goal with
         | |- context [if ?b then _ else _] => destruct b
         end;
    rewrite ?scatter_length, repeat_length; reflexivity.
Qed.

Lemma calc_orbit_cells
    (epochs sma ecc tau argp lan inc plx mtot : list R) (mass : R) :
  let r := calc_orbit epochs sma ecc tau argp lan inc plx mtot mass in
  length (o_cells (fst (fst r))) = length sma * length epochs /\
  length (o_cells (snd (fst r))) = length sma * length epochs /\
  length (o_cells (snd r)) = length sma * length epochs.
Proof.
  unfold calc_orbit. cbn [fst snd o_cells].
  rewrite !length_map, !length_combine, calc_ecc_anom_length.
  rewrite !length_map, length_seq, Nat.min_id. auto.
Qed.

Lemma calc_orbit_shapes
    (epochs sma ecc tau argp lan inc plx mtot : list R) (mass : R) :
  let r := calc_orbit epochs sma ecc tau argp lan inc plx mtot mass in
  o_shape (fst (fst r)) = NumPy.squeeze [length sma; length epochs] /\
  o_shape (snd (fst r)) = NumPy.squeeze [length sma; length epochs] /\
  o_shape (snd r) = NumPy.squeeze [length sma; length epochs].
Proof. unfold calc_orbit. cbn [fst snd o_shape]. auto. Qed.



End OrbitShapes.


(** ** sampler.py: scale-and-rotate at the anchor epoch *)

Section AnchorEpoch.
Import Kepler.
Import Orbit.
Import OFTI.
Open Scope R_scope.

Lemma fmod_small (x m : R) : 0 < m -> 0 <= x < m -> fmod x m = x.
Proof.
  intros Hm [H0 H1]. unfold fmod.
  assert (Hq : 0 <= x / m < 1).
  { pose proof (Rinv_0_lt_compat m Hm) as Hi.
    assert (Hmi : m * / m = 1) by (field; lra).
    unfold Rdiv. split; nra. }
  rewrite <- (Int_part_spec (x / m) 0) by (simpl; lra).
  simpl. lra.
Qed.

Lemma fmod_shift (x m : R) : 0 < m -> - m <= x < 0 -> fmod x m = x + m.
Proof.
  intros Hm [H0 H1]. unfold fmod.
  assert (Hq : -1 <= x / m < 0).
  { pose proof (Rinv_0_lt_compat m Hm) as Hi.
    assert (Hmi : m * / m = 1) by (field; lra).
    unfold Rdiv. split; nra. }
  rewrite <- (Int_part_spec (x / m) (-1)) by (simpl; lra).
  simpl. lra.
Qed.

Lemma calc_ecc_anom_one_circular (m : R) :
  _calc_ecc_anom [m] [0] default_tolerance default_max_iter = [Some m].
Proof.
  pose proof (calc_ecc_anom_circular [m] [0] default_tolerance default_max_iter
                0%nat m default_tolerance_nonneg eq_refl eq_refl) as H.
  pose proof (calc_ecc_anom_length [m] [0] default_tolerance default_max_iter) as L.
  destruct (_calc_ecc_anom [m] [0] default_tolerance default_max_iter)
    as [| x [| y l]]; simpl in *; try discriminate.
  congruence.
Qed.

(** [calc_orbit] for one circular orbit at one epoch: three arrays of
    shape [()], computed at the mean anomaly. *)
Lemma calc_orbit_one_circular (t a tau0 argp0 lan0 inc0 plx0 mtot0 : R) :
  let c := {| epochs := t; sma := a; ecc := 0; tau := tau0; argp := argp0;
              lan := lan0; inc := inc0; plx := plx0; mtot := mtot0 |} in
  calc_orbit [t] [a] [0] [tau0] [argp0] [lan0] [inc0] [plx0] [mtot0] 0
  = ({| o_shape := []; o_cells := [Some (raoff c (manom c))] |},
     {| o_shape := []; o_cells := [Some (deoff c (manom c))] |},
     {| o_shape := []; o_cells := [Some (vz c 0 (manom c))] |}).
Proof.
  intros c. unfold calc_orbit.
  cbn [length tile_transposed tile flat_map repeat concat app Nat.mul Nat.add
       seq map nth].
  change (Orbit.ecc {| epochs := t; sma := a; ecc := 0; tau := tau0;
                       argp := argp0; lan := lan0; inc := inc0; plx := plx0;
                       mtot := mtot0 |}) with 0.
  fold c. rewrite calc_ecc_anom_one_circular. reflexivity.
Qed.
End AnchorEpoch.


(** ** kepler.py: the modulo of two floats *)

Section Modulo.
Import Kepler.
Open Scope R_scope.

Lemma fmod_range (x m : R) : 0 < m -> 0 <= fmod x m < m.
Proof.
  intros Hm. unfold fmod.
  destruct (base_Int_part (x / m)) as [H1 H2].
  assert (Hx : x = x / m * m) by (field; lra).
  remember (x / m) as q eqn:Hq. remember (IZR (Int_part q)) as z eqn:Hz.
  clear Hq Hz. split; nra.
Qed.

Lemma fmod_add_multiple (x m : R) (k : Z) :
  0 < m -> fmod (x + IZR k * m) m = fmod x m.
Proof.
  intros Hm. unfold fmod.
  assert (Hq : (x + IZR k * m) / m = x / m + IZR k) by (field; lra).
  rewrite Hq.
  assert (Hi : Int_part (x / m + IZR k) = (Int_part (x / m) + k)%Z).
  { symmetry. apply Int_part_spec. rewrite plus_IZR.
    destruct (base_Int_part (x / m)) as [H1 H2]. lra. }
  rewrite Hi, plus_IZR. ring.
Qed.

(** [x % m] differs from [x] by a whole number of [m]. *)
Lemma fmod_congruent (x m : R) : exists k : Z, fmod x m = x + IZR k * m.
Proof.
  exists (- Int_part (x / m))%Z. unfold fmod. rewrite opp_IZR. ring.
Qed.
End Modulo.


(** ** kepler.py: _mikkola_solver_wrapper *)

Section MikkolaWrapper.
Import Kepler.
Open Scope R_scope.

Lemma mikkola_solver_length (manom ecc : list R) :
  length (_mikkola_solver manom ecc) = Nat.min (length manom) (length ecc).
Proof. unfold _mikkola_solver. rewrite length_map, length_combine. reflexivity. Qed.

Lemma reflected_length (manom : list R) : length (reflected manom) = length manom.
Proof. unfold reflected. apply scatter_length. Qed.

Lemma mikkola_solver_wrapper_length (manom ecc : list R) :
  length (_mikkola_solver_wrapper manom ecc)
  = Nat.min (length manom) (length ecc).
Proof.
  unfold _mikkola_solver_wrapper.
  rewrite scatter_length, mikkola_solver_length, reflected_length. reflexivity.
Qed.

Lemma reflected_cells (manom : list R) :
  reflected manom = map (fun m => if gtb m PI then reflect m else m) manom.
Proof.
  apply nth_error_ext. intros j. rewrite nth_error_map.
  destruct (nth_error manom j) as [m |] eqn:Hm.
  - rewrite (reflected_nth_error manom j m Hm). reflexivity.
  - apply nth_error_None. rewrite reflected_length.
    apply nth_error_None. exact Hm.
Qed.

(** The array returned by the wrapper, as a whole. *)
Lemma mikkola_solver_wrapper_cells (manom ecc : list R) :
  _mikkola_solver_wrapper manom ecc
  = map (fun me => mikkola_wrapped (fst me) (snd me)) (combine manom ecc).
Proof.
  apply nth_error_ext. intros j.
  destruct (nth_error manom j) as [m |] eqn:Hm;
    destruct (nth_error ecc j) as [e |] eqn:He.
  - rewrite (mikkola_solver_wrapper_nth_error _ _ _ _ _ Hm He), nth_error_map,
      (nth_error_combine _ _ _ _ _ Hm He).
    reflexivity.
  - apply nth_error_None in He.
    transitivity (@None R).
    + apply nth_error_None. rewrite mikkola_solver_wrapper_length. lia.
    + symmetry. apply nth_error_None. rewrite length_map, length_combine. lia.
  - apply nth_error_None in Hm.
    transitivity (@None R).
    + apply nth_error_None. rewrite mikkola_solver_wrapper_length. lia.
    + symmetry. apply nth_error_None. rewrite length_map, length_combine. lia.
  - apply nth_error_None in Hm.
    transitivity (@None R).
    + apply nth_error_None. rewrite mikkola_solver_wrapper_length. lia.
    + symmetry. apply nth_error_None. rewrite length_map, length_combine. lia.
Qed.

Lemma mikkola_wrapped_reflect (m e : R) :
  m <> PI -> mikkola_wrapped (reflect m) e = reflect (mikkola_wrapped m e).
Proof.
  intros Hm. unfold mikkola_wrapped, gtb, reflect.
  destruct (Rgt_dec (2 * PI - m) PI) as [H1 | H1];
    destruct (Rgt_dec m PI) as [H2 | H2].
  - lra.
  - replace (2 * PI - (2 * PI - m)) with m by lra. reflexivity.
  - ring.
  - exfalso. apply Hm. lra.
Qed.

(** X1: the wrapper respects the symmetry of Kepler's equation about
    [pi].  For arrays of equal length and no mean anomaly equal to [pi],
    solving the reflected mean anomalies [2 pi - M] gives the reflected
    eccentric anomalies [2 pi - E], cell by cell. *)
Theorem mikkola_solver_wrapper_reflection (manom ecc : list R) :
  length manom = length ecc ->
  Forall (fun m => m <> PI) manom ->
  _mikkola_solver_wrapper (map reflect manom) ecc
  = map reflect (_mikkola_solver_wrapper manom ecc).
Proof.
  intros _ Hpi. rewrite !mikkola_solver_wrapper_cells.
  revert ecc. induction Hpi as [| m manom Hm _ IH]; intros [| e ecc];
    simpl; try reflexivity.
  f_equal; [apply mikkola_wrapped_reflect; exact Hm | apply IH].
Qed.

Lemma mikkola_solver_wrapper_reflection_witness :
  length [1; 5] = length [96 / 100; 97 / 100] /\
  Forall (fun m => m <> PI) [1; 5] /\
  _mikkola_solver_wrapper (map reflect [1; 5]) [96 / 100; 97 / 100]
  = map reflect (_mikkola_solver_wrapper [1; 5] [96 / 100; 97 / 100]).
Proof.
  assert (Hpi : Forall (fun m => m <> PI) [1; 5]).
  { pose proof PI_4. pose proof PI2_1.
    repeat constructor; lra. }
  split; [reflexivity |]. split; [exact Hpi |].
  apply (mikkola_solver_wrapper_reflection [1; 5] [96 / 100; 97 / 100]).
  - reflexivity.
  - exact Hpi.
Defined.
End MikkolaWrapper.


(** ** kepler.py: what _mikkola_solver_wrapper does to its argument *)

Section WrapperWrites.
Import Kepler.
Import KeplerStore.
Open Scope nat_scope.

Lemma write_length (h : store) :
  forall r v, length (write r v h) = length h.
Proof.
  induction h as [| a h IH]; intros [| r] v; simpl; auto.
Qed.

Lemma read_write_same (h : store) :
  forall r v, r < length h -> read r (write r v h) = v.
Proof.
  unfold read. induction h as [| a h IH]; intros [| r] v Hr; simpl in *;
    try lia; [reflexivity |].
  apply IH. lia.
Qed.

Lemma read_write_other (h : store) :
  forall r r' v, r <> r' -> read r' (write r v h) = read r' h.
Proof.
  unfold read. induction h as [| a h IH]; intros [| r] [| r'] v Hr; simpl;
    try reflexivity; try congruence.
  apply IH. congruence.
Qed.

Lemma reflected_at_most_pi (manom : list R) :
  Forall (fun m => (m <= PI)%R) (reflected manom).
Proof.
  rewrite reflected_cells. apply Forall_forall. intros x Hx.
  apply in_map_iff in Hx as (m & <- & _).
  unfold gtb, reflect. destruct (Rgt_dec m PI); lra.
Qed.

(** X2: [_mikkola_solver_wrapper] writes into the array it is given.
    Called on two distinct arrays of the caller, it leaves in [manom]
    the reflected mean anomalies (every cell above [pi] replaced by
    [2 pi - M], so that no cell exceeds [pi] afterwards), changes no
    other array, makes no new one, and returns the array computed from
    the cells that [manom] and [ecc] held before the call. *)
Theorem mikkola_solver_wrapper_overwrites_manom
    (manom ecc : ref) (h : store) :
  manom < length h ->
  ecc < length h ->
  manom <> ecc ->
  let r := KeplerStore._mikkola_solver_wrapper manom ecc h in
  read manom (fst r) = reflected (read manom h) /\
  Forall (fun m => (m <= PI)%R) (read manom (fst r)) /\
  (forall other, other <> manom -> read other (fst r) = read other h) /\
  length (fst r) = length h /\
  snd r = Kepler._mikkola_solver_wrapper (read manom h) (read ecc h).
Proof.
  intros Hm He Hne.
  unfold KeplerStore._mikkola_solver_wrapper, KeplerStore._mikkola_solver.
  cbn [fst snd]. fold (reflected (read manom h)).
  rewrite read_write_same by exact Hm.
  repeat split.
  - apply reflected_at_most_pi.
  - intros other Ho. apply read_write_other. congruence.
  - apply write_length.
  - rewrite read_write_other by exact Hne. reflexivity.
Qed.

Lemma mikkola_solver_wrapper_overwrites_manom_witness :
  let h := [[5%R; 1%R]; [(96 / 100)%R; (97 / 100)%R]] in
  let r := KeplerStore._mikkola_solver_wrapper 0 1 h in
  read 0 (fst r) = reflected [5%R; 1%R] /\
  Forall (fun m => (m <= PI)%R) (read 0 (fst r)) /\
  read 1 (fst r) = [(96 / 100)%R; (97 / 100)%R] /\
  length (fst r) = 2.
Proof.
  intros h r.
  assert (H0 : 0 < length h) by (simpl; lia).
  assert (H1 : 1 < length h) by (simpl; lia).
  destruct (mikkola_solver_wrapper_overwrites_manom 0 1 h H0 H1 ltac:(lia))
    as (Ha & Hb & Hc & Hd & _).
  split; [exact Ha |]. split; [exact Hb |].
  split; [apply (Hc 1); lia | exact Hd].
Defined.
End WrapperWrites.


(** ** kepler.py: _newton_solver, cell by cell *)

Section NewtonCellwise.
Import Kepler.
Open Scope R_scope.

Lemma nonempty_singleton (b : bool) : nonempty [b] = b.
Proof. unfold nonempty. simpl. apply orb_false_r. Qed.

(** The loop on a batch and the loop on one of its cells alone leave that
    cell in the same state; if the cell is still in [ind] then, both loops
    have run the same number of times. *)
Lemma newton_loop_single (tolerance : R) (max_iter : Z) (fuel : nat) :
  forall niter cells k c,
    nth_error cells k = Some c ->
    exists c',
      nth_error (fst (newton_loop tolerance max_iter fuel niter cells)) k
      = Some c' /\
      fst (newton_loop tolerance max_iter fuel niter [c]) = [c'] /\
      (in_ind tolerance c' = true ->
       snd (newton_loop tolerance max_iter fuel niter cells)
       = snd (newton_loop tolerance max_iter fuel niter [c])).
Proof.
  induction fuel as [| fuel IH]; intros niter cells k c Hk.
  - simpl. eauto.
  - destruct (in_ind tolerance c) eqn:Hc.
    + cbn [newton_loop map]. rewrite nonempty_singleton, Hc.
      assert (Hne : nonempty (map (in_ind tolerance) cells) = true).
      { apply (nonempty_nth_error _ k). rewrite nth_error_map, Hk. simpl.
        rewrite Hc. reflexivity. }
      rewrite Hne. cbn [andb]. destruct (niter <=? max_iter)%Z.
      * apply IH. rewrite nth_error_map, Hk. reflexivity.
      * simpl. eauto.
    + exists c. split; [| split].
      * apply newton_loop_settled; assumption.
      * cbn [newton_loop map]. rewrite nonempty_singleton, Hc. reflexivity.
      * congruence.
Qed.

Lemma newton_solver_length (manom ecc : list R) (tolerance : R) (max_iter : Z) :
  length (_newton_solver manom ecc tolerance max_iter)
  = Nat.min (length manom) (length ecc).
Proof.
  unfold _newton_solver.
  pose proof (newton_loop_length tolerance max_iter (Z.to_nat (max_iter + 1)) 0%Z
                (map (fun me => newton_start (fst me) (snd me))
                     (combine manom ecc))) as Hl.
  destruct (newton_loop tolerance max_iter (Z.to_nat (max_iter + 1)) 0
              (map (fun me => newton_start (fst me) (snd me)) (combine manom ecc)))
    as [cells niter].
  simpl in Hl. rewrite length_map, length_combine in Hl.
  destruct (niter >=? max_iter)%Z;
    rewrite ?scatter_length, length_map; exact Hl.
Qed.

(** What [_newton_solver] returns at a position, from the state of that
    position when the loop stops. *)
Lemma newton_solver_from_cell (manom ecc : list R) (tolerance : R) (max_iter : Z)
    (k : nat) (m e : R) :
  nth_error manom k = Some m ->
  nth_error ecc k = Some e ->
  exists c' niter,
    nth_error (fst (newton_loop tolerance max_iter (Z.to_nat (max_iter + 1)) 0%Z
                      (map (fun me => newton_start (fst me) (snd me))
                           (combine manom ecc)))) k = Some c' /\
    niter = snd (newton_loop tolerance max_iter (Z.to_nat (max_iter + 1)) 0%Z
                   (map (fun me => newton_start (fst me) (snd me))
                        (combine manom ecc))) /\
    nth_error (_newton_solver manom ecc tolerance max_iter) k
    = Some (if (niter >=? max_iter)%Z && in_ind tolerance c'
            then mikkola_wrapped m e else c_eanom c').
Proof.
  intros Hm He. unfold _newton_solver.
  destruct (newton_loop_inputs tolerance max_iter (Z.to_nat (max_iter + 1)) 0%Z
              (map (fun me => newton_start (fst me) (snd me)) (combine manom ecc))
              k (newton_start m e)) as (c' & Hc' & _ & _).
  { rewrite nth_error_map, (nth_error_combine _ _ _ _ _ Hm He). reflexivity. }
  destruct (newton_loop tolerance max_iter (Z.to_nat (max_iter + 1)) 0
              (map (fun me => newton_start (fst me) (snd me)) (combine manom ecc)))
    as [cells niter].
  simpl in Hc'. exists c', niter. split; [exact Hc' |]. split; [reflexivity |].
  cbn [snd].
  assert (Hea : nth_error (map c_eanom cells) k = Some (c_eanom c'))
    by (rewrite nth_error_map, Hc'; reflexivity).
  destruct (niter >=? max_iter)%Z; cbn [andb]; [| exact Hea].
  destruct (in_ind tolerance c') eqn:Hin.
  - eapply scatter_nth_error_true; [| exact Hea |].
    + rewrite nth_error_map, Hc'. simpl. rewrite Hin. reflexivity.
    + apply mikkola_solver_wrapper_nth_error; apply select_nth_error;
        try assumption;
        rewrite nth_error_map, Hc'; simpl; rewrite Hin; reflexivity.
  - rewrite scatter_nth_error_false; [exact Hea |].
    rewrite nth_error_map, Hc'. simpl. rewrite Hin. reflexivity.
Qed.

Lemma newton_solver_cell (manom ecc : list R) (tolerance : R) (max_iter : Z)
    (k : nat) (m e : R) :
  nth_error manom k = Some m ->
  nth_error ecc k = Some e ->
  nth_error (_newton_solver manom ecc tolerance max_iter) k
  = nth_error (_newton_solver [m] [e] tolerance max_iter) 0.
Proof.
  intros Hm He.
  destruct (newton_solver_from_cell manom ecc tolerance max_iter k m e Hm He)
    as (c1 & n1 & Hc1 & Hn1 & ->).
  destruct (newton_solver_from_cell [m] [e] tolerance max_iter 0 m e
              eq_refl eq_refl) as (c2 & n2 & Hc2 & Hn2 & ->).
  cbn [combine map fst snd] in Hc2, Hn2.
  destruct (newton_loop_single tolerance max_iter (Z.to_nat (max_iter + 1)) 0%Z
              (map (fun me => newton_start (fst me) (snd me)) (combine manom ecc))
              k (newton_start m e)) as (c' & Hc' & Hs & Hn).
  { rewrite nth_error_map, (nth_error_combine _ _ _ _ _ Hm He). reflexivity. }
  rewrite Hc1 in Hc'. injection Hc' as <-.
  rewrite Hs in Hc2. simpl in Hc2. injection Hc2 as <-.
  destruct (in_ind tolerance c1) eqn:Hin.
  - rewrite Hn1, Hn2, (Hn eq_refl). reflexivity.
  - rewrite !andb_false_r. reflexivity.
Qed.

(** X3: [_newton_solver] treats the cells of a batch independently.  The
    value it returns at a position is the value it returns for that
    mean anomaly and eccentricity alone, whatever the other cells are and
    however long they keep the loop running; the array returned has one
    cell per input cell. *)
Theorem newton_solver_cellwise
    (manom ecc : list R) (tolerance : R) (max_iter : Z) (k : nat) (m e : R) :
  length manom = length ecc ->
  nth_error manom k = Some m ->
  nth_error ecc k = Some e ->
  length (_newton_solver manom ecc tolerance max_iter) = length manom /\
  nth_error (_newton_solver manom ecc tolerance max_iter) k
  = nth_error (_newton_solver [m] [e] tolerance max_iter) 0.
Proof.
  intros Hlen Hm He. split.
  - rewrite newton_solver_length, Hlen. apply Nat.min_id.
  - apply newton_solver_cell; assumption.
Qed.

Lemma newton_solver_cellwise_witness :
  length [1; 2; 3] = length [1 / 10; 5 / 10; 9 / 10] /\
  length (_newton_solver [1; 2; 3] [1 / 10; 5 / 10; 9 / 10]
            default_tolerance default_max_iter) = 3%nat /\
  nth_error (_newton_solver [1; 2; 3] [1 / 10; 5 / 10; 9 / 10]
               default_tolerance default_max_iter) 1
  = nth_error (_newton_solver [2] [5 / 10] default_tolerance default_max_iter) 0.
Proof.
  split; [reflexivity |].
  apply (newton_solver_cellwise [1; 2; 3] [1 / 10; 5 / 10; 9 / 10]
           default_tolerance default_max_iter 1 2 (5 / 10));
    reflexivity.
Defined.
End NewtonCellwise.


(** ** kepler.py: what the solver returns, regime by regime *)

Section SolverRegimes.
Import Kepler.
Open Scope R_scope.

(** Every position keeps [diff] and [abs_diff] in step with its [eanom]. *)
Lemma newton_loop_consistent (tolerance : R) (max_iter : Z) (fuel : nat) :
  forall niter cells k c,
    nth_error cells k = Some c ->
    c_diff c = correction (c_manom c) (c_ecc c) (c_eanom c) ->
    c_abs_diff c = Rabs (c_diff c) ->
    exists c',
      nth_error (fst (newton_loop tolerance max_iter fuel niter cells)) k = Some c' /\
      c_manom c' = c_manom c /\ c_ecc c' = c_ecc c /\
      c_diff c' = correction (c_manom c') (c_ecc c') (c_eanom c') /\
      c_abs_diff c' = Rabs (c_diff c').
Proof.
  induction fuel as [| fuel IH]; intros niter cells k c Hk Hd Ha; simpl.
  - exists c. auto.
  - destruct (nonempty (map (in_ind tolerance) cells) && (niter <=? max_iter)%Z);
      [| exists c; auto].
    destruct (IH (niter + 1)%Z (map (newton_iterate tolerance) cells) k
                (newton_iterate tolerance c)) as (c' & Hc' & Hm & He & Hd' & Ha').
    + rewrite nth_error_map, Hk. reflexivity.
    + unfold newton_iterate. destruct (in_ind tolerance c); [reflexivity | exact Hd].
    + unfold newton_iterate. destruct (in_ind tolerance c); [reflexivity | exact Ha].
    + exists c'. split; [exact Hc' |].
      split; [rewrite Hm; unfold newton_iterate;
              destruct (in_ind tolerance c); reflexivity |].
      split; [rewrite He; unfold newton_iterate;
              destruct (in_ind tolerance c); reflexivity |].
      split; assumption.
Qed.

Lemma kepler_residual (m e E tolerance : R) :
  0 <= e < 1 ->
  Rabs (correction m e E) <= tolerance ->
  Rabs (E - e * sin E - m) <= tolerance * (1 + e).
Proof.
  intros [He0 He1] H. unfold correction in H.
  pose proof (COS_bound E) as [Hc1 Hc2].
  remember (1 - e * cos E) as d eqn:Hd.
  remember (E - e * sin E - m) as f eqn:Hf.
  assert (Hd0 : 0 < d) by (subst d; nra).
  assert (Hd1 : d <= 1 + e) by (subst d; nra).
  assert (Hq : f = f / d * d) by (field; lra).
  rewrite Hq, Rabs_mult, (Rabs_pos_eq d) by lra.
  pose proof (Rabs_pos (f / d)). nra.
Qed.

(** A cell returned by [_newton_solver] either meets the tolerance or is
    the value of the Mikkola wrapper. *)
Lemma newton_solver_residual (manom ecc : list R) (tolerance : R) (max_iter : Z)
    (k : nat) (m e : R) :
  nth_error manom k = Some m ->
  nth_error ecc k = Some e ->
  exists E,
    nth_error (_newton_solver manom ecc tolerance max_iter) k = Some E /\
    (Rabs (correction m e E) <= tolerance \/ E = mikkola_wrapped m e).
Proof.
  intros Hm He.
  destruct (newton_solver_from_cell manom ecc tolerance max_iter k m e Hm He)
    as (c' & niter & Hc' & Hn & Hout).
  rewrite Hout. eexists. split; [reflexivity |].
  destruct (in_ind tolerance c') eqn:Hin.
  - right.
    pose proof (newton_loop_exit tolerance max_iter (Z.to_nat (max_iter + 1)) 0%Z
                  (map (fun me => newton_start (fst me) (snd me)) (combine manom ecc))
                  ltac:(lia)) as Hexit.
    cbv zeta in Hexit. rewrite <- Hn in Hexit.
    assert (Hind : nonempty
                     (map (in_ind tolerance)
                        (fst (newton_loop tolerance max_iter
                                (Z.to_nat (max_iter + 1)) 0%Z
                                (map (fun me => newton_start (fst me) (snd me))
                                     (combine manom ecc))))) = true).
    { apply (nonempty_nth_error _ k). rewrite nth_error_map, Hc'. simpl.
      rewrite Hin. reflexivity. }
    rewrite Hind in Hexit. simpl in Hexit. apply Z.leb_gt in Hexit.
    assert (Hge : (niter >=? max_iter)%Z = true) by (apply Z.geb_le; lia).
    rewrite Hge. reflexivity.
  - left. rewrite andb_false_r.
    destruct (newton_loop_consistent tolerance max_iter (Z.to_nat (max_iter + 1))
                0%Z (map (fun me => newton_start (fst me) (snd me))
                         (combine manom ecc)) k (newton_start m e))
      as (c2 & Hc2 & Hm2 & He2 & Hd2 & Ha2).
    + rewrite nth_error_map, (nth_error_combine _ _ _ _ _ Hm He). reflexivity.
    + reflexivity.
    + reflexivity.
    + rewrite Hc' in Hc2. injection Hc2 as <-.
      simpl in Hm2, He2. rewrite Hm2, He2 in Hd2. rewrite <- Hd2, <- Ha2.
      unfold in_ind, gtb in Hin.
      destruct (Rgt_dec (c_abs_diff c') tolerance); [discriminate | lra].
Qed.

Lemma newton_solver_single (m e : R) (tolerance : R) (max_iter : Z) :
  exists x, _newton_solver [m] [e] tolerance max_iter = [x].
Proof.
  pose proof (newton_solver_length [m] [e] tolerance max_iter) as Hl.
  destruct (_newton_solver [m] [e] tolerance max_iter) as [| x [| y l]];
    simpl in Hl; try discriminate.
  exists x. reflexivity.
Qed.

Lemma geb_ltb (x y : R) : geb x y = negb (ltb x y).
Proof.
  unfold geb, ltb. destruct (Rge_dec x y), (Rlt_dec x y); simpl;
    try reflexivity; lra.
Qed.

(** The cell of [_calc_ecc_anom] at a position: Newton's value for that
    cell alone below 0.95, the Mikkola wrapper's value from 0.95 on. *)
Lemma calc_ecc_anom_nth
    (manom ecc : list R) (tolerance : R) (max_iter : Z) (i : nat) (m e : R) :
  nth_error manom i = Some m ->
  nth_error ecc i = Some e ->
  nth_error (_calc_ecc_anom manom ecc tolerance max_iter) i
  = Some (if ltb e (95 / 100)
          then nth_error (_newton_solver [m] [e] tolerance max_iter) 0
          else Some (mikkola_wrapped m e)).
Proof.
  intros Hm He. unfold _calc_ecc_anom.
  assert (Hi : (i < length manom)%nat)
    by (apply nth_error_Some; rewrite Hm; discriminate).
  set (ind_zero := map (fun e => eqb e 0) ecc).
  set (ind_low := map (fun e => ltb e (95 / 100)) ecc).
  set (ind_high := map (fun e => geb e (95 / 100)) ecc).
  set (eanom0 := repeat None (length manom)).
  set (eanom1 := if nonempty ind_zero
                 then scatter ind_zero (map Some (select ind_zero manom)) eanom0
                 else eanom0).
  assert (H1 : exists a, nth_error eanom1 i = Some a).
  { apply nth_error_defined. unfold eanom1, eanom0.
    destruct (nonempty ind_zero);
      [rewrite scatter_length |]; rewrite repeat_length; exact Hi. }
  destruct H1 as [a1 H1].
  assert (Hlow : nth_error ind_low i = Some (ltb e (95 / 100)))
    by (unfold ind_low; rewrite nth_error_map, He; reflexivity).
  assert (Hhigh : nth_error ind_high i = Some (negb (ltb e (95 / 100))))
    by (unfold ind_high; rewrite nth_error_map, He; simpl; rewrite geb_ltb;
        reflexivity).
  destruct (ltb e (95 / 100)) eqn:Hl; cbn [negb] in Hhigh.
  - rewrite (nonempty_nth_error _ _ Hlow).
    set (eanom2 := scatter ind_low _ eanom1).
    assert (H2 : nth_error eanom2 i
                 = Some (nth_error (_newton_solver [m] [e] tolerance max_iter) 0)).
    { unfold eanom2. eapply scatter_nth_error_true; [exact Hlow | exact H1 |].
      rewrite nth_error_map.
      rewrite (newton_solver_cell _ _ tolerance max_iter (rank ind_low i) m e)
        by (apply select_nth_error; assumption).
      destruct (newton_solver_single m e tolerance max_iter) as [x ->].
      reflexivity. }
    destruct (nonempty ind_high); [| exact H2].
    rewrite scatter_nth_error_false by exact Hhigh. exact H2.
  - set (eanom2 := if nonempty ind_low then _ else eanom1).
    assert (H2 : exists a, nth_error eanom2 i = Some a).
    { apply nth_error_defined.
      replace (length eanom2) with (length eanom1).
      - apply nth_error_Some. rewrite H1. discriminate.
      - unfold eanom2. destruct (nonempty ind_low);
          [rewrite scatter_length |]; reflexivity. }
    destruct H2 as [a2 H2].
    rewrite (nonempty_nth_error _ _ Hhigh).
    eapply scatter_nth_error_true; [exact Hhigh | exact H2 |].
    rewrite nth_error_map.
    rewrite (mikkola_solver_wrapper_nth_error _ _ (rank ind_high i) m e)
      by (apply select_nth_error; assumption).
    reflexivity.
Qed.
End SolverRegimes.


(** ** kepler.py: the contract of _calc_ecc_anom *)

Section SolverContract.
Import Kepler.
Open Scope R_scope.

(** X4: in the Newton regime ([0 <= e < 0.95]) the eccentric anomaly [E]
    that [_calc_ecc_anom] returns for a cell solves Kepler's equation
    [E - e sin E = M] up to [tolerance * (1 + e)], unless the cell was
    handed to the Mikkola wrapper, whose value it then is. *)
Theorem calc_ecc_anom_kepler_residual
    (manom ecc : list R) (tolerance : R) (max_iter : Z) (i : nat) (m e : R) :
  length manom = length ecc ->
  nth_error manom i = Some m ->
  nth_error ecc i = Some e ->
  0 <= e < 95 / 100 ->
  exists E,
    nth_error (_calc_ecc_anom manom ecc tolerance max_iter) i = Some (Some E) /\
    (Rabs (E - e * sin E - m) <= tolerance * (1 + e) \/
     E = mikkola_wrapped m e).
Proof.
  intros _ Hm He [He0 He1].
  rewrite (calc_ecc_anom_nth manom ecc tolerance max_iter i m e Hm He).
  rewrite ltb_true by exact He1.
  destruct (newton_solver_residual [m] [e] tolerance max_iter 0 m e
              eq_refl eq_refl) as (E & -> & HE).
  exists E. split; [reflexivity |].
  destruct HE as [HE | HE]; [left | right; exact HE].
  apply kepler_residual; [lra | exact HE].
Qed.

Lemma calc_ecc_anom_kepler_residual_witness :
  length [1; 2] = length [1 / 10; 1 / 2] /\
  0 <= 1 / 2 < 95 / 100 /\
  exists E,
    nth_error (_calc_ecc_anom [1; 2] [1 / 10; 1 / 2]
                 default_tolerance default_max_iter) 1 = Some (Some E) /\
    (Rabs (E - 1 / 2 * sin E - 2) <= default_tolerance * (1 + 1 / 2) \/
     E = mikkola_wrapped 2 (1 / 2)).
Proof.
  split; [reflexivity |]. split; [lra |].
  apply (calc_ecc_anom_kepler_residual [1; 2] [1 / 10; 1 / 2]
           default_tolerance default_max_iter 1 2 (1 / 2)).
  - reflexivity.
  - reflexivity.
  - reflexivity.
  - lra.
Defined.

(** X5: from eccentricity 0.95 on, the cell that [_calc_ecc_anom] returns
    is the value of the Mikkola wrapper for that cell, whatever
    [tolerance] and [max_iter] are: no iteration is involved. *)
Theorem calc_ecc_anom_high_ecc
    (manom ecc : list R) (tolerance : R) (max_iter : Z) (i : nat) (m e : R) :
  length manom = length ecc ->
  nth_error manom i = Some m ->
  nth_error ecc i = Some e ->
  95 / 100 <= e ->
  nth_error (_calc_ecc_anom manom ecc tolerance max_iter) i
  = Some (Some (mikkola_wrapped m e)).
Proof.
  intros _ Hm He Hhigh.
  rewrite (calc_ecc_anom_nth manom ecc tolerance max_iter i m e Hm He).
  unfold ltb. destruct (Rlt_dec e (95 / 100)); [lra | reflexivity].
Qed.

Lemma calc_ecc_anom_high_ecc_witness :
  length [1; 4] = length [1 / 2; 96 / 100] /\
  95 / 100 <= 96 / 100 /\
  nth_error (_calc_ecc_anom [1; 4] [1 / 2; 96 / 100]
               default_tolerance default_max_iter) 1
  = Some (Some (mikkola_wrapped 4 (96 / 100))).
Proof.
  split; [reflexivity |]. split; [lra |].
  apply (calc_ecc_anom_high_ecc [1; 4] [1 / 2; 96 / 100]
           default_tolerance default_max_iter 1 4 (96 / 100)).
  - reflexivity.
  - reflexivity.
  - reflexivity.
  - lra.
Defined.

(** X6: [_calc_ecc_anom] is vectorised cell by cell.  The cell it returns
    at a position of a batch is the cell it returns for that mean anomaly
    and eccentricity passed alone, in every regime. *)
Theorem calc_ecc_anom_cellwise
    (manom ecc : list R) (tolerance : R) (max_iter : Z) (i : nat) (m e : R) :
  length manom = length ecc ->
  nth_error manom i = Some m ->
  nth_error ecc i = Some e ->
  nth_error (_calc_ecc_anom manom ecc tolerance max_iter) i
  = nth_error (_calc_ecc_anom [m] [e] tolerance max_iter) 0.
Proof.
  intros _ Hm He.
  rewrite (calc_ecc_anom_nth manom ecc tolerance max_iter i m e Hm He).
  rewrite (calc_ecc_anom_nth [m] [e] tolerance max_iter 0 m e eq_refl eq_refl).
  reflexivity.
Qed.

Lemma calc_ecc_anom_cellwise_witness :
  length [1; 4; 2] = length [1 / 2; 96 / 100; 0] /\
  nth_error (_calc_ecc_anom [1; 4; 2] [1 / 2; 96 / 100; 0]
               default_tolerance default_max_iter) 0
  = nth_error (_calc_ecc_anom [1] [1 / 2] default_tolerance default_max_iter) 0.
Proof.
  split; [reflexivity |].
  apply (calc_ecc_anom_cellwise [1; 4; 2] [1 / 2; 96 / 100; 0]
           default_tolerance default_max_iter 0 1 (1 / 2));
    reflexivity.
Defined.

(** X7: for arrays of equal length, [_calc_ecc_anom] returns one cell per
    input cell and none of them keeps the [np.nan] it was created with:
    every eccentricity is below 0.95 or not, so one of the two solvers
    stores a value there. *)
Theorem calc_ecc_anom_no_nan
    (manom ecc : list R) (tolerance : R) (max_iter : Z) :
  length manom = length ecc ->
  length (_calc_ecc_anom manom ecc tolerance max_iter) = length manom /\
  Forall (fun cell => cell <> None)
    (_calc_ecc_anom manom ecc tolerance max_iter).
Proof.
  intros Hlen. split; [apply calc_ecc_anom_length |].
  apply Forall_forall. intros cell Hin.
  apply In_nth_error in Hin as [i Hi].
  assert (Hlt : (i < length manom)%nat).
  { rewrite <- (calc_ecc_anom_length manom ecc tolerance max_iter).
    apply nth_error_Some. rewrite Hi. discriminate. }
  destruct (nth_error_defined manom i Hlt) as [m Hm].
  destruct (nth_error_defined ecc i ltac:(rewrite <- Hlen; exact Hlt)) as [e He].
  rewrite (calc_ecc_anom_nth manom ecc tolerance max_iter i m e Hm He) in Hi.
  injection Hi as <-.
  destruct (newton_solver_single m e tolerance max_iter) as [x ->].
  destruct (ltb e (95 / 100)); discriminate.
Qed.

Lemma calc_ecc_anom_no_nan_witness :
  length [1; 4; 2] = length [1 / 2; 96 / 100; 0] /\
  length (_calc_ecc_anom [1; 4; 2] [1 / 2; 96 / 100; 0]
            default_tolerance default_max_iter) = 3%nat /\
  Forall (fun cell => cell <> None)
    (_calc_ecc_anom [1; 4; 2] [1 / 2; 96 / 100; 0]
       default_tolerance default_max_iter).
Proof.
  split; [reflexivity |].
  apply (calc_ecc_anom_no_nan [1; 4; 2] [1 / 2; 96 / 100; 0]
           default_tolerance default_max_iter).
  reflexivity.
Defined.

(** X8: a scalar eccentricity is reshaped to an array of one cell, and
    the index arrays of [np.where] are then taken over that one cell.
    With an array of several mean anomalies only the first cell is
    solved: every other cell of the result is the [np.nan] filler. *)
Theorem calc_ecc_anom_scalar_ecc
    (m0 : R) (rest : list R) (e : R) (tolerance : R) (max_iter : Z) :
  _calc_ecc_anom (m0 :: rest) [e] tolerance max_iter
  = _calc_ecc_anom [m0] [e] tolerance max_iter ++ repeat None (length rest) /\
  length (_calc_ecc_anom [m0] [e] tolerance max_iter) = 1%nat.
Proof.
  split; [| apply calc_ecc_anom_length].
  unfold _calc_ecc_anom. cbn [map length repeat].
  rewrite !nonempty_singleton.
  destruct (newton_solver_single m0 e tolerance max_iter) as [x Hx].
  rewrite !mikkola_solver_wrapper_cells.
  destruct (eqb e 0), (ltb e (95 / 100)), (geb e (95 / 100));
    cbn [select scatter map app combine fst snd];
    rewrite ?Hx; reflexivity.
Qed.
End SolverContract.


(** ** kepler.py: calc_orbit, cell by cell *)

Section OrbitCells.
Import Kepler.
Import Orbit.
Open Scope nat_scope.

Lemma length_tile_transposed (x : list R) (n_dates : nat) :
  length (tile_transposed x n_dates) = length x * n_dates.
Proof.
  unfold tile_transposed. induction x as [| a x IH]; simpl; [reflexivity |].
  rewrite length_app, repeat_length, IH. reflexivity.
Qed.

Lemma nth_tile_transposed (x : list R) (n_dates : nat) :
  forall i j d,
    j < n_dates ->
    nth (i * n_dates + j) (tile_transposed x n_dates) d = nth i x d.
Proof.
  unfold tile_transposed.
  induction x as [| a x IH]; intros i j d Hj; simpl.
  - destruct (i * n_dates + j), i; reflexivity.
  - destruct i as [| i]; simpl.
    + rewrite app_nth1 by (rewrite repeat_length; exact Hj).
      apply nth_error_nth, nth_error_repeat. exact Hj.
    + rewrite app_nth2 by (rewrite repeat_length; lia).
      rewrite repeat_length.
      replace (n_dates + i * n_dates + j - n_dates) with (i * n_dates + j) by lia.
      apply IH. exact Hj.
Qed.

Lemma nth_tile (x : list R) (n_orbs : nat) :
  forall i j d,
    i < n_orbs ->
    j < length x ->
    nth (i * length x + j) (tile x n_orbs) d = nth j x d.
Proof.
  unfold tile.
  induction n_orbs as [| n IH]; intros i j d Hi Hj; [lia |].
  simpl. destruct i as [| i]; simpl.
  - apply app_nth1. exact Hj.
  - rewrite app_nth2 by lia.
    replace (length x + i * length x + j - length x) with (i * length x + j) by lia.
    apply IH; [lia | exact Hj].
Qed.

(** The cell [(i, j)] of the three arrays: computed from the elements of
    orbit [i] and from epoch [j], at the eccentric anomaly that
    [_calc_ecc_anom] gives for that cell alone. *)
Lemma calc_orbit_nth
    (epochs sma ecc tau argp lan inc plx mtot : list R) (mass : R) (i j : nat) :
  i < length sma ->
  j < length epochs ->
  let c := {| Orbit.epochs := nth j epochs 0%R; Orbit.sma := nth i sma 0%R;
              Orbit.ecc := nth i ecc 0%R; Orbit.tau := nth i tau 0%R;
              Orbit.argp := nth i argp 0%R; Orbit.lan := nth i lan 0%R;
              Orbit.inc := nth i inc 0%R; Orbit.plx := nth i plx 0%R;
              Orbit.mtot := nth i mtot 0%R |} in
  let r := calc_orbit epochs sma ecc tau argp lan inc plx mtot mass in
  let k := i * length epochs + j in
  exists E : option R,
    nth_error (_calc_ecc_anom [manom c] [Orbit.ecc c]
                 default_tolerance default_max_iter) 0 = Some E /\
    nth_error (o_cells (fst (fst r))) k = Some (option_map (raoff c) E) /\
    nth_error (o_cells (snd (fst r))) k = Some (option_map (deoff c) E) /\
    nth_error (o_cells (snd r)) k = Some (option_map (vz c mass) E).
Proof.
  intros Hi Hj c r k. unfold r, calc_orbit. cbn [fst snd o_cells].
  set (cells := map _ (seq 0 (length sma * length epochs))).
  assert (Hk : k < length sma * length epochs) by (unfold k; nia).
  assert (Hc : nth_error cells k = Some c).
  { unfold cells. rewrite nth_error_map, nth_error_seq.
    apply Nat.ltb_lt in Hk. rewrite Hk. cbn [option_map Nat.add].
    unfold c, k. rewrite !nth_tile_transposed by exact Hj.
    rewrite nth_tile by assumption. reflexivity. }
  assert (He : nth_error (_calc_ecc_anom (map manom cells) (map Orbit.ecc cells)
                            default_tolerance default_max_iter) k
               = nth_error (_calc_ecc_anom [manom c] [Orbit.ecc c]
                              default_tolerance default_max_iter) 0).
  { rewrite (calc_ecc_anom_nth _ _ _ _ k (manom c) (Orbit.ecc c))
      by (rewrite nth_error_map, Hc; reflexivity).
    rewrite (calc_ecc_anom_nth [manom c] [Orbit.ecc c] _ _ 0 (manom c)
               (Orbit.ecc c) eq_refl eq_refl).
    reflexivity. }
  destruct (nth_error_defined
              (_calc_ecc_anom [manom c] [Orbit.ecc c]
                 default_tolerance default_max_iter) 0) as [E HE].
  { rewrite calc_ecc_anom_length. simpl. lia. }
  exists E. split; [exact HE |]. rewrite HE in He.
  rewrite !nth_error_map, (nth_error_combine _ _ _ _ _ Hc He).
  repeat split.
Qed.

(** X9: [calc_orbit] is vectorised cell by cell.  For parameter arrays of
    [N] cells each and [T] epochs, the cell at row [i] and column [j] of
    each returned array (cell [i * T + j] in row-major order) is the one
    cell that [calc_orbit] returns for orbit [i] alone at epoch [j]
    alone. *)
Theorem calc_orbit_cellwise
    (epochs sma ecc tau argp lan inc plx mtot : list R) (mass : R) (i j : nat) :
  Forall (fun x => length x = length sma) [ecc; tau; argp; lan; inc; plx; mtot] ->
  i < length sma ->
  j < length epochs ->
  let r := calc_orbit epochs sma ecc tau argp lan inc plx mtot mass in
  let one :=
    calc_orbit [nth j epochs 0%R] [nth i sma 0%R] [nth i ecc 0%R]
      [nth i tau 0%R] [nth i argp 0%R] [nth i lan 0%R] [nth i inc 0%R]
      [nth i plx 0%R] [nth i mtot 0%R] mass in
  let k := i * length epochs + j in
  nth_error (o_cells (fst (fst r))) k = nth_error (o_cells (fst (fst one))) 0 /\
  nth_error (o_cells (snd (fst r))) k = nth_error (o_cells (snd (fst one))) 0 /\
  nth_error (o_cells (snd r)) k = nth_error (o_cells (snd one)) 0.
Proof.
  intros _ Hi Hj r one k.
  destruct (calc_orbit_nth epochs sma ecc tau argp lan inc plx mtot mass i j
              Hi Hj) as (E & HE & Hra & Hde & Hvz).
  destruct (calc_orbit_nth [nth j epochs 0%R] [nth i sma 0%R] [nth i ecc 0%R]
              [nth i tau 0%R] [nth i argp 0%R] [nth i lan 0%R] [nth i inc 0%R]
              [nth i plx 0%R] [nth i mtot 0%R] mass 0 0
              ltac:(simpl; lia) ltac:(simpl; lia))
    as (E1 & HE1 & Hra1 & Hde1 & Hvz1).
  cbn [nth length Nat.mul Nat.add] in HE1, Hra1, Hde1, Hvz1.
  rewrite HE in HE1. injection HE1 as <-.
  unfold r, one, k. rewrite Hra, Hde, Hvz, Hra1, Hde1, Hvz1.
  repeat split.
Qed.

Lemma calc_orbit_cellwise_witness :
  let epochs := [0%R; 10%R; 20%R] in
  let sma := [1%R; 2%R] in
  let ecc := [0%R; (1 / 2)%R] in
  let zeros := [0%R; 0%R] in
  let ones := [1%R; 1%R] in
  let r := calc_orbit epochs sma ecc zeros zeros zeros zeros ones ones 0%R in
  let one :=
    calc_orbit [20%R] [2%R] [(1 / 2)%R] [0%R] [0%R] [0%R] [0%R] [1%R] [1%R] 0%R in
  Forall (fun x => length x = length sma) [ecc; zeros; zeros; zeros; zeros; ones; ones] /\
  nth_error (o_cells (fst (fst r))) 5 = nth_error (o_cells (fst (fst one))) 0 /\
  nth_error (o_cells (snd (fst r))) 5 = nth_error (o_cells (snd (fst one))) 0 /\
  nth_error (o_cells (snd r)) 5 = nth_error (o_cells (snd one)) 0.
Proof.
  intros epochs sma ecc zeros ones r one.
  assert (Hl : Forall (fun x => length x = length sma)
                 [ecc; zeros; zeros; zeros; zeros; ones; ones])
    by (repeat constructor).
  split; [exact Hl |].
  apply (calc_orbit_cellwise epochs sma ecc zeros zeros zeros zeros ones ones
           0%R 1 2 Hl).
  - simpl. lia.
  - simpl. lia.
Defined.
End OrbitCells.


(** ** kepler.py: calc_orbit is periodic *)

Section OrbitPeriodicity.
Import Kepler.
Import Orbit.
Open Scope nat_scope.

Lemma offsets_eq (x y : offsets) :
  o_shape x = o_shape y -> o_cells x = o_cells y -> x = y.
Proof. destruct x, y. simpl. intros -> ->. reflexivity. Qed.

Section TwoCalls.
Variables epochsA smaA eccA tauA argpA lanA incA plxA mtotA : list R.
Variables epochsB smaB eccB tauB argpB lanB incB plxB mtotB : list R.
Variable mass : R.

(** Two calls on as many orbits and epochs return the same arrays as soon
    as, cell by cell, the mean anomaly and the eccentricity agree and the
    offsets and the velocity agree as functions of the eccentric anomaly. *)
Lemma calc_orbit_eq :
  length smaA = length smaB ->
  length epochsA = length epochsB ->
  (forall i j,
      i < length smaA ->
      j < length epochsA ->
      let cA := {| Orbit.epochs := nth j epochsA 0%R; Orbit.sma := nth i smaA 0%R;
                   Orbit.ecc := nth i eccA 0%R; Orbit.tau := nth i tauA 0%R;
                   Orbit.argp := nth i argpA 0%R; Orbit.lan := nth i lanA 0%R;
                   Orbit.inc := nth i incA 0%R; Orbit.plx := nth i plxA 0%R;
                   Orbit.mtot := nth i mtotA 0%R |} in
      let cB := {| Orbit.epochs := nth j epochsB 0%R; Orbit.sma := nth i smaB 0%R;
                   Orbit.ecc := nth i eccB 0%R; Orbit.tau := nth i tauB 0%R;
                   Orbit.argp := nth i argpB 0%R; Orbit.lan := nth i lanB 0%R;
                   Orbit.inc := nth i incB 0%R; Orbit.plx := nth i plxB 0%R;
                   Orbit.mtot := nth i mtotB 0%R |} in
      manom cA = manom cB /\ Orbit.ecc cA = Orbit.ecc cB /\
      forall E, raoff cA E = raoff cB E /\ deoff cA E = deoff cB E /\
                vz cA mass E = vz cB mass E) ->
  calc_orbit epochsA smaA eccA tauA argpA lanA incA plxA mtotA mass
  = calc_orbit epochsB smaB eccB tauB argpB lanB incB plxB mtotB mass.
Proof.
  intros Hn Ht Hcells.
  pose proof (calc_orbit_shapes epochsA smaA eccA tauA argpA lanA incA plxA mtotA
                mass) as (SA1 & SA2 & SA3).
  pose proof (calc_orbit_shapes epochsB smaB eccB tauB argpB lanB incB plxB mtotB
                mass) as (SB1 & SB2 & SB3).
  pose proof (calc_orbit_cells epochsA smaA eccA tauA argpA lanA incA plxA mtotA
                mass) as (LA1 & LA2 & LA3).
  pose proof (calc_orbit_cells epochsB smaB eccB tauB argpB lanB incB plxB mtotB
                mass) as (LB1 & LB2 & LB3).
  cbv zeta in SA1, SA2, SA3, SB1, SB2, SB3, LA1, LA2, LA3, LB1, LB2, LB3.
  assert (Hall : forall n,
             nth_error (o_cells (fst (fst (calc_orbit epochsA smaA eccA tauA argpA
                                             lanA incA plxA mtotA mass)))) n
             = nth_error (o_cells (fst (fst (calc_orbit epochsB smaB eccB tauB argpB
                                               lanB incB plxB mtotB mass)))) n /\
             nth_error (o_cells (snd (fst (calc_orbit epochsA smaA eccA tauA argpA
                                             lanA incA plxA mtotA mass)))) n
             = nth_error (o_cells (snd (fst (calc_orbit epochsB smaB eccB tauB argpB
                                               lanB incB plxB mtotB mass)))) n /\
             nth_error (o_cells (snd (calc_orbit epochsA smaA eccA tauA argpA
                                        lanA incA plxA mtotA mass))) n
             = nth_error (o_cells (snd (calc_orbit epochsB smaB eccB tauB argpB
                                          lanB incB plxB mtotB mass))) n).
  { intros n.
    destruct (Nat.lt_ge_cases n (length smaA * length epochsA)) as [Hlt | Hge].
    - assert (HT : length epochsA <> 0) by nia.
      pose proof (Nat.div_mod n (length epochsA) HT) as Hdm.
      pose proof (Nat.mod_upper_bound n (length epochsA) HT) as Hj.
      assert (Hi : n / length epochsA < length smaA).
      { apply Nat.Div0.div_lt_upper_bound. lia. }
      remember (n / length epochsA) as i eqn:Ei.
      remember (n mod length epochsA) as j eqn:Ej.
      assert (Hk : n = i * length epochsA + j) by lia.
      destruct (calc_orbit_nth epochsA smaA eccA tauA argpA lanA incA plxA mtotA
                  mass i j Hi Hj) as (EA & HEA & RA & DA & VA).
      destruct (calc_orbit_nth epochsB smaB eccB tauB argpB lanB incB plxB mtotB
                  mass i j ltac:(lia) ltac:(lia)) as (EB & HEB & RB & DB & VB).
      destruct (Hcells i j Hi Hj) as (Hm & He & Hf).
      rewrite Hm, He in HEA. rewrite HEA in HEB. injection HEB as <-.
      rewrite <- Ht in RB, DB, VB. rewrite <- Hk in RA, DA, VA, RB, DB, VB.
      rewrite RA, DA, VA, RB, DB, VB.
      destruct EA as [E |]; simpl; [| repeat split].
      destruct (Hf E) as (-> & -> & ->). repeat split.
    - assert (HA : forall l : list (option R),
                 length l = length smaA * length epochsA -> nth_error l n = None)
        by (intros l Hl; apply nth_error_None; lia).
      assert (HB : forall l : list (option R),
                 length l = length smaB * length epochsB -> nth_error l n = None)
        by (intros l Hl; apply nth_error_None; lia).
      rewrite (HA _ LA1), (HA _ LA2), (HA _ LA3), (HB _ LB1), (HB _ LB2),
        (HB _ LB3).
      repeat split. }
  rewrite (surjective_pairing (calc_orbit epochsA smaA eccA tauA argpA lanA incA
                                 plxA mtotA mass)).
  rewrite (surjective_pairing (fst (calc_orbit epochsA smaA eccA tauA argpA lanA
                                      incA plxA mtotA mass))).
  rewrite (surjective_pairing (calc_orbit epochsB smaB eccB tauB argpB lanB incB
                                 plxB mtotB mass)).
  rewrite (surjective_pairing (fst (calc_orbit epochsB smaB eccB tauB argpB lanB
                                      incB plxB mtotB mass))).
  f_equal; [f_equal |]; apply offsets_eq;
    try (rewrite ?SA1, ?SA2, ?SA3, ?SB1, ?SB2, ?SB3, Hn, Ht; reflexivity);
    apply nth_error_ext; intros n; apply (Hall n).
Qed.
End TwoCalls.

Lemma nth_map_in (g : R -> R) (l : list R) (i : nat) :
  i < length l -> nth i (map g l) 0%R = g (nth i l 0%R).
Proof.
  intros Hi. rewrite (nth_indep _ 0%R (g 0%R)) by (rewrite length_map; exact Hi).
  apply map_nth.
Qed.

Lemma period_pos (a m : R) : (0 < a)%R -> (0 < m)%R -> (0 < period a m)%R.
Proof.
  intros Ha Hm. unfold period, G, AU, Msun, day.
  apply Rdiv_lt_0_compat; [| lra].
  apply sqrt_lt_R0. apply Rdiv_lt_0_compat.
  - apply Rmult_lt_0_compat.
    + apply Rmult_lt_0_compat; [lra | apply pow_lt, PI_RGT_0].
    + apply pow_lt. lra.
  - apply Rmult_lt_0_compat.
    + apply Rdiv_lt_0_compat; [lra | apply pow_lt; lra].
    + apply Rmult_lt_0_compat; [exact Hm |].
      apply Rmult_lt_0_compat; [lra | apply pow_lt; lra].
Qed.

(** X10: [tau] counts whole orbits.  Adding an integer to the epoch of
    periastron of every orbit changes none of the three arrays that
    [calc_orbit] returns. *)
Theorem calc_orbit_tau_periodic
    (epochs sma ecc tau argp lan inc plx mtot : list R) (mass : R) (z : Z) :
  length tau = length sma ->
  calc_orbit epochs sma ecc (map (fun t => (t + IZR z)%R) tau) argp lan inc plx
    mtot mass
  = calc_orbit epochs sma ecc tau argp lan inc plx mtot mass.
Proof.
  intros Hlen. apply calc_orbit_eq; [reflexivity | reflexivity |].
  intros i j Hi Hj cA cB. unfold cA, cB.
  rewrite nth_map_in by lia.
  split; [| split; [reflexivity | intros E; repeat split]].
  unfold manom, mean_motion. cbn [Orbit.epochs Orbit.sma Orbit.tau Orbit.mtot].
  match goal with
  | |- fmod ?x _ = fmod ?y _ =>
      replace x with (y + IZR (- z) * (2 * PI))%R by (rewrite opp_IZR; ring)
  end.
  apply fmod_add_multiple. pose proof PI_RGT_0. lra.
Qed.

Lemma calc_orbit_tau_periodic_witness :
  let sma := [1%R; 2%R] in
  let tau := [(1 / 4)%R; (3 / 4)%R] in
  let zeros := [0%R; 0%R] in
  let ones := [1%R; 1%R] in
  length tau = length sma /\
  calc_orbit [0%R; 100%R] sma zeros (map (fun t => (t + IZR 3)%R) tau)
    zeros zeros zeros ones ones 0%R
  = calc_orbit [0%R; 100%R] sma zeros tau zeros zeros zeros ones ones 0%R.
Proof.
  intros sma tau zeros ones. split; [reflexivity |].
  apply (calc_orbit_tau_periodic [0%R; 100%R] sma zeros tau zeros zeros zeros
           ones ones 0%R 3).
  reflexivity.
Defined.

(** X11: an orbit repeats after its period.  For one orbit of positive
    semi-major axis and total mass, moving every epoch by a whole number
    of periods (the period of Kepler's third law, as [calc_orbit]
    computes it) changes none of the three arrays returned. *)
Theorem calc_orbit_epoch_periodic
    (epochs : list R) (a e tau0 argp0 lan0 inc0 plx0 m mass : R) (z : Z) :
  (0 < a)%R ->
  (0 < m)%R ->
  calc_orbit (map (fun t => (t + IZR z * period a m)%R) epochs)
    [a] [e] [tau0] [argp0] [lan0] [inc0] [plx0] [m] mass
  = calc_orbit epochs [a] [e] [tau0] [argp0] [lan0] [inc0] [plx0] [m] mass.
Proof.
  intros Ha Hm. pose proof (period_pos a m Ha Hm) as HP.
  apply calc_orbit_eq; [reflexivity | apply length_map |].
  intros i j Hi Hj cA cB. unfold cA, cB.
  rewrite length_map in Hj. simpl in Hi.
  assert (Hi0 : i = 0) by lia. subst i.
  rewrite nth_map_in by exact Hj. cbn [nth].
  split; [| split; [reflexivity | intros E; repeat split]].
  unfold manom, mean_motion. cbn [Orbit.epochs Orbit.sma Orbit.tau Orbit.mtot].
  match goal with
  | |- fmod ?x _ = fmod ?y _ =>
      replace x with (y + IZR z * (2 * PI))%R by (field; lra)
  end.
  apply fmod_add_multiple. pose proof PI_RGT_0. lra.
Qed.

Lemma calc_orbit_epoch_periodic_witness :
  (0 < 1)%R /\
  calc_orbit (map (fun t => (t + IZR 2 * period 1 1)%R) [0%R; 50%R])
    [1%R] [(1 / 2)%R] [0%R] [0%R] [0%R] [1%R] [10%R] [1%R] 0%R
  = calc_orbit [0%R; 50%R]
      [1%R] [(1 / 2)%R] [0%R] [0%R] [0%R] [1%R] [10%R] [1%R] 0%R.
Proof.
  split; [lra |].
  apply (calc_orbit_epoch_periodic [0%R; 50%R] 1 (1 / 2) 0 0 0 1 10 1 0 2); lra.
Defined.
End OrbitPeriodicity.


(** ** kepler.py: the geometry of the offsets *)

Section OrbitGeometry.
Import Kepler.
Import Orbit.
Open Scope R_scope.

Lemma norm_identity (a b p q U V r k : R) :
  a * a + b * b = 1 ->
  p * p + q * q = 1 ->
  U + V = 1 ->
  (r * (V * (a * q + b * p) - U * (a * q - b * p)) * k) ^ 2
  + (r * (V * (b * q - a * p) + U * (b * q + a * p)) * k) ^ 2
  = (r * k) ^ 2 * (1 - 4 * U * V * (a * a)).
Proof.
  intros Ha Hp HU.
  assert (HV : V = 1 - U) by lra. subst V.
  transitivity ((r * k) ^ 2
                * (((1 - 2 * U) ^ 2 * (a * a) + b * b) * (p * p + q * q)));
    [ring |].
  rewrite Hp. replace (b * b) with (1 - a * a) by lra. ring.
Qed.

(** The projected separation: [r^2 (1 - sin^2 i sin^2 (nu + omega))], in
    the angular units of [plx]. *)
Lemma offsets_norm (c : cell) (E : R) :
  raoff c E ^ 2 + deoff c E ^ 2
  = (radius c E * (plx c * (1 / 1000))) ^ 2
    * (1 - sin (inc c) ^ 2 * sin (tanom c E + argp c) ^ 2).
Proof.
  unfold raoff, deoff. cbv zeta.
  remember (tanom c E + argp c) as th eqn:Hth.
  rewrite (sin_plus th (lan c)), (cos_plus th (lan c)),
    (sin_minus th (lan c)), (cos_minus th (lan c)).
  replace (sin (inc c))
    with (2 * sin (1 / 2 * inc c) * cos (1 / 2 * inc c))
    by (rewrite <- sin_2a; f_equal; field).
  pose proof (sin2_cos2 th) as Ha.
  pose proof (sin2_cos2 (lan c)) as Hp.
  pose proof (sin2_cos2 (1 / 2 * inc c)) as HU.
  unfold Rsqr in Ha, Hp, HU.
  pose proof (norm_identity (sin th) (cos th) (sin (lan c)) (cos (lan c))
                (sin (1 / 2 * inc c) ^ 2) (cos (1 / 2 * inc c) ^ 2)
                (radius c E) (plx c * (1 / 1000)) Ha Hp ltac:(lra)) as H.
  etransitivity; [etransitivity; [| exact H] |]; ring.
Qed.

Lemma separation_bound (c : cell) (E : R) :
  0 <= sma c ->
  0 <= ecc c ->
  raoff c E ^ 2 + deoff c E ^ 2
  <= (sma c * (1 + ecc c) * (plx c * (1 / 1000))) ^ 2.
Proof.
  intros Ha He. rewrite offsets_norm. unfold radius.
  pose proof (COS_bound E) as [Hc1 Hc2].
  pose proof (sin2_cos2 (inc c)) as Hi.
  pose proof (sin2_cos2 (tanom c E + argp c)) as Ht.
  unfold Rsqr in Hi, Ht.
  remember (sin (inc c)) as si. remember (cos (inc c)) as ci.
  remember (sin (tanom c E + argp c)) as st.
  remember (cos (tanom c E + argp c)) as ct.
  remember (1 - ecc c * cos E) as x eqn:Hx.
  remember (plx c * (1 / 1000)) as k.
  assert (Hx1 : - (1 + ecc c) <= x <= 1 + ecc c) by (subst x; split; nra).
  assert (Hx2 : x * x <= (1 + ecc c) * (1 + ecc c)) by nra.
  assert (HF0 : 0 <= 1 - si ^ 2 * st ^ 2) by nra.
  assert (HF1 : 1 - si ^ 2 * st ^ 2 <= 1) by nra.
  assert (Hr : (sma c * x * k) ^ 2 <= (sma c * (1 + ecc c) * k) ^ 2).
  { replace ((sma c * x * k) ^ 2) with ((sma c * k) ^ 2 * (x * x)) by ring.
    replace ((sma c * (1 + ecc c) * k) ^ 2)
      with ((sma c * k) ^ 2 * ((1 + ecc c) * (1 + ecc c))) by ring.
    apply Rmult_le_compat_l; [apply pow2_ge_0 | exact Hx2]. }
  pose proof (pow2_ge_0 (sma c * x * k)) as Hsq.
  remember ((sma c * x * k) ^ 2) as S1.
  remember (1 - si ^ 2 * st ^ 2) as F.
  nra.
Qed.

(** X12: the projected separation never exceeds the apoapsis distance.
    For an orbit of non-negative semi-major axis [a] and eccentricity
    [e], the RA and Dec offsets [x], [y] that [calc_orbit] returns at any
    epoch satisfy [x^2 + y^2 <= (a (1 + e) plx / 1000)^2]. *)
Theorem calc_orbit_separation_bound
    (epochs sma ecc tau argp lan inc plx mtot : list R) (mass : R)
    (i j : nat) (x y : R) :
  Forall (fun l => length l = length sma) [ecc; tau; argp; lan; inc; plx; mtot] ->
  (i < length sma)%nat ->
  (j < length epochs)%nat ->
  0 <= nth i sma 0 ->
  0 <= nth i ecc 0 ->
  let r := calc_orbit epochs sma ecc tau argp lan inc plx mtot mass in
  nth_error (o_cells (fst (fst r))) (i * length epochs + j) = Some (Some x) ->
  nth_error (o_cells (snd (fst r))) (i * length epochs + j) = Some (Some y) ->
  x ^ 2 + y ^ 2
  <= (nth i sma 0 * (1 + nth i ecc 0) * (nth i plx 0 * (1 / 1000))) ^ 2.
Proof.
  intros _ Hi Hj Ha He r Hx Hy.
  destruct (calc_orbit_nth epochs sma ecc tau argp lan inc plx mtot mass i j
              Hi Hj) as (E & _ & Hra & Hde & _).
  fold r in Hra, Hde. rewrite Hra in Hx. rewrite Hde in Hy.
  destruct E as [E |]; simpl in Hx, Hy; [| discriminate].
  injection Hx as <-. injection Hy as <-.
  match goal with
  | |- raoff ?c _ ^ 2 + _ <= _ => apply (separation_bound c E); simpl; assumption
  end.
Qed.

Lemma calc_orbit_separation_bound_witness :
  let c := {| epochs := 10; sma := 2; ecc := 0; tau := 0; argp := 1;
              lan := 1; inc := 1; plx := 50; mtot := 1 |} in
  raoff c (manom c) ^ 2 + deoff c (manom c) ^ 2
  <= (2 * (1 + 0) * (50 * (1 / 1000))) ^ 2.
Proof.
  intros c.
  apply (calc_orbit_separation_bound [10] [2] [0] [0] [1] [1] [1] [50] [1] 0
           0%nat 0%nat (raoff c (manom c)) (deoff c (manom c))).
  - repeat constructor.
  - simpl. lia.
  - simpl. lia.
  - simpl. lra.
  - simpl. lra.
  - rewrite calc_orbit_one_circular. reflexivity.
  - rewrite calc_orbit_one_circular. reflexivity.
Defined.

(** X13: a circular orbit seen face-on ([ecc = 0], [inc = 0]) stays at the
    constant projected separation [sma * plx / 1000] and has no radial
    velocity: at every epoch [calc_orbit] returns offsets [x], [y] with
    [x^2 + y^2 = (sma * plx / 1000)^2] and [vz = 0], for a test particle
    and for a massive body alike. *)
Theorem calc_orbit_face_on_circular
    (epochs sma ecc tau argp lan inc plx mtot : list R) (mass : R) (i j : nat) :
  Forall (fun l => length l = length sma) [ecc; tau; argp; lan; inc; plx; mtot] ->
  (i < length sma)%nat ->
  (j < length epochs)%nat ->
  nth i ecc 0 = 0 ->
  nth i inc 0 = 0 ->
  let r := calc_orbit epochs sma ecc tau argp lan inc plx mtot mass in
  exists x y,
    nth_error (o_cells (fst (fst r))) (i * length epochs + j) = Some (Some x) /\
    nth_error (o_cells (snd (fst r))) (i * length epochs + j) = Some (Some y) /\
    x ^ 2 + y ^ 2 = (nth i sma 0 * (nth i plx 0 * (1 / 1000))) ^ 2 /\
    nth_error (o_cells (snd r)) (i * length epochs + j) = Some (Some 0).
Proof.
  intros _ Hi Hj He Hinc r.
  destruct (calc_orbit_nth epochs sma ecc tau argp lan inc plx mtot mass i j
              Hi Hj) as (E & HE & Hra & Hde & Hvz).
  fold r in Hra, Hde, Hvz. cbn [Orbit.ecc] in HE.
  rewrite He in HE, Hra, Hde, Hvz. rewrite Hinc in Hra, Hde, Hvz.
  rewrite calc_ecc_anom_one_circular in HE. injection HE as <-.
  cbn [option_map] in Hra, Hde, Hvz.
  eexists. eexists.
  split; [exact Hra |]. split; [exact Hde |]. split.
  - rewrite offsets_norm. unfold radius. cbn [Orbit.sma Orbit.ecc Orbit.inc Orbit.plx].
    rewrite sin_0. ring.
  - rewrite Hvz. do 2 f_equal.
    unfold vz, Kv. cbn [Orbit.sma Orbit.ecc Orbit.inc Orbit.mtot].
    rewrite sin_0. destruct (Req_dec_T mass 0); unfold Rdiv; ring.
Qed.

Lemma calc_orbit_face_on_circular_witness :
  let r := calc_orbit [0; 10; 20] [1; 2] [1 / 2; 0] [0; 0] [0; 0] [0; 0] [1; 0]
             [10; 50] [1; 1] 0 in
  nth 1 [1 / 2; 0] 0 = 0 /\
  exists x y,
    nth_error (o_cells (fst (fst r))) 5 = Some (Some x) /\
    nth_error (o_cells (snd (fst r))) 5 = Some (Some y) /\
    x ^ 2 + y ^ 2 = (nth 1 [1; 2] 0 * (nth 1 [10; 50] 0 * (1 / 1000))) ^ 2 /\
    nth_error (o_cells (snd r)) 5 = Some (Some 0).
Proof.
  intros r. split; [reflexivity |].
  apply (calc_orbit_face_on_circular [0; 10; 20] [1; 2] [1 / 2; 0] [0; 0] [0; 0]
           [0; 0] [1; 0] [10; 50] [1; 1] 0 1%nat 2%nat).
  - repeat constructor.
  - simpl. lia.
  - simpl. lia.
  - reflexivity.
  - reflexivity.
Defined.

(** X14: one orbit.  [np.squeeze] drops the orbit axis, and the epoch
    axis too when there is one epoch: for [T] epochs the three arrays
    have shape [(T,)], and shape [()] when [T = 1], with [T] cells each. *)
Theorem calc_orbit_single_orbit_shape
    (epochs : list R) (a e tau0 argp0 lan0 inc0 plx0 m mass : R) :
  let r := calc_orbit epochs [a] [e] [tau0] [argp0] [lan0] [inc0] [plx0] [m]
             mass in
  let expected := if (length epochs =? 1)%nat then [] else [length epochs] in
  (o_shape (fst (fst r)) = expected /\
   o_shape (snd (fst r)) = expected /\
   o_shape (snd r) = expected) /\
  (length (o_cells (fst (fst r))) = length epochs /\
   length (o_cells (snd (fst r))) = length epochs /\
   length (o_cells (snd r)) = length epochs).
Proof.
  intros r expected. split.
  - pose proof (calc_orbit_shapes epochs [a] [e] [tau0] [argp0] [lan0] [inc0]
                  [plx0] [m] mass) as H.
    cbv zeta in H. fold r in H.
    replace (NumPy.squeeze [length [a]; length epochs]) with expected in H;
      [exact H |].
    unfold expected, NumPy.squeeze. simpl.
    destruct (length epochs =? 1)%nat; reflexivity.
  - pose proof (calc_orbit_cells epochs [a] [e] [tau0] [argp0] [lan0] [inc0]
                  [plx0] [m] mass) as H.
    cbv zeta in H. fold r in H. change (length [a]) with 1%nat in H.
    rewrite !Nat.mul_1_l in H. exact H.
Qed.
End OrbitGeometry.


(** ** sampler.py: what prepare_samples returns *)

Section PrepareSamples.
Import Kepler.
Import Orbit.
Import OFTI.
Open Scope R_scope.

Lemma squeeze_one_epoch (n : nat) :
  NumPy.squeeze [n; 1%nat] = if (n =? 1)%nat then [] else [n].
Proof. unfold NumPy.squeeze. simpl. destruct (n =? 1)%nat; reflexivity. Qed.

(** [prepare_samples] returns, and every cell of the rows it changes is
    the scale-and-rotate of the offsets that [calc_orbit] gave for that
    sample, when those are numbers. *)
Lemma prepare_samples_cells
    (a : anchor) (samples : rows) (sep_offset pa_offset : list R) :
  exists p,
    prepare_samples a samples sep_offset pa_offset = Ok p /\
    p_drawn p = samples /\
    length (p_sma p) = length (r_sma samples) /\
    length (p_lan p) = length (r_sma samples) /\
    length (p_tau p) = length (r_sma samples) /\
    forall i,
      (i < length (r_sma samples))%nat ->
      exists cell : option (R * R * R),
        nth_error (p_sma p) i = Some (option_map (fun t => fst (fst t)) cell) /\
        nth_error (p_lan p) i = Some (option_map (fun t => snd (fst t)) cell) /\
        nth_error (p_tau p) i = Some (option_map (fun t => snd t) cell) /\
        forall t, cell = Some t ->
          exists ra dec,
            t = scale_and_rotate a (nth i (r_sma samples) 0)
                  (nth i (r_lan samples) 0) (nth i (r_tau samples) 0)
                  (nth i (r_mtot samples) 0) ra dec
                  (nth i sep_offset 0) (nth i pa_offset 0).
Proof.
  unfold prepare_samples.
  pose proof (calc_orbit_shapes [a_epoch a] (r_sma samples) (r_ecc samples)
                (r_inc samples) (r_argp samples) (r_lan samples) (r_tau samples)
                (r_plx samples) (r_mtot samples) 0) as (S1 & S2 & _).
  cbv zeta in S1, S2.
  destruct (calc_orbit [a_epoch a] (r_sma samples) (r_ecc samples)
              (r_inc samples) (r_argp samples) (r_lan samples) (r_tau samples)
              (r_plx samples) (r_mtot samples) 0) as [[ra dec] vc].
  cbn [fst snd] in S1, S2. cbn [length] in S1, S2.
  rewrite S1, S2, squeeze_one_epoch.
  assert (Hfits : forall n : nat,
             match (if (n =? 1)%nat then [] else [n]) with
             | [] => true
             | [n0] => (n0 =? n)%nat
             | _ => false
             end = true).
  { intros n. destruct (n =? 1)%nat; [reflexivity | apply Nat.eqb_refl]. }
  rewrite Hfits. cbn [andb].
  eexists. split; [reflexivity |]. cbn [p_drawn p_sma p_lan p_tau].
  rewrite !length_map, length_seq.
  repeat (split; [reflexivity |]).
  intros i Hi.
  rewrite !nth_error_map, nth_error_seq.
  apply Nat.ltb_lt in Hi. rewrite Hi. cbn [option_map Nat.add].
  eexists. repeat (split; [reflexivity |]).
  intros t Ht.
  destruct (nth i (o_cells ra) None) as [ra_i |]; [| discriminate].
  destruct (nth i (o_cells dec) None) as [dec_i |]; [| discriminate].
  injection Ht as <-. eauto.
Qed.

(** X15: [prepare_samples] does not raise on the shapes that [calc_orbit]
    hands back for the single anchor epoch ([(num_samples,)], or [()] for
    one sample).  It returns [num_samples] cells in each of the rows it
    recomputes ([sma], [lan], [tau]) and the other rows as they were
    drawn. *)
Theorem prepare_samples_returns
    (a : anchor) (samples : rows) (sep_offset pa_offset : list R) :
  exists p,
    prepare_samples a samples sep_offset pa_offset = Ok p /\
    p_drawn p = samples /\
    length (p_sma p) = length (r_sma samples) /\
    length (p_lan p) = length (r_sma samples) /\
    length (p_tau p) = length (r_sma samples).
Proof.
  destruct (prepare_samples_cells a samples sep_offset pa_offset)
    as (p & Hp & Hd & L1 & L2 & L3 & _).
  exists p. auto.
Qed.

(** X16: the angles that [prepare_samples] returns are reduced.  Every
    cell of the new [lan] row lies in [[0, 2 pi)] and every cell of the
    new [tau] row in [[0, 1)], whatever was drawn and observed (cells
    that are NaN apart). *)
Theorem prepare_samples_ranges
    (a : anchor) (samples : rows) (sep_offset pa_offset : list R) :
  exists p,
    prepare_samples a samples sep_offset pa_offset = Ok p /\
    (forall i l, nth_error (p_lan p) i = Some (Some l) -> 0 <= l < 2 * PI) /\
    (forall i t, nth_error (p_tau p) i = Some (Some t) -> 0 <= t < 1).
Proof.
  destruct (prepare_samples_cells a samples sep_offset pa_offset)
    as (p & Hp & _ & _ & L2 & L3 & Hcells).
  exists p. split; [exact Hp |]. split.
  - intros i l Hl.
    assert (Hi : (i < length (r_sma samples))%nat).
    { rewrite <- L2. apply nth_error_Some. rewrite Hl. discriminate. }
    destruct (Hcells i Hi) as (cell & _ & Hlan & _ & Hsr).
    rewrite Hlan in Hl. destruct cell as [t |]; [| discriminate].
    destruct (Hsr t eq_refl) as (ra & dec & ->).
    injection Hl as <-. apply fmod_range. pose proof PI_RGT_0. lra.
  - intros i t Ht.
    assert (Hi : (i < length (r_sma samples))%nat).
    { rewrite <- L3. apply nth_error_Some. rewrite Ht. discriminate. }
    destruct (Hcells i Hi) as (cell & _ & _ & Htau & Hsr).
    rewrite Htau in Ht. destruct cell as [t' |]; [| discriminate].
    destruct (Hsr t' eq_refl) as (ra & dec & ->).
    injection Ht as <-. apply fmod_range. lra.
Qed.

End PrepareSamples.


(** ** OFTI.run_sampler: the stream of accepted orbits *)

Section AcceptedStream.
Import OFTI.
Open Scope nat_scope.

Lemma run_sampler_closed_form
    (total_orbits : nat) (batches : list batch) (results : sink) :
  run_sampler total_orbits batches results
  = if total_orbits <=? length (concat batches)
    then
      let saved := firstn total_orbits (concat batches) in
      Some (Ok (map Some (accepted_orbits saved),
                results ++ [(map Some (accepted_orbits saved),
                             map Some (lnlikes saved))]))
    else None.
Proof.
  unfold run_sampler. rewrite init_stored.
  rewrite while_loop_stored by (simpl; lia). simpl app.
  destruct (total_orbits <=? length (concat batches)) eqn:Hle;
    [| reflexivity].
  apply Nat.leb_le in Hle. cbv zeta.
  cbn [stored output_orbits output_lnlikes].
  rewrite length_firstn, Nat.min_l by exact Hle.
  rewrite Nat.sub_diag. simpl repeat. rewrite !app_nil_r. reflexivity.
Qed.

(** X18: [run_sampler] sees the batches of [reject] only as one stream of
    accepted orbits.  It keeps looping exactly as long as the batches so
    far hold fewer than [total_orbits] accepted orbits; what it returns
    does not depend on how the stream is cut into batches nor on any
    batch after the one that completes the count; and for
    [total_orbits = 0] it returns the empty array at once, still calling
    [add_samples]. *)
Theorem ofti_run_sampler_stream
    (total_orbits : nat) (batches : list batch) (results : sink) :
  (run_sampler total_orbits batches results = None <->
   length (concat batches) < total_orbits) /\
  (forall batches',
      concat batches' = concat batches ->
      run_sampler total_orbits batches' results
      = run_sampler total_orbits batches results) /\
  (forall more,
      total_orbits <= length (concat batches) ->
      run_sampler total_orbits (batches ++ more) results
      = run_sampler total_orbits batches results) /\
  run_sampler 0 batches results = Some (Ok ([], results ++ [([], [])])).
Proof.
  split; [| split; [| split]].
  - rewrite run_sampler_closed_form.
    destruct (total_orbits <=? length (concat batches)) eqn:Hle.
    + apply Nat.leb_le in Hle. split; [discriminate | lia].
    + apply Nat.leb_gt in Hle. split; [intros _; exact Hle | reflexivity].
  - intros batches' Heq. rewrite !run_sampler_closed_form, Heq. reflexivity.
  - intros more Hle. rewrite !run_sampler_closed_form.
    rewrite concat_app, length_app.
    assert (H1 : (total_orbits <=? length (concat batches)) = true)
      by (apply Nat.leb_le; exact Hle).
    assert (H2 : (total_orbits <=? length (concat batches) + length (concat more))
                 = true) by (apply Nat.leb_le; lia).
    rewrite H1, H2. cbv zeta. rewrite firstn_app.
    replace (total_orbits - length (concat batches)) with 0 by lia.
    simpl firstn. rewrite app_nil_r. reflexivity.
  - rewrite run_sampler_closed_form. reflexivity.
Qed.
End AcceptedStream.



(** ** OFTI.reject *)

Section Reject.
Import Kepler.
Import OFTI.
Open Scope R_scope.

(** The test in the logarithm is the test [u < exp(lnp)]. *)
Lemma exceeds_log_random (lnp u : R) :
  0 <= u -> exceeds lnp (log_random u) = ltb u (exp lnp).
Proof.
  intros Hu. unfold exceeds, log_random, gtb, ltb.
  destruct (Req_dec_T u 0) as [-> | Hne].
  - pose proof (exp_pos lnp).
    destruct (Rlt_dec 0 (exp lnp)); [reflexivity | lra].
  - assert (Hpos : 0 < u) by lra.
    destruct (Rgt_dec lnp (ln u)) as [Hg | Hg];
      destruct (Rlt_dec u (exp lnp)) as [Hl | Hl]; try reflexivity.
    + exfalso. apply Hl. rewrite <- (exp_ln u Hpos) at 1.
      apply exp_increasing. lra.
    + exfalso. apply Hg. rewrite <- (ln_exp lnp).
      apply Rlt_gt, ln_increasing; assumption.
Qed.

Lemma where0_filter (lnp : list R) :
  forall (random : list R) (from : nat),
    length random = length lnp ->
    Forall (fun u => 0 <= u < 1) random ->
    where0 from (map (fun c => exceeds (fst c) (snd c))
                     (combine lnp (map log_random random)))
    = map (Nat.add from)
        (filter (fun i => ltb (nth i random 0) (exp (nth i lnp 0)))
                (seq 0 (length lnp))).
Proof.
  induction lnp as [| l lnp IH]; intros [| u random] from Hlen Hu;
    simpl in Hlen; try discriminate; [reflexivity |].
  inversion Hu as [| ? ? [Hu0 _] Hrest]; subst.
  cbn [map combine where0 fst snd length seq filter nth].
  rewrite exceeds_log_random by exact Hu0.
  rewrite (IH random (S from)) by (try assumption; lia).
  rewrite <- seq_shift, filter_map_swap.
  destruct (ltb u (exp l)); cbn [map]; rewrite ?Nat.add_0_r, !map_map;
    [apply f_equal |]; apply map_ext; intros i; lia.
Qed.

(** X19: rejection sampling accepts an orbit exactly when its uniform
    draw is below its likelihood.  With draws [u] in [[0, 1)], [reject]
    returns the columns [i] of [samples] with [u_i < exp(lnp_i)], in
    ascending order of [i], each paired with its own [lnp_i]; a draw of
    exactly 0 (whose logarithm is [-inf]) accepts. *)
Theorem reject_accepts_below_likelihood
    (samples : list (list R)) (lnp random : list R) :
  length random = length lnp ->
  Forall (fun u => 0 <= u < 1) random ->
  reject samples lnp random
  = map (fun i => (column samples i, nth i lnp 0))
      (filter (fun i => ltb (nth i random 0) (exp (nth i lnp 0)))
              (seq 0 (length lnp))).
Proof.
  intros Hlen Hu. unfold reject.
  rewrite (where0_filter lnp random 0%nat Hlen Hu).
  f_equal. rewrite <- (map_id (filter _ _)) at 2.
  apply map_ext. intros i. reflexivity.
Qed.

Lemma reject_accepts_below_likelihood_witness :
  let samples := [[1; 2; 3]; [4; 5; 6]] in
  let lnp := [0; -1; -2] in
  let random := [1 / 2; 0; 1 / 2] in
  length random = length lnp /\
  Forall (fun u => 0 <= u < 1) random /\
  reject samples lnp random
  = map (fun i => (column samples i, nth i lnp 0))
      (filter (fun i => ltb (nth i random 0) (exp (nth i lnp 0)))
              (seq 0 (length lnp))).
Proof.
  intros samples lnp random.
  assert (Hu : Forall (fun u => 0 <= u < 1) random)
    by (repeat constructor; lra).
  split; [reflexivity |]. split; [exact Hu |].
  apply (reject_accepts_below_likelihood samples lnp random eq_refl Hu).
Defined.
End Reject.


(** ** MCMC.__init__: the fixed parameters *)

Section FixedParams.
Import MCMC.
Open Scope nat_scope.

Lemma fixed_params_from_In (ps : list sys_prior) :
  forall k i v,
    In (i, v) (fixed_params_from k ps) <->
    k <= i /\ nth_error ps (i - k) = Some (Fixed v).
Proof.
  induction ps as [| [w | p] ps IH]; intros k i v; simpl.
  - split; [contradiction | intros [_ H]; destruct (i - k); discriminate].
  - rewrite IH. split.
    + intros [Heq | [Hle Hn]].
      * injection Heq as <- <-. rewrite Nat.sub_diag. split; [lia | reflexivity].
      * split; [lia |]. replace (i - k) with (S (i - S k)) by lia. exact Hn.
    + intros [Hle Hn]. destruct (i - k) as [| d] eqn:Hd.
      * left. simpl in Hn. injection Hn as ->. f_equal. lia.
      * right. split; [lia |]. simpl in Hn.
        replace (i - S k) with d by lia. exact Hn.
  - rewrite IH. split.
    + intros [Hle Hn]. split; [lia |].
      replace (i - k) with (S (i - S k)) by lia. exact Hn.
    + intros [Hle Hn]. destruct (i - k) as [| d] eqn:Hd; simpl in Hn;
        [discriminate |].
      split; [lia |]. replace (i - S k) with d by lia. exact Hn.
Qed.

Lemma fixed_params_from_ascending (ps : list sys_prior) :
  forall k j1 j2 e1 e2,
    j1 < j2 ->
    nth_error (fixed_params_from k ps) j1 = Some e1 ->
    nth_error (fixed_params_from k ps) j2 = Some e2 ->
    fst e1 < fst e2.
Proof.
  induction ps as [| [w | p] ps IH]; intros k j1 j2 e1 e2 Hj H1 H2; simpl in *.
  - destruct j1; discriminate.
  - destruct j2 as [| j2]; [lia |]. destruct j1 as [| j1]; simpl in *.
    + injection H1 as <-. apply nth_error_In in H2. destruct e2 as [i v].
      apply fixed_params_from_In in H2. simpl. lia.
    + apply (IH (S k) j1 j2); try assumption. lia.
  - apply (IH (S k) j1 j2); assumption.
Qed.

(** X20: [MCMC.__init__] splits [system.sys_priors] in two.  A pair
    [(i, v)] is recorded in [fixed_params] exactly when entry [i] of
    [sys_priors] is the plain number [v]; the pairs are recorded in
    strictly ascending order of index; and every entry is either recorded
    there or kept in [priors], so the two lengths add up to the number of
    parameters. *)
Theorem fixed_params_partition (sys_priors : list sys_prior) :
  (forall i v,
      In (i, v) (fixed_params sys_priors) <->
      nth_error sys_priors i = Some (Fixed v)) /\
  (forall j1 j2 e1 e2,
      j1 < j2 ->
      nth_error (fixed_params sys_priors) j1 = Some e1 ->
      nth_error (fixed_params sys_priors) j2 = Some e2 ->
      fst e1 < fst e2) /\
  length (fixed_params sys_priors) + length (priors sys_priors)
  = length sys_priors.
Proof.
  unfold fixed_params. split; [| split].
  - intros i v. rewrite fixed_params_from_In, Nat.sub_0_r.
    split; [intros [_ H]; exact H | intros H; split; [lia | exact H]].
  - apply fixed_params_from_ascending.
  - apply fixed_params_from_length.
Qed.

Lemma insert_past_end (r : list R) (i : nat) (v : R) :
  length r < i -> NumPy.insert r i v = Raise IndexError.
Proof.
  intros H. unfold NumPy.insert.
  destruct (i <=? length r) eqn:Hi; [apply Nat.leb_le in Hi; lia | reflexivity].
Qed.

Lemma insert_fixed_fits (ps : list sys_prior) :
  forall pre s,
    (forall i v,
        In (i, v) (fixed_params_from (length pre) ps) ->
        length (priors (firstn (i - length pre) ps)) <= length s) ->
    insert_fixed (fixed_params_from (length pre) ps) (OneDim (pre ++ s))
    = Ok (OneDim (pre ++ interleave ps s)).
Proof.
  induction ps as [| [w | p] ps IH]; intros pre s H.
  - reflexivity.
  - simpl. rewrite insert_app_here. simpl.
    replace (S (length pre)) with (length (pre ++ [w]))
      by (rewrite length_app; simpl; lia).
    rewrite IH; [rewrite <- app_assoc; reflexivity |].
    intros i v Hin.
    replace (length (pre ++ [w])) with (S (length pre)) in *
      by (rewrite length_app; simpl; lia).
    pose proof (proj1 (fixed_params_from_In ps _ i v) Hin) as [Hle _].
    specialize (H i v (or_intror Hin)).
    replace (i - length pre) with (S (i - S (length pre))) in H by lia.
    exact H.
  - destruct s as [| x s].
    + destruct (fixed_params_from (S (length pre)) ps) as [| [i v] rest] eqn:Hf.
      * simpl. rewrite Hf. reflexivity.
      * exfalso.
        assert (Hin : In (i, v) (fixed_params_from (S (length pre)) ps))
          by (rewrite Hf; left; reflexivity).
        pose proof (proj1 (fixed_params_from_In ps _ i v) Hin) as [Hle _].
        specialize (H i v Hin).
        replace (i - length pre) with (S (i - S (length pre))) in H by lia.
        simpl in H. lia.
    + simpl.
      replace (S (length pre)) with (length (pre ++ [x]))
        by (rewrite length_app; simpl; lia).
      replace (pre ++ x :: s) with ((pre ++ [x]) ++ s)
        by (rewrite <- app_assoc; reflexivity).
      rewrite IH; [rewrite <- app_assoc; reflexivity |].
      intros i v Hin.
      replace (length (pre ++ [x])) with (S (length pre)) in *
        by (rewrite length_app; simpl; lia).
      pose proof (proj1 (fixed_params_from_In ps _ i v) Hin) as [Hle _].
      specialize (H i v Hin).
      replace (i - length pre) with (S (i - S (length pre))) in H by lia.
      simpl in H. lia.
Qed.

Lemma insert_fixed_short (ps : list sys_prior) :
  forall pre s,
    (exists i v,
        In (i, v) (fixed_params_from (length pre) ps) /\
        length s < length (priors (firstn (i - length pre) ps))) ->
    insert_fixed (fixed_params_from (length pre) ps) (OneDim (pre ++ s))
    = Raise IndexError.
Proof.
  induction ps as [| [w | p] ps IH]; intros pre s (i & v & Hin & Hlt).
  - contradiction.
  - simpl in Hin. destruct Hin as [Heq | Hin].
    + injection Heq as <- <-. rewrite Nat.sub_diag in Hlt. simpl in Hlt. lia.
    + pose proof (proj1 (fixed_params_from_In ps _ i v) Hin) as [Hle _].
      simpl. rewrite insert_app_here. simpl.
      replace (S (length pre)) with (length (pre ++ [w]))
        by (rewrite length_app; simpl; lia).
      apply IH. exists i, v.
      replace (length (pre ++ [w])) with (S (length pre))
        by (rewrite length_app; simpl; lia).
      split; [exact Hin |].
      replace (i - length pre) with (S (i - S (length pre))) in Hlt by lia.
      exact Hlt.
  - simpl in Hin.
    pose proof (proj1 (fixed_params_from_In ps _ i v) Hin) as [Hle _].
    destruct s as [| x s].
    + simpl.
      destruct (fixed_params_from (S (length pre)) ps) as [| [i0 v0] rest] eqn:Hf;
        [contradiction |].
      assert (Hin0 : In (i0, v0) (fixed_params_from (S (length pre)) ps))
        by (rewrite Hf; left; reflexivity).
      apply fixed_params_from_In in Hin0 as [Hle0 _].
      simpl. rewrite insert_past_end by (rewrite length_app; simpl; lia).
      reflexivity.
    + simpl.
      replace (S (length pre)) with (length (pre ++ [x]))
        by (rewrite length_app; simpl; lia).
      replace (pre ++ x :: s) with ((pre ++ [x]) ++ s)
        by (rewrite <- app_assoc; reflexivity).
      apply IH. exists i, v.
      replace (length (pre ++ [x])) with (S (length pre))
        by (rewrite length_app; simpl; lia).
      split; [exact Hin |].
      replace (i - length pre) with (S (i - S (length pre))) in Hlt by lia.
      simpl in Hlt. simpl. lia.
Qed.

Lemma priors_firstn_le (ps : list sys_prior) :
  forall i, length (priors (firstn i ps)) <= length (priors ps).
Proof.
  induction ps as [| [w | p] ps IH]; intros [| i]; simpl; try lia.
  - apply IH.
  - specialize (IH i). lia.
Qed.

Lemma interleave_surplus (ps : list sys_prior) :
  forall s,
    length (priors ps) <= length s ->
    interleave ps s
    = interleave ps (firstn (length (priors ps)) s)
      ++ skipn (length (priors ps)) s.
Proof.
  induction ps as [| [w | p] ps IH]; intros s H; simpl in *.
  - reflexivity.
  - rewrite <- IH by exact H. reflexivity.
  - destruct s as [| x s]; simpl in *; [lia |].
    rewrite <- IH by lia. reflexivity.
Qed.

(** X21: [_fill_in_fixed_params] does not check the length of a 1-D
    vector.  It returns the interleaved vector whenever no fixed
    parameter comes after more sampled parameters than the vector holds;
    it raises [IndexError] as soon as one does; and a vector that is too
    long is accepted, its surplus cells staying at the end, after the
    last parameter. *)
Theorem fill_in_fixed_params_any_length
    (sys_priors : list sys_prior) (s : list R) :
  ((forall i v,
       In (i, v) (fixed_params sys_priors) ->
       length (priors (firstn i sys_priors)) <= length s) ->
   _fill_in_fixed_params (fixed_params sys_priors) (OneDim s)
   = Ok (OneDim (interleave sys_priors s))) /\
  ((exists i v,
       In (i, v) (fixed_params sys_priors) /\
       length s < length (priors (firstn i sys_priors))) ->
   _fill_in_fixed_params (fixed_params sys_priors) (OneDim s)
   = Raise IndexError) /\
  (length (priors sys_priors) <= length s ->
   _fill_in_fixed_params (fixed_params sys_priors) (OneDim s)
   = Ok (OneDim (interleave sys_priors (firstn (length (priors sys_priors)) s)
                 ++ skipn (length (priors sys_priors)) s))).
Proof.
  assert (Hfits :
            (forall i v,
                In (i, v) (fixed_params sys_priors) ->
                length (priors (firstn i sys_priors)) <= length s) ->
            _fill_in_fixed_params (fixed_params sys_priors) (OneDim s)
            = Ok (OneDim (interleave sys_priors s))).
  { intros H. unfold _fill_in_fixed_params.
    pose proof (insert_fixed_fits sys_priors [] s) as Hi. simpl in Hi.
    unfold fixed_params in *.
    assert (Hi' : insert_fixed (fixed_params_from 0 sys_priors) (OneDim s)
                  = Ok (OneDim (interleave sys_priors s))).
    { apply Hi. intros i v Hin. rewrite Nat.sub_0_r. apply (H i v). exact Hin. }
    destruct (fixed_params_from 0 sys_priors); simpl in *; exact Hi'. }
  split; [exact Hfits |]. split.
  - intros (i & v & Hin & Hlt). unfold _fill_in_fixed_params.
    pose proof (insert_fixed_short sys_priors [] s) as Hi. simpl in Hi.
    unfold fixed_params in *.
    assert (Hi' : insert_fixed (fixed_params_from 0 sys_priors) (OneDim s)
                  = Raise IndexError).
    { apply Hi. exists i, v. rewrite Nat.sub_0_r. split; assumption. }
    destruct (fixed_params_from 0 sys_priors); [contradiction |].
    simpl. exact Hi'.
  - intros Hlen. rewrite <- interleave_surplus by exact Hlen.
    apply Hfits. intros i v _.
    pose proof (priors_firstn_le sys_priors i). lia.
Qed.
End FixedParams.


(** ** MCMC.run_sampler: how many steps are sampled *)

Section StepBounds.
Import MCMC.
Open Scope Z_scope.

(** X22: the chain that [run_sampler] samples need not hold
    [total_orbits] orbits.  With [nsteps] steps of [num_walkers] walkers
    it holds [nsteps * num_walkers] of them: under Python 3 (true
    division, then [ceil]) at least [total_orbits] and fewer than
    [total_orbits + num_walkers]; under Python 2 (floor division) at most
    [total_orbits] and more than [total_orbits - num_walkers]. *)
Theorem mcmc_run_sampler_step_count
    (py : python) (num_walkers total_orbits burn_steps : Z) :
  0 < num_walkers ->
  0 < total_orbits ->
  (py = Py2 -> num_walkers <= total_orbits) ->
  exists nsteps,
    run_sampler py num_walkers total_orbits burn_steps
    = ([Sample burn_steps; Reset; Sample nsteps; AddSamples], Ok tt) /\
    match py with
    | Py2 => total_orbits - num_walkers < nsteps * num_walkers <= total_orbits
    | Py3 => total_orbits <= nsteps * num_walkers < total_orbits + num_walkers
    end.
Proof.
  intros Hw Ht Hpy2. unfold run_sampler, nsteps_of.
  assert (Hz : (num_walkers =? 0) = false) by (apply Z.eqb_neq; lia).
  rewrite Hz. destruct py.
  - specialize (Hpy2 eq_refl).
    pose proof (Z.div_mod total_orbits num_walkers ltac:(lia)) as Hd.
    pose proof (Z.mod_pos_bound total_orbits num_walkers Hw) as Hm.
    assert (Hpos : (0 <? total_orbits / num_walkers) = true)
      by (apply Z.ltb_lt; nia).
    rewrite Hpos. eexists. split; [reflexivity |]. nia.
  - pose proof (Z.div_mod (- total_orbits) num_walkers ltac:(lia)) as Hd.
    pose proof (Z.mod_pos_bound (- total_orbits) num_walkers Hw) as Hm.
    assert (Hpos : (0 <? - (- total_orbits / num_walkers)) = true)
      by (apply Z.ltb_lt; nia).
    rewrite Hpos. eexists. split; [reflexivity |]. nia.
Qed.

Lemma mcmc_run_sampler_step_count_witness :
  0 < 10 /\ 0 < 15 /\
  (exists nsteps,
      run_sampler Py3 10 15 0
      = ([Sample 0; Reset; Sample nsteps; AddSamples], Ok tt) /\
      15 <= nsteps * 10 < 15 + 10) /\
  (exists nsteps,
      run_sampler Py2 10 15 0
      = ([Sample 0; Reset; Sample nsteps; AddSamples], Ok tt) /\
      15 - 10 < nsteps * 10 <= 15).
Proof.
  split; [lia |]. split; [lia |]. split.
  - apply (mcmc_run_sampler_step_count Py3 10 15 0); [lia | lia | discriminate].
  - apply (mcmc_run_sampler_step_count Py2 10 15 0); [lia | lia | intros _; lia].
Defined.

(** X23: when [run_sampler] asserts.  For a positive number of walkers
    the [AssertionError] is raised exactly when [total_orbits] is below
    [num_walkers] under Python 2, and exactly when [total_orbits] is not
    positive under Python 3; whenever it is raised the burn-in has been
    sampled and the sampler reset, and nothing else has been done. *)
Theorem mcmc_run_sampler_assertion_iff
    (py : python) (num_walkers total_orbits burn_steps : Z) :
  0 < num_walkers ->
  (snd (run_sampler py num_walkers total_orbits burn_steps) = Raise AssertionError
   <-> match py with
       | Py2 => total_orbits < num_walkers
       | Py3 => total_orbits <= 0
       end) /\
  (forall e,
      snd (run_sampler py num_walkers total_orbits burn_steps) = Raise e ->
      e = AssertionError /\
      fst (run_sampler py num_walkers total_orbits burn_steps)
      = [Sample burn_steps; Reset]).
Proof.
  intros Hw. unfold run_sampler.
  destruct (nsteps_of_positive py total_orbits num_walkers Hw) as (n & -> & Hn).
  destruct (0 <? n) eqn:Hpos; simpl.
  - apply Z.ltb_lt in Hpos. apply Hn in Hpos.
    split; [| intros e He; discriminate].
    split; [discriminate | destruct py; lia].
  - apply Z.ltb_ge in Hpos. split.
    + split; [intros _ | reflexivity]. destruct py; lia.
    + intros e He. injection He as <-. split; reflexivity.
Qed.

Lemma mcmc_run_sampler_assertion_iff_witness :
  0 < 10 /\
  snd (run_sampler Py2 10 5 3) = Raise AssertionError /\
  fst (run_sampler Py2 10 5 3) = [Sample 3; Reset].
Proof.
  split; [lia |].
  destruct (mcmc_run_sampler_assertion_iff Py2 10 5 3 ltac:(lia)) as [Hiff Hev].
  assert (H : snd (run_sampler Py2 10 5 3) = Raise AssertionError)
    by (apply Hiff; lia).
  split; [exact H |]. apply (Hev AssertionError H).
Defined.
End StepBounds.


(** ** MCMC.chop_chains: what a call leaves behind *)

Section ChopGeneral.
Import MCMC.
Open Scope nat_scope.

Lemma chop_arrays_low_rank_post
    (self : sampler) (n_steps : nat) (keep_start keep_end : Z) :
  NumPy.ndim (post self) < 3 ->
  exists e, chop_arrays self n_steps keep_start keep_end = Raise e.
Proof.
  intros Hpost. unfold chop_arrays.
  destruct (NumPy.reshape (lnlikes self) _) as [nl | e]; [| simpl; eauto].
  cbn [bind].
  match goal with
  | |- exists e, bind ?m _ = _ => destruct m as [na | e]; [| simpl; eauto]
  end.
  cbn [bind].
  destruct (NumPy.reshape (post self) _) as [np | e]; [| simpl; eauto].
  cbn [bind].
  match goal with
  | |- exists e, bind ?m _ = _ => destruct m as [ch | e]; [| simpl; eauto]
  end.
  cbn [bind].
  destruct (NumPy.getitem 2 1 _ _ nl) as [cl | e]; [| simpl; eauto].
  cbn [bind]. unfold NumPy.getitem at 1.
  destruct (3 <=? NumPy.ndim (post self)) eqn:H3;
    [apply Nat.leb_le in H3; lia | simpl; eauto].
Qed.

(** X24: no call of [chop_chains] completes, and none chops what the
    results are built from.  Whatever the sampler holds and whatever
    [burn] and [trim] are, the call raises; [lnlikes], [post] and
    [lnlikes_alltemps] are afterwards what they were before; and when
    [post] has fewer than three axes (as the flat [post] that
    [run_sampler] stores) the whole sampler, [chain] included, is left
    unchanged. *)
Theorem chop_chains_never_completes (self : sampler) (burn trim : Z) :
  let r := chop_chains self burn trim in
  (exists e, snd r = Raise e) /\
  lnlikes (fst r) = lnlikes self /\
  post (fst r) = post self /\
  lnlikes_alltemps (fst r) = lnlikes_alltemps self /\
  (NumPy.ndim (post self) < 3 -> fst r = self).
Proof.
  unfold chop_chains.
  destruct (NumPy.shape_minus2 (chain self)) as [n_steps | e];
    [| simpl; eauto 10].
  destruct (chop_arrays self n_steps burn (Z.of_nat n_steps - trim))
    as [[[[c l] a] p] | e] eqn:Harr; [| simpl; eauto 10].
  unfold chop_assign. rewrite lookup_nsteps. simpl.
  repeat split; eauto.
  intros Hpost.
  destruct (chop_arrays_low_rank_post self n_steps burn
              (Z.of_nat n_steps - trim) Hpost) as [e He].
  rewrite He in Harr. discriminate.
Qed.
End ChopGeneral.


(** ** _calc_ecc_anom: eccentricity 0, as an array and as a scalar *)

Section CircularOrbits.
Import Kepler.
Open Scope R_scope.

(** With an eccentricity array of one cell, which is what line 125 makes
    of a scalar, the three index arrays have one position: the cells of
    [eanom] after the first are never written. *)
Lemma calc_ecc_anom_one_cell_of_ecc
    (m0 : R) (rest : list R) (e : R) (tolerance : R) (max_iter : Z) :
  _calc_ecc_anom (m0 :: rest) [e] tolerance max_iter
  = _calc_ecc_anom [m0] [e] tolerance max_iter ++ repeat None (length rest).
Proof.
  unfold _calc_ecc_anom. cbn [map length repeat].
  rewrite !nonempty_singleton.
  destruct (newton_solver_single m0 e tolerance max_iter) as [x Hx].
  rewrite !mikkola_solver_wrapper_cells.
  destruct (eqb e 0), (ltb e (95 / 100)), (geb e (95 / 100));
    cbn [select scatter map app combine fst snd];
    rewrite ?Hx; reflexivity.
Qed.

(** C7: for an eccentricity array as long as the array of mean anomalies
    and a tolerance that is not negative, at every position where the
    eccentricity is 0 the array that [_calc_ecc_anom] returns holds the
    mean anomaly of that position itself, whatever the other cells of the
    batch are and however long they keep the Newton loop running.  A
    scalar eccentricity 0, which the docstring announces and line 125
    reshapes to one cell, does not get this: for the mean anomalies 1.5
    and 2 the call returns 1.5 and the [np.nan] filler, not 1.5 and 2. *)
Theorem calc_ecc_anom_zero_ecc :
  (forall (manom ecc : list R) (tolerance : R) (max_iter : Z) (i : nat) (m : R),
      length manom = length ecc ->
      0 <= tolerance ->
      nth_error manom i = Some m ->
      nth_error ecc i = Some 0 ->
      nth_error (_calc_ecc_anom manom ecc tolerance max_iter) i
      = Some (Some m)) /\
  _calc_ecc_anom [3 / 2; 2] [0] default_tolerance default_max_iter
  = [Some (3 / 2); None].
Proof.
  split.
  - intros manom ecc tolerance max_iter i m _.
    exact (calc_ecc_anom_circular manom ecc tolerance max_iter i m).
  - rewrite calc_ecc_anom_one_cell_of_ecc, calc_ecc_anom_one_circular.
    reflexivity.
Qed.

Lemma calc_ecc_anom_zero_ecc_witness :
  nth_error (_calc_ecc_anom [3 / 2] [0] default_tolerance default_max_iter) 0
  = Some (Some (3 / 2)).
Proof.
  apply (proj1 calc_ecc_anom_zero_ecc [3 / 2] [0] default_tolerance
           default_max_iter 0%nat (3 / 2)).
  - reflexivity.
  - exact default_tolerance_nonneg.
  - reflexivity.
  - reflexivity.
Defined.

End CircularOrbits.

(** ** The anomaly solver on binary64: Newton's hand-off *)

Section Binary64.
Import PrimFloat SpecFloat FloatOps FloatAxioms.
Import KeplerBinary64.
Local Open Scope float_scope.
#[local] Set Warnings "-inexact-float".

Lemma nan_sub (x : float) : nan - x = nan.
Proof.
  rewrite <- (SF2Prim_Prim2SF (nan - x)), sub_spec. reflexivity.
Qed.

Lemma nan_add (x : float) : nan + x = nan.
Proof.
  rewrite <- (SF2Prim_Prim2SF (nan + x)), add_spec. reflexivity.
Qed.

Lemma mikkola_nan (lm : libm) :
  pow_conforms lm -> mikkola lm (-1e9) 0.5 = nan.
Proof.
  intros (Hz & Hs & Hb & Ha). unfold mikkola. cbv zeta.
  change ((1.0 - 0.5) / (4.0 * 0.5 + 0.5)) with 0.2.
  change (0.5 * -1e9 / (4.0 * 0.5 + 0.5)) with (-2e8).
  rewrite Hb.
  assert (Haux : sqrt (4e16 + libm_pow lm 0.2 3.0) = 2e8)
    by (destruct Ha as [<- | [<- | [<- | [<- | [<- | []]]]]]; reflexivity).
  rewrite Haux.
  change (-2e8 + 2e8) with 0.0. rewrite Hz.
  change (0.0 - 0.2 / 0.0) with neg_infinity. rewrite Hs.
  change (neg_infinity - 0.078 * neg_infinity / (1.0 + 0.5)) with nan.
  change (3.0 * nan) with nan. rewrite nan_sub.
  change (-1e9 + 0.5 * nan) with nan. apply nan_add.
Qed.

Lemma mikkola_wrapped_nan (lm : libm) :
  pow_conforms lm -> mikkola_wrapped lm (-1e9) 0.5 = nan.
Proof.
  intros H. unfold mikkola_wrapped.
  change (pi <? -1e9) with false. apply mikkola_nan, H.
Qed.

Lemma reflected_nth_error_b64 (manom : list float) (j : nat) (m : float) :
  nth_error manom j = Some m ->
  nth_error (reflected manom) j = Some (if pi <? m then reflect m else m).
Proof.
  intros Hm. unfold reflected.
  apply scatter_select_map; [| exact Hm].
  rewrite nth_error_map, Hm. reflexivity.
Qed.

(** The wrapper on binary64, cell by cell. *)
Lemma mikkola_solver_wrapper_nth_error_b64 (lm : libm) (manom ecc : list float)
    (j : nat) (m e : float) :
  nth_error manom j = Some m ->
  nth_error ecc j = Some e ->
  nth_error (_mikkola_solver_wrapper lm manom ecc) j
  = Some (mikkola_wrapped lm m e).
Proof.
  intros Hm He. unfold _mikkola_solver_wrapper.
  pose proof (reflected_nth_error_b64 manom j m Hm) as Hr.
  assert (Hs : nth_error (_mikkola_solver lm (reflected manom) ecc) j
               = Some (mikkola lm (if pi <? m then reflect m else m) e)).
  { unfold _mikkola_solver.
    rewrite nth_error_map, (nth_error_combine _ _ _ _ _ Hr He). reflexivity. }
  assert (Hind : nth_error (map (fun x => pi <? x) manom) j = Some (pi <? m))
    by (rewrite nth_error_map, Hm; reflexivity).
  rewrite (scatter_select_map reflect _ _ j _ _ Hind Hs).
  unfold mikkola_wrapped. destruct (pi <? m); reflexivity.
Qed.

(** On binary64 too the fuel [max_iter + 1] is never what stops the loop. *)
Lemma newton_loop_exit_b64 (lm : libm) (tolerance : float) (max_iter : Z)
    (fuel : nat) :
  forall niter cells,
    (max_iter < niter + Z.of_nat fuel)%Z ->
    let r := newton_loop lm tolerance max_iter fuel niter cells in
    Kepler.nonempty (map (in_ind tolerance) (fst r)) && (snd r <=? max_iter)%Z
    = false.
Proof.
  induction fuel as [| fuel IH]; intros niter cells Hf; simpl.
  - assert (H : (niter <=? max_iter)%Z = false) by (apply Z.leb_gt; lia).
    rewrite H. apply andb_false_r.
  - destruct (Kepler.nonempty (map (in_ind tolerance) cells)
              && (niter <=? max_iter)%Z) eqn:Hg.
    + apply IH. lia.
    + simpl. exact Hg.
Qed.

(** On binary64 a position that is still in [ind] when the loop stops
    receives what [_mikkola_solver_wrapper] computes for it. *)
Lemma newton_solver_exhausted_b64 (lm : libm) (manom ecc : list float)
    (tolerance : float) (max_iter : Z) (k : nat) (m e : float) :
  nth_error manom k = Some m ->
  nth_error ecc k = Some e ->
  exhausted lm manom ecc tolerance max_iter k ->
  nth_error (_newton_solver lm manom ecc tolerance max_iter) k
  = Some (mikkola_wrapped lm m e).
Proof.
  intros Hm He (c & Hc & Hin). unfold newton_cells in Hc. unfold _newton_solver.
  pose proof (newton_loop_exit_b64 lm tolerance max_iter
                (Z.to_nat (max_iter + 1)) 0%Z
                (map (fun me => newton_start lm (fst me) (snd me))
                     (combine manom ecc))
                ltac:(lia)) as Hexit.
  destruct (newton_loop lm tolerance max_iter (Z.to_nat (max_iter + 1)) 0
              (map (fun me => newton_start lm (fst me) (snd me))
                   (combine manom ecc)))
    as [cells niter].
  simpl in Hc, Hexit.
  assert (Hind : nth_error (map (in_ind tolerance) cells) k = Some true)
    by (rewrite nth_error_map, Hc; simpl; rewrite Hin; reflexivity).
  rewrite (nonempty_nth_error _ _ Hind) in Hexit. simpl in Hexit.
  apply Z.leb_gt in Hexit.
  assert (Hge : (niter >=? max_iter)%Z = true) by (apply Z.geb_le; lia).
  rewrite Hge.
  eapply scatter_nth_error_true; [exact Hind | |].
  - rewrite nth_error_map, Hc. reflexivity.
  - apply mikkola_solver_wrapper_nth_error_b64; apply select_nth_error;
      assumption.
Qed.

(** With the sample library, tolerance -1 and [max_iter = 0], the cell
    M = -1e9, e = 0.5 is still in [ind] when the loop stops. *)
Lemma sample_libm_exhausted :
  pow_conforms sample_libm /\
  exhausted sample_libm [-1e9] [0.5] (-1.0) 0 0.
Proof.
  split.
  - unfold pow_conforms. repeat split; try reflexivity.
    right. right. left. reflexivity.
  - unfold exhausted, newton_cells. eexists. split; reflexivity.
Qed.

(** On binary64, whatever the tolerance and [max_iter]: when the cell
    M = -1e9, e = 0.5 is handed over, the call returns [array([nan])]. *)
Lemma calc_ecc_anom_handoff_nan (lm : libm) (tolerance : float) (max_iter : Z) :
  pow_conforms lm ->
  exhausted lm [-1e9] [0.5] tolerance max_iter 0 ->
  _calc_ecc_anom lm [-1e9] [0.5] tolerance max_iter = [nan].
Proof.
  intros Hpow Hex.
  pose proof (newton_solver_exhausted_b64 lm [-1e9] [0.5] tolerance max_iter
                0 (-1e9) 0.5 eq_refl eq_refl Hex) as Hn.
  rewrite (mikkola_wrapped_nan lm Hpow) in Hn.
  unfold _calc_ecc_anom. cbn [map length repeat].
  change (0.5 =? 0.0) with false. change (0.5 <? 0.95) with true.
  change (0.95 <=? 0.5) with false.
  rewrite !nonempty_singleton. cbn [Kepler.select Kepler.scatter].
  destruct (_newton_solver lm [-1e9] [0.5] tolerance max_iter) as [| x l];
    simpl in Hn; [discriminate |].
  injection Hn as ->. destruct l; reflexivity.
Qed.


End Binary64.

(** ** sampler.py: prepare_samples against the anchor observation *)

Section AnchorReprojection.
Import Kepler.
Import Orbit.
Import OFTI.
Open Scope R_scope.

(** The tangent half-angle formula at eccentricity 0, at the eccentric
    anomalies 0 and [pi / 2]. *)
Lemma tanom_circular_0 (c : cell) : ecc c = 0 -> tanom c 0 = 0.
Proof.
  intros He. unfold tanom. rewrite Rmult_0_r, tan_0, Rmult_0_r, atan_0. ring.
Qed.

Lemma tanom_circular_quarter (c : cell) : ecc c = 0 -> tanom c (PI / 2) = PI / 2.
Proof.
  intros He. unfold tanom. rewrite He.
  replace ((1 + 0) / (1 - 0)) with 1 by field.
  replace (1 / 2 * (PI / 2)) with (PI / 4) by field.
  rewrite sqrt_1, tan_PI4, Rmult_1_l, atan_1. field.
Qed.

(** What [prepare_samples] gets from [calc_orbit] at epoch 0 for the
    circular face-on orbit with [tau = 3/4]: its call passes [inc] where
    [calc_orbit] reads [tau], and [tau] where it reads [inc]. *)
Lemma calc_orbit_swapped_slots :
  fst (calc_orbit [0] [1] [0] [0] [0] [0] [3 / 4] [1000] [1] 0)
  = ({| o_shape := []; o_cells := [Some 0] |},
     {| o_shape := []; o_cells := [Some 1] |}).
Proof.
  rewrite calc_orbit_one_circular. cbn [fst].
  set (c := {| epochs := 0; sma := 1; ecc := 0; tau := 0; argp := 0;
               lan := 0; inc := 3 / 4; plx := 1000; mtot := 1 |}).
  assert (Hm : manom c = 0).
  { unfold manom. cbn [epochs tau c]. rewrite !Rmult_0_r, Rminus_0_r.
    apply fmod_small; pose proof PI_RGT_0; lra. }
  rewrite Hm.
  assert (Ht : tanom c 0 = 0) by (apply tanom_circular_0; reflexivity).
  assert (Hra : raoff c 0 = 0).
  { unfold raoff. rewrite Ht. cbn [argp lan c].
    replace (0 + 0 + 0) with 0 by ring. replace (0 + 0 - 0) with 0 by ring.
    rewrite sin_0. ring. }
  assert (Hde : deoff c 0 = 1).
  { unfold deoff, radius. rewrite Ht. cbn [argp lan sma ecc plx inc c].
    replace (0 + 0 + 0) with 0 by ring. replace (0 + 0 - 0) with 0 by ring.
    rewrite cos_0.
    pose proof (sin2_cos2 (1 / 2 * (3 / 4))) as H. unfold Rsqr in H.
    replace (1 * (1 - 0 * 1)
             * (cos (1 / 2 * (3 / 4)) ^ 2 * 1 + sin (1 / 2 * (3 / 4)) ^ 2 * 1)
             * (1000 * (1 / 1000)))
      with (sin (1 / 2 * (3 / 4)) * sin (1 / 2 * (3 / 4))
            + cos (1 / 2 * (3 / 4)) * cos (1 / 2 * (3 / 4))) by field.
    exact H. }
  rewrite Hra, Hde. reflexivity.
Qed.

(** The same orbit with every element in the parameter of [calc_orbit]
    that bears its name: at epoch 0 it is a quarter of a turn further. *)
Lemma calc_orbit_named_slots :
  fst (calc_orbit [0] [1] [0] [3 / 4] [0] [0] [0] [1000] [1] 0)
  = ({| o_shape := []; o_cells := [Some 1] |},
     {| o_shape := []; o_cells := [Some 0] |}).
Proof.
  rewrite calc_orbit_one_circular. cbn [fst].
  set (c := {| epochs := 0; sma := 1; ecc := 0; tau := 3 / 4; argp := 0;
               lan := 0; inc := 0; plx := 1000; mtot := 1 |}).
  assert (Hm : manom c = PI / 2).
  { unfold manom. cbn [epochs tau c]. rewrite Rmult_0_r.
    rewrite fmod_shift; pose proof PI_RGT_0; lra. }
  rewrite Hm.
  assert (Ht : tanom c (PI / 2) = PI / 2)
    by (apply tanom_circular_quarter; reflexivity).
  assert (Hra : raoff c (PI / 2) = 1).
  { unfold raoff, radius. rewrite Ht. cbn [argp lan sma ecc plx inc c].
    replace (PI / 2 + 0 + 0) with (PI / 2) by ring.
    replace (PI / 2 + 0 - 0) with (PI / 2) by ring.
    rewrite Rmult_0_r, sin_0, cos_0, sin_PI2. field. }
  assert (Hde : deoff c (PI / 2) = 0).
  { unfold deoff, radius. rewrite Ht. cbn [argp lan sma ecc plx inc c].
    replace (PI / 2 + 0 + 0) with (PI / 2) by ring.
    replace (PI / 2 + 0 - 0) with (PI / 2) by ring.
    rewrite Rmult_0_r, sin_0, cos_0, cos_PI2. field. }
  rewrite Hra, Hde. reflexivity.
Qed.

Lemma radec2seppa_north : radec2seppa 0 1 = (1, 0).
Proof.
  unfold radec2seppa, arctan2, degrees.
  destruct (Rlt_dec 0 1) as [_ | Hn]; [| lra].
  replace (0 ^ 2 + 1 ^ 2) with 1 by ring.
  replace (0 / 1) with 0 by field.
  rewrite sqrt_1, atan_0.
  replace (0 * 180 / PI) with 0 by (unfold Rdiv; ring).
  rewrite fmod_small by lra. reflexivity.
Qed.

Lemma radec2seppa_east : radec2seppa 1 0 = (1, 90).
Proof.
  unfold radec2seppa, arctan2, degrees.
  destruct (Rlt_dec 0 0) as [Hn | _]; [lra |].
  destruct (Rlt_dec 0 1) as [_ | Hn]; [| lra].
  replace (1 ^ 2 + 0 ^ 2) with 1 by ring.
  replace (PI / 2 * 180 / PI) with 90 by (field; apply PI_neq0).
  rewrite sqrt_1, fmod_small by lra. reflexivity.
Qed.

Lemma scale_and_rotate_on_target :
  scale_and_rotate {| a_epoch := 0; a_sep_observed := 1; a_pa_observed := 0 |}
    1 0 (3 / 4) 1 0 1 0 0
  = (1, 0, 3 / 4).
Proof.
  unfold scale_and_rotate. rewrite radec2seppa_north.
  cbn [a_epoch a_sep_observed a_pa_observed].
  replace (1 * ((0 + 1) / 1)) with 1 by field.
  assert (Hlan : fmod (0 + radians (0 + 0 - 0)) (2 * PI) = 0).
  { unfold radians. replace (0 + (0 + 0 - 0) * PI / 180) with 0 by field.
    apply fmod_small; pose proof PI_RGT_0; lra. }
  assert (Htau : fmod (0 / period 1 1 - (0 / period 1 1 - 3 / 4)) 1 = 3 / 4).
  { replace (0 / period 1 1 - (0 / period 1 1 - 3 / 4)) with (3 / 4)
      by (unfold Rdiv; ring).
    apply fmod_small; lra. }
  rewrite Hlan, Htau. reflexivity.
Qed.

(** C1 on the code: one drawn orbit (circular, face-on, [tau = 3/4]), the
    anchor observed at epoch 0 at separation 1 and position angle 0, both
    Gaussian offsets 0.  [prepare_samples] returns the orbit as drawn,
    because its own call of [calc_orbit] (with [inc] and [tau] in each
    other's place) puts it on the observation already; projected with its
    elements in the parameters that bear their names, the returned orbit
    is at separation 1 and position angle 90, not 0. *)
Theorem prepare_samples_misses_anchor :
  let a := {| a_epoch := 0; a_sep_observed := 1; a_pa_observed := 0 |} in
  let samples :=
    {| r_sma := [1]; r_ecc := [0]; r_inc := [0]; r_argp := [0]; r_lan := [0];
       r_tau := [3 / 4]; r_plx := [1000]; r_mtot := [1] |} in
  exists p,
    prepare_samples a samples [0] [0] = Ok p /\
    p_sma p = [Some 1] /\ p_lan p = [Some 0] /\ p_tau p = [Some (3 / 4)] /\
    reprojected a p 0 = Some (1, 90) /\
    reprojected a p 0 <> Some (0 + a_sep_observed a, 0 + a_pa_observed a).
Proof.
  intros a samples.
  assert (Hp : prepare_samples a samples [0] [0]
               = Ok {| p_sma := [Some 1]; p_lan := [Some 0];
                       p_tau := [Some (3 / 4)]; p_drawn := samples |}).
  { unfold prepare_samples. cbn [r_sma r_ecc r_inc r_argp r_lan r_tau r_plx
                                 r_mtot samples a_epoch a].
    pose proof calc_orbit_swapped_slots as H.
    destruct (calc_orbit [0] [1] [0] [0] [0] [0] [3 / 4] [1000] [1] 0)
      as [[ra dec] vc].
    cbn [fst] in H. injection H as -> ->.
    cbn [o_shape o_cells andb length seq map nth].
    unfold a. rewrite !scale_and_rotate_on_target.
    reflexivity. }
  eexists. split; [exact Hp |].
  cbn [p_sma p_lan p_tau].
  repeat (split; [reflexivity |]).
  assert (Hr : reprojected a
                 {| p_sma := [Some 1]; p_lan := [Some 0];
                    p_tau := [Some (3 / 4)]; p_drawn := samples |} 0
               = Some (1, 90)).
  { unfold reprojected.
    cbn [p_sma p_lan p_tau p_drawn nth r_ecc r_argp r_inc r_plx r_mtot samples
         a_epoch a].
    pose proof calc_orbit_named_slots as H.
    destruct (calc_orbit [0] [1] [0] [3 / 4] [0] [0] [0] [1000] [1] 0)
      as [[ra dec] vc].
    cbn [fst] in H. injection H as -> ->.
    cbn [o_cells]. rewrite radec2seppa_east. reflexivity. }
  split; [exact Hr |].
  rewrite Hr. cbn [a_sep_observed a_pa_observed a].
  intros H. injection H as H1 H2. lra.
Qed.

End AnchorReprojection.
